(** * obsidian-transcription: the transcription engine (src/transcribe.ts)

    A shallow embedding of [TranscriptionEngine]: the segment renderer
    [segmentsToTimestampedString], the result formatter
    [formatSwiftinkResults], the object-name sanitizer and the two provider
    backends, whose promises and callbacks are modelled as event-driven
    state machines.

    Modelling conventions.
    - A JavaScript string is a [string]; each character stands for one code
      unit below 256.
    - A JavaScript number is a rational [Q].  The quotient and the product
      that compute a bucket key are rounded to the nearest double
      ([binary64]); sums, comparisons, [Math.max], [Math.floor] and the
      product by 1000 that makes a [Date] are taken exact (rounding that
      product does not move a double across a whole second).  NaN, the
      infinities, overflow and time values beyond the range of [Date] are
      outside the model.
    - The process time zone [tz] has a fixed offset over the instants a
      rendering formats (no change of daylight saving time among them).  It
      carries the minutes [getTimezoneOffset] reports and, apart from them,
      the seconds by which local time is behind UTC; the two agree when the
      offset is a whole number of minutes.
    - [date-fns]'s [format] is written out for the two patterns the engine
      itself chooses, ["mm:ss"] and ["HH:mm:ss"]; for any other pattern it is
      the parameter [formatOther]. *)

From Stdlib Require Import NArith ZArith QArith Qround Lia List Bool Ascii String.
From Stdlib Require Import SetoidList Sorted Permutation.
Import ListNotations.

Local Open Scope string_scope.

(* ================================================================== *)
(** * Part I: definitions *)
(* ================================================================== *)

(** ** Strings *)

Definition LF : string := String (ascii_of_nat 10) "".

Definition charCode (c : ascii) : N := N_of_ascii c.

(** The white space and line terminators [String.prototype.trim] strips,
    among the code units below 256. *)
Definition isWhiteSpace (c : ascii) : bool :=
  let n := charCode c in
  ((9 <=? n) && (n <=? 13) || (n =? 32) || (n =? 160))%N.

Fixpoint trimStart (s : string) : string :=
  match s with
  | "" => ""
  | String c s' => if isWhiteSpace c then trimStart s' else s
  end.

Fixpoint trimEnd (s : string) : string :=
  match s with
  | "" => ""
  | String c s' =>
      match trimEnd s' with
      | "" => if isWhiteSpace c then "" else String c ""
      | r => String c r
      end
  end.

(** [s.trim()] *)
Definition trim (s : string) : string := trimEnd (trimStart s).

(** [s.slice(-1)]: the last character, or the empty string. *)
Fixpoint sliceLast (s : string) : string :=
  match s with
  | "" => ""
  | String c "" => String c ""
  | String _ s' => sliceLast s'
  end.

(** [a.join(sep)] *)
Definition join (sep : string) (l : list string) : string := String.concat sep l.

(** ** Object names (Backend B)

    [file.name.replace(/[^a-zA-Z0-9.]+/g, "-")] *)

(** The characters of the class [a-zA-Z0-9.]. *)
Definition inClass (c : ascii) : bool :=
  let n := charCode c in
  ((97 <=? n) && (n <=? 122) || (65 <=? n) && (n <=? 90)
   || (48 <=? n) && (n <=? 57) || (n =? 46))%N.

(** The global replace scans left to right.  A character of the class is
    copied.  A character outside it opens a match of [[^a-zA-Z0-9.]+], which
    is greedy: it extends over every following character outside the class
    ([inMatch] is true while it does), and the whole match is replaced by a
    single ["-"]. *)
Fixpoint replaceMatches (inMatch : bool) (s : string) : string :=
  match s with
  | "" => ""
  | String c s' =>
      if inClass c then String c (replaceMatches false s')
      else if inMatch then replaceMatches true s'
      else String "-" (replaceMatches true s')
  end.

Definition sanitizeName (name : string) : string := replaceMatches false name.

(** The replacement read character by character, as the specification words
    it: every character outside the class becomes ["-"]. *)
Fixpoint replaceEachChar (s : string) : string :=
  match s with
  | "" => ""
  | String c s' => String (if inClass c then c else "-"%char) (replaceEachChar s')
  end.

(** Runs of ["-"] squeezed to one ["-"]. *)
Fixpoint squeezeDashes (s : string) : string :=
  match s with
  | "" => ""
  | String c s' =>
      match s' with
      | String d _ =>
          if (Ascii.eqb c "-" && Ascii.eqb d "-")%bool then squeezeDashes s'
          else String c (squeezeDashes s')
      | "" => String c ""
      end
  end.

(** The characters of [s] that belong to the class, in order. *)
Fixpoint keptChars (s : string) : string :=
  match s with
  | "" => ""
  | String c s' => if inClass c then String c (keptChars s') else keptChars s'
  end.

(** ** Numbers and dates *)

(** [Math.max(a, b)] *)
Definition mathMax (a b : Q) : Q := if Qle_bool a b then b else a.

(** [a < b] *)
Definition Qltb (a b : Q) : bool := negb (Qle_bool b a).

(** [new Date(v)]: the time value is [v] truncated towards zero, in
    milliseconds since the epoch. *)
Definition Date : Type := Z.

Definition newDate (v : Q) : Date := Z.quot (Qnum v) (Zpos (Qden v)).

Definition digit (d : Z) : ascii := ascii_of_N (48 + Z.to_N d).

(** A two-digit, zero-padded field. *)
Definition pad2 (n : Z) : string :=
  String (digit (n / 10)%Z) (String (digit (n mod 10)%Z) "").

(** The time zone of the process, of the same offset at every instant a
    rendering formats.  [reportedMinutes] is the value of
    [getTimezoneOffset()]; [offsetSeconds] is the number of seconds local
    time is behind UTC, with which the runtime computes the local fields of
    a [Date].  Where the offset is a whole number of minutes,
    [offsetSeconds] is 60 times [reportedMinutes]; where it is not
    (Africa/Monrovia in 1970: 44 minutes and 30 seconds) the minutes are
    reported without the seconds. *)
Record TimeZone : Type := mkTimeZone {
  reportedMinutes : Z;
  offsetSeconds : Z
}.

Definition hoursOf (t : Z) : Z := ((t / 3600000) mod 24)%Z.
Definition minutesOf (t : Z) : Z := ((t / 60000) mod 60)%Z.
Definition secondsOf (t : Z) : Z := ((t / 1000) mod 60)%Z.

(** ** The segment renderer *)

Record TimestampedTextSegment : Type := mkSegment {
  start : Q;
  end_ : Q;
  text : string
}.

(** One entry of [groupedSegments]. *)
Record Group : Type := mkGroup {
  g_start : Q;
  g_end : Q;
  g_texts : list string
}.

(** An object whose property keys are numbers converted to strings, as a
    list of entries in insertion order.  Two numbers give the same key
    exactly when they are equal, so a key is kept as the number in lowest
    terms. *)
Definition NumKeyed (V : Type) : Type := list (Q * V).

Fixpoint getProp {V} (k : Q) (o : NumKeyed V) : option V :=
  match o with
  | [] => None
  | (k', v) :: o' => if Qeq_bool k k' then Some v else getProp k o'
  end.

(** Assignment to an existing property keeps its place. *)
Fixpoint setProp {V} (k : Q) (v : V) (o : NumKeyed V) : NumKeyed V :=
  match o with
  | [] => [(k, v)]
  | (k', v') :: o' =>
      if Qeq_bool k k' then (k', v) :: o' else (k', v') :: setProp k v o'
  end.

(** A key is an array index when it is the canonical form of an integer
    from 0 to 2^32 - 2. *)
Definition isArrayIndex (k : Q) : bool :=
  (Pos.eqb (Qden k) 1 && (0 <=? Qnum k)%Z && (Qnum k <? 4294967295)%Z)%bool.

(** Insertion sort by ascending numeric key. *)
Fixpoint insertBy {A} (key : A -> Q) (x : A) (l : list A) : list A :=
  match l with
  | [] => [x]
  | y :: l' =>
      if Qle_bool (key x) (key y) then x :: l else y :: insertBy key x l'
  end.

Definition sortBy {A} (key : A -> Q) (l : list A) : list A :=
  fold_right (insertBy key) [] l.

(** The own properties in the order the language enumerates them: array
    indices in ascending numeric order, then the other keys in the order
    they were created. *)
Definition ownEntries {V} (o : NumKeyed V) : list (Q * V) :=
  sortBy fst (filter (fun e => isArrayIndex (fst e)) o)
  ++ filter (fun e => negb (isArrayIndex (fst e))) o.

(** [Object.values(o)] *)
Definition objectValues {V} (o : NumKeyed V) : list V := map snd (ownEntries o).

(** *** Doubles

    The nearest double to a rational, as the division and the
    multiplication of doubles round their exact results. *)

(** The integer nearest to [num / den], the even one of two equally near,
    for a positive [den]. *)
Definition roundHalfEven (num den : Z) : Z :=
  let q := (num / den)%Z in
  let r := (num mod den)%Z in
  if (2 * r <? den)%Z then q
  else if (den <? 2 * r)%Z then (q + 1)%Z
  else if Z.even q then q else (q + 1)%Z.

(** The exponent [e] of the positive rational [a / b]:
    [2 ^ e <= a / b < 2 ^ (e + 1)]. *)
Definition exponentOf (a b : Z) : Z :=
  let e0 := (Z.log2 a - Z.log2 b)%Z in
  if (a * 2 ^ Z.max 0 (- e0) <? b * 2 ^ Z.max 0 e0)%Z then (e0 - 1)%Z else e0.

(** The double nearest to the positive rational [a / b]: the nearest
    multiple of [2 ^ (e - 52)] for the exponent [e] of [a / b], of
    [2 ^ (-1074)] below the normal range. *)
Definition roundPositive (a b : Z) : Q :=
  let s := (52 - Z.max (exponentOf a b) (-1022))%Z in
  let m := roundHalfEven (a * 2 ^ Z.max 0 s) (b * 2 ^ Z.max 0 (- s)) in
  (m * 2 ^ Z.max 0 (- s)) # Z.to_pos (2 ^ Z.max 0 s).

Definition binary64 (x : Q) : Q :=
  let y := Qred x in
  match Qnum y with
  | Z0 => 0
  | Zpos p => roundPositive (Zpos p) (Zpos (Qden y))
  | Zneg p => - roundPositive (Zpos p) (Zpos (Qden y))
  end.

(** [Math.floor(segment.start / interval) * interval]: the quotient is
    rounded to a double, its floor is taken, and the product is rounded to
    a double. *)
Definition intervalStart (interval : Q) (segment : TimestampedTextSegment) : Q :=
  Qred (binary64
          (inject_Z (Qfloor (binary64 (start segment / interval))) * interval)).

(** The body of the grouping [forEach]. *)
Definition addToGroups (interval : Q) (groupedSegments : NumKeyed Group)
    (segment : TimestampedTextSegment) : NumKeyed Group :=
  let k := intervalStart interval segment in
  match getProp k groupedSegments with
  | None =>
      setProp k (mkGroup (start segment) (end_ segment) [text segment])
        groupedSegments
  | Some g =>
      setProp k
        (mkGroup (g_start g) (mathMax (g_end g) (end_ segment))
           (g_texts g ++ [text segment]))
        groupedSegments
  end.

Definition groupSegments (interval : Q) (segments : list TimestampedTextSegment)
    : NumKeyed Group :=
  fold_left (addToGroups interval) segments [].

Definition bucketOfGroup (group : Group) : TimestampedTextSegment :=
  mkSegment (g_start group) (g_end group) (trim (join "" (g_texts group))).

Definition bucketedSegments (interval : Q) (segments : list TimestampedTextSegment)
    : list TimestampedTextSegment :=
  map bucketOfGroup (objectValues (groupSegments interval segments)).

(** The largest [end], starting from 0. *)
Definition maxDuration (segments : list TimestampedTextSegment) : Q :=
  fold_left (fun m segment => mathMax m (end_ segment)) segments 0.

Definition autoFormat (segments : list TimestampedTextSegment) : string :=
  if Qltb (maxDuration segments) 3600 then "mm:ss" else "HH:mm:ss".

(** ** Settings and transcripts *)

Record TranscriptionSettings : Type := mkSettings {
  timestamps : bool;
  timestampFormat : string;
  embedSummary : bool;
  embedOutline : bool;
  embedKeywords : bool;
  embedAdditionalFunctionality : bool;
  language : string
}.

(** A transcript resource.  An optional field is [None] when it is absent
    or [null]. *)
Record TranscriptSchema : Type := mkTranscript {
  tr_id : string;
  tr_name : string;
  tr_status : option string;
  tr_text : option string;
  tr_text_segments : list TimestampedTextSegment;
  tr_summary : option string;
  tr_heading_segments : list TimestampedTextSegment;
  tr_keywords : list string
}.

(** The truthy value of an optional string, if it has one: absent values
    and the empty string are falsy. *)
Definition truthy (o : option string) : option string :=
  match o with
  | Some "" => None
  | _ => o
  end.

(** ** Promises *)

(** What a promise is rejected with: a message string, an error object
    or a [Notice] object. *)
Inductive Reason : Type :=
| Message (msg : string)
| ErrorObject (error : string)
| NoticeObject (message : string).

Inductive Promise (V : Type) : Type :=
| Pending
| Resolved (value : V)
| Rejected (reason : Reason).

Arguments Pending {V}.
Arguments Resolved {V} value.
Arguments Rejected {V} reason.

(** [resolve] and [reject] settle a pending promise and do nothing to a
    settled one. *)
Definition resolve {V} (value : V) (p : Promise V) : Promise V :=
  match p with
  | Pending => Resolved value
  | _ => p
  end.

Definition reject {V} (reason : Reason) (p : Promise V) : Promise V :=
  match p with
  | Pending => Rejected reason
  | _ => p
  end.

(** ** The orchestrator: [getTranscription]

    The promise it returns is [backend.then(transcription => transcription)]
    for the promise [backend] of the selected backend: it settles as
    [backend] does, and stays pending while [backend] does. *)
Definition getTranscription (backend : Promise string) : Promise string :=
  match backend with
  | Pending => Pending
  | Resolved transcription => Resolved transcription
  | Rejected reason => Rejected reason
  end.

(** ** Backend A: [getTranscriptionWhisperASR]

    The promise and the handlers registered on the create request, the
    interval and the query requests, from the moment the promise is
    created.  Response bodies are given parsed. *)

Record CreateResponse : Type := mkCreateResponse {
  code : Z;
  taskId : option string;
  msg : string
}.

(** A query response; [q_sentences] holds the [s] fields of the sentences
    of its [result]. *)
Record QueryResponse : Type := mkQueryResponse {
  q_code : Z;
  q_sentences : list string;
  q_msg : string
}.

Definition RESULT_TYPE : string := "1".

(** The path of a query request; an absent [taskId] prints as
    ["undefined"]. *)
Definition queryPath (task : option string) : string :=
  "/asr/file/v1/query?taskId="
  ++ match task with Some t => t | None => "undefined" end
  ++ "&resultType=" ++ RESULT_TYPE.

Record StateA : Type := mkStateA {
  promiseA : Promise string;
  (* the create request has had its response *)
  created : bool;
  (* the task the interval polls for, while the interval is set *)
  intervalID : option (option string);
  (* the paths of the query requests issued so far *)
  queries : list string;
  (* the query requests whose outcome is still to come *)
  outstanding : nat
}.

Inductive EventA : Type :=
| CreateResponseEnd (response : CreateResponse)
| CreateRequestError (error : string)
| IntervalFires
| QueryResponseEnd (response : QueryResponse)
| QueryRequestError (error : string).

Definition initA : StateA := mkStateA Pending false None [] 0.

Definition clearInterval (st : StateA) : StateA :=
  mkStateA (promiseA st) (created st) None (queries st) (outstanding st).

Definition settleA (f : Promise string -> Promise string) (st : StateA) : StateA :=
  mkStateA (f (promiseA st)) (created st) (intervalID st) (queries st)
    (outstanding st).

Definition answered (st : StateA) : StateA :=
  mkStateA (promiseA st) (created st) (intervalID st) (queries st)
    (Nat.pred (outstanding st)).

Definition stepA (st : StateA) (ev : EventA) : StateA :=
  match ev with
  | CreateResponseEnd response =>
      if created st then st
      else if (code response =? 10000)%Z then
        mkStateA (promiseA st) true (Some (taskId response)) (queries st)
          (outstanding st)
      else
        mkStateA (reject (Message (msg response)) (promiseA st)) true None
          (queries st) (outstanding st)
  (* the handler only logs the error *)
  | CreateRequestError _ => st
  | IntervalFires =>
      match intervalID st with
      | Some task =>
          mkStateA (promiseA st) (created st) (intervalID st)
            (queries st ++ [queryPath task]) (S (outstanding st))
      | None => st
      end
  | QueryResponseEnd response =>
      match outstanding st with
      | O => st
      | S _ =>
          if (q_code response =? 11000)%Z then
            clearInterval
              (settleA (resolve (join " " (q_sentences response))) (answered st))
          else if (q_code response =? 11001)%Z then answered st
          else
            clearInterval
              (settleA (reject (Message (q_msg response))) (answered st))
      end
  | QueryRequestError error =>
      match outstanding st with
      | O => st
      | S _ =>
          clearInterval (settleA (reject (ErrorObject error)) (answered st))
      end
  end.

Definition runA (st : StateA) (events : list EventA) : StateA :=
  fold_left stepA events st.

Section Engine.

(** The time zone of the process. *)
Variable tz : TimeZone.

(** [date-fns]'s [format] on a pattern other than the two written out
    below, given the local time in milliseconds. *)
Variable formatOther : Z -> string -> string.

(** [d.getTimezoneOffset()], in minutes. *)
Definition getTimezoneOffset (d : Date) : Z := reportedMinutes tz.

(** The local time a [Date] shows, in milliseconds. *)
Definition localTime (d : Date) : Z := (d - offsetSeconds tz * 1000)%Z.

(** [format(d, pattern)] *)
Definition format (d : Date) (pattern : string) : string :=
  let t := localTime d in
  if String.eqb pattern "mm:ss" then
    pad2 (minutesOf t) ++ ":" ++ pad2 (secondsOf t)
  else if String.eqb pattern "HH:mm:ss" then
    pad2 (hoursOf t) ++ ":" ++ pad2 (minutesOf t) ++ ":" ++ pad2 (secondsOf t)
  else formatOther t pattern.

(** A number of seconds as the [Date] the renderer formats. *)
Definition shiftedDate (seconds : Q) : Date :=
  let d := newDate (seconds * 1000) in
  (d + getTimezoneOffset d * 60000)%Z.

(** The string one step of the [reduce] appends. *)
Definition segment_string (formatToUse : string)
    (segment : TimestampedTextSegment) : string :=
  format (shiftedDate (start segment)) formatToUse ++ " - "
  ++ format (shiftedDate (end_ segment)) formatToUse ++ ": "
  ++ trim (text segment) ++ LF.

Definition renderSegments (formatToUse : string)
    (segments : list TimestampedTextSegment) : string :=
  fold_left
    (fun transcription segment =>
       transcription ++ segment_string formatToUse segment)
    segments "".

Definition segmentsToTimestampedString
    (segments : list TimestampedTextSegment) (timestampFormat : string)
    (interval : Q) : string :=
  let formatToUse :=
    if String.eqb timestampFormat "auto" then autoFormat segments
    else timestampFormat in
  if Qltb 0 interval then
    renderSegments formatToUse (bucketedSegments interval segments)
  else renderSegments formatToUse segments.

(** ** The result formatter *)

Definition SUMMARY_SENTINEL : string := "Insufficient information for a summary.".

(** [if (transcript_text.slice(-1) !== "\n") transcript_text += "\n"] *)
Definition ensureNewline (transcript_text : string) : string :=
  if String.eqb (sliceLast transcript_text) LF then transcript_text
  else transcript_text ++ LF.

Definition transcriptBody (settings : TranscriptionSettings)
    (transcript : TranscriptSchema) : string :=
  if timestamps settings then
    segmentsToTimestampedString (tr_text_segments transcript)
      (timestampFormat settings) 0
  else match truthy (tr_text transcript) with
       | Some t => t
       | None => ""
       end.

(** What the summary step appends: the section, or nothing. *)
Definition summarySection (settings : TranscriptionSettings)
    (transcript : TranscriptSchema) : string :=
  match truthy (tr_summary transcript) with
  | Some summary =>
      if (embedSummary settings && negb (String.eqb summary SUMMARY_SENTINEL))%bool
      then "## Summary" ++ LF ++ summary
      else ""
  | None => ""
  end.

Definition outlineSection (settings : TranscriptionSettings)
    (transcript : TranscriptSchema) : string :=
  if (embedOutline settings
      && Nat.ltb 0 (List.length (tr_heading_segments transcript)))%bool
  then "## Outline" ++ LF
       ++ segmentsToTimestampedString (tr_heading_segments transcript)
            (timestampFormat settings) 0
  else "".

Definition keywordsSection (settings : TranscriptionSettings)
    (transcript : TranscriptSchema) : string :=
  if (embedKeywords settings
      && Nat.ltb 0 (List.length (tr_keywords transcript)))%bool
  then "## Keywords" ++ LF ++ join ", " (tr_keywords transcript)
  else "".

Definition functionsLink (settings : TranscriptionSettings)
    (transcript : TranscriptSchema) : string :=
  if embedAdditionalFunctionality settings
  then "[...](obsidian://swiftink_transcript_functions?id="
       ++ tr_id transcript ++ ")"
  else "".

(** The accumulated [transcript_text] after each normalisation. *)
Definition afterTranscript (settings : TranscriptionSettings)
    (transcript : TranscriptSchema) : string :=
  ensureNewline ("## Transcript" ++ LF ++ transcriptBody settings transcript).

Definition afterSummary (settings : TranscriptionSettings)
    (transcript : TranscriptSchema) : string :=
  ensureNewline (afterTranscript settings transcript
                 ++ summarySection settings transcript).

Definition afterOutline (settings : TranscriptionSettings)
    (transcript : TranscriptSchema) : string :=
  ensureNewline (afterSummary settings transcript
                 ++ outlineSection settings transcript).

Definition afterKeywords (settings : TranscriptionSettings)
    (transcript : TranscriptSchema) : string :=
  ensureNewline (afterOutline settings transcript
                 ++ keywordsSection settings transcript).

Definition formatSwiftinkResults (settings : TranscriptionSettings)
    (transcript : TranscriptSchema) : string :=
  afterKeywords settings transcript ++ functionsLink settings transcript.

(** ** Backend B: [getTranscriptionSwiftink]

    The asynchronous function is a state machine over the outcomes of the
    operations it awaits and of the callbacks it registers.  Notices and
    debug logging are left out.  A poll is one firing of the interval
    callback together with the response it awaits; firings do not
    overlap. *)

Definition MAX_TRIES : N := 100.

Record Session : Type := mkSession {
  access_token : string;
  user_id : string
}.

Definition completed_statuses (settings : TranscriptionSettings) : list string :=
  if (embedSummary settings || embedOutline settings || embedKeywords settings)%bool
  then ["complete"]
  else ["transcribed"; "complete"].

(** [a.includes(x)] *)
Definition includes (a : list string) (x : string) : bool :=
  existsb (String.eqb x) a.

(** [transcript.status == s] *)
Definition statusIs (transcript : TranscriptSchema) (s : string) : bool :=
  match tr_status transcript with
  | Some x => String.eqb x s
  | None => false
  end.

(** [transcript.status && completed_statuses.includes(transcript.status)] *)
Definition statusCompleted (settings : TranscriptionSettings)
    (transcript : TranscriptSchema) : bool :=
  match truthy (tr_status transcript) with
  | Some status => includes (completed_statuses settings) status
  | None => false
  end.

Inductive PollOutcome : Type :=
| PollResolve (value : string)
| PollReject (msg : string)
| PollContinue.

(** The branches of the interval callback, once the response has arrived
    with [tries] earlier polls counted. *)
Definition pollCallback (settings : TranscriptionSettings) (tries : N)
    (transcript : TranscriptSchema) : PollOutcome :=
  if statusCompleted settings transcript
  then PollResolve (formatSwiftinkResults settings transcript)
  else if statusIs transcript "failed"
  then PollReject "Swiftink failed to transcribe the file"
  else if statusIs transcript "validation_failed"
  then PollReject "Swiftink has detected an invalid file"
  else if (MAX_TRIES <? tries)%N
  then PollReject "Swiftink took too long to transcribe the file"
  else PollContinue.

Inductive PhaseB : Type :=
| AwaitSession
| AwaitRead (session : Session)
| Uploading (objectName : string)
| Creating (filename : string)
| Polling (tries : N)
| Finished.

Record StateB : Type := mkStateB {
  phaseB : PhaseB;
  promiseB : Promise string
}.

Inductive EventB : Type :=
| SessionResult (session : option Session)
| ReadOk
| ReadFailed (error : string)
| UploadSuccess
| UploadError (error : string)
| CreateOk (transcript : TranscriptSchema)
| CreateFailed (error : string)
| PollResponse (transcript : TranscriptSchema)
| PollFailed (error : string).

Definition initB : StateB := mkStateB AwaitSession Pending.

Definition finishB (p : Promise string) : StateB := mkStateB Finished p.

(** [uploadPromise] once the upload has reported [ev]: its executor takes
    [resolve] alone, which [onSuccess] calls; the upload is given no
    [onError]. *)
Definition uploadPromiseAfter (ev : EventB) : Promise unit :=
  match ev with
  | UploadSuccess => resolve tt Pending
  | _ => Pending
  end.

(** [try { await uploadPromise; ... } catch (error) { return
    Promise.reject(new Notice(...)) }] and what follows it. *)
Definition awaitUpload (fileName : string) (st : StateB)
    (uploadPromise : Promise unit) : StateB :=
  match uploadPromise with
  | Pending => st
  | Resolved _ => mkStateB (Creating (sanitizeName fileName)) (promiseB st)
  | Rejected _ =>
      finishB
        (reject
           (NoticeObject
              ("Failed to upload " ++ sanitizeName fileName ++ " to Swiftink"))
           (promiseB st))
  end.

Definition stepB (settings : TranscriptionSettings) (fileName : string)
    (st : StateB) (ev : EventB) : StateB :=
  match phaseB st, ev with
  | AwaitSession, SessionResult None =>
      finishB (reject (Message "No user session found. Please log in and try again.")
                 (promiseB st))
  | AwaitSession, SessionResult (Some session) =>
      mkStateB (AwaitRead session) (promiseB st)
  | AwaitRead session, ReadOk =>
      mkStateB (Uploading (user_id session ++ "/" ++ sanitizeName fileName))
        (promiseB st)
  | AwaitRead _, ReadFailed error =>
      finishB (reject (ErrorObject error) (promiseB st))
  (* An upload error leaves [uploadPromise] pending: the [await] does not
     return and the [catch] is not entered. *)
  | Uploading _, UploadSuccess | Uploading _, UploadError _ =>
      awaitUpload fileName st (uploadPromiseAfter ev)
  | Creating _, CreateOk _ => mkStateB (Polling 0) (promiseB st)
  | Creating _, CreateFailed error =>
      finishB (reject (ErrorObject error) (promiseB st))
  | Polling tries, PollResponse transcript =>
      match pollCallback settings tries transcript with
      | PollResolve value => finishB (resolve value (promiseB st))
      | PollReject msg => finishB (reject (Message msg) (promiseB st))
      | PollContinue => mkStateB (Polling (tries + 1)) (promiseB st)
      end
  (* [await requestUrl(options)] throws inside the interval callback:
     the callback ends there, before [tries++], and the interval keeps
     firing. *)
  | Polling _, PollFailed _ => st
  | _, _ => st
  end.

Definition runB (settings : TranscriptionSettings) (fileName : string)
    (st : StateB) (events : list EventB) : StateB :=
  fold_left (stepB settings fileName) events st.

(** The poll loop alone, from its first firing. *)
Definition pollLoop (settings : TranscriptionSettings)
    (polls : list TranscriptSchema) : StateB :=
  runB settings "" (mkStateB (Polling 0) Pending) (map PollResponse polls).

End Engine.


(** ** Notions the statements use *)

(** The length of the run of line breaks [s] ends in, where [n] line breaks
    come just before [s]. *)
Fixpoint lineBreakRun (n : nat) (s : string) : nat :=
  match s with
  | "" => n
  | String c s' =>
      if Ascii.eqb c (ascii_of_nat 10) then lineBreakRun (S n) s'
      else lineBreakRun 0 s'
  end.

(** The number of line breaks [s] ends in. *)
Definition trailingLineBreaks (s : string) : nat := lineBreakRun 0 s.

(** The separator a normalisation adds after [s]. *)
Definition separatorAfter (s : string) : string :=
  if String.eqb (sliceLast s) LF then "" else LF.

(** [transcript] with another summary. *)
Definition withSummary (summary : option string) (transcript : TranscriptSchema)
    : TranscriptSchema :=
  mkTranscript (tr_id transcript) (tr_name transcript) (tr_status transcript)
    (tr_text transcript) (tr_text_segments transcript) summary
    (tr_heading_segments transcript) (tr_keywords transcript).

(** Settings with every option off, and a transcript whose plain text ends
    in two line breaks. *)
Definition settingsAllOff : TranscriptionSettings :=
  mkSettings false "auto" false false false false "auto".

Definition transcriptTwoBreaks : TranscriptSchema :=
  mkTranscript "t1" "memo.mp3" (Some "complete") (Some ("a" ++ LF ++ LF))
    [] None [] [].

(** *** Buckets, described from the segments *)

(** The bucket index of a segment, [floor(start / interval)], of the
    quotient itself. *)
Definition bucketIndex (interval : Q) (segment : TimestampedTextSegment) : Z :=
  Qfloor (start segment / interval).

Definition TWO53 : Z := 9007199254740992.

(** A double: a number that rounding to the nearest double leaves as it
    is. *)
Definition isDouble (x : Q) : Prop := binary64 x == x.

(** A start that is a double from 0 to below 2^53. *)
Definition exactStart (segment : TimestampedTextSegment) : Prop :=
  0 <= start segment /\ start segment < inject_Z TWO53
  /\ isDouble (start segment).

Definition hasKey (k : Q) (keys : list Q) : bool := existsb (Qeq_bool k) keys.

(** The distinct bucket keys, in the order they are first met. *)
Definition firstKeys (interval : Q) (segments : list TimestampedTextSegment)
    : list Q :=
  fold_left
    (fun keys segment =>
       let k := intervalStart interval segment in
       if hasKey k keys then keys else (keys ++ [k])%list)
    segments [].

(** The order in which an object enumerates the keys [keys], created in
    that order. *)
Definition enumerationOrder (keys : list Q) : list Q :=
  sortBy (fun k => k) (filter isArrayIndex keys)
  ++ filter (fun k => negb (isArrayIndex k)) keys.

(** The segments of the bucket with key [k], in the order they are met. *)
Definition members (interval : Q) (segments : list TimestampedTextSegment)
    (k : Q) : list TimestampedTextSegment :=
  filter (fun segment => Qeq_bool (intervalStart interval segment) k) segments.

(** The largest [end] among [m] and the segments of [l]. *)
Definition maxEnd (m : Q) (l : list TimestampedTextSegment) : Q :=
  fold_left (fun m segment => mathMax m (end_ segment)) l m.

(** The group of the bucket with key [k]: the start of its first member,
    the largest end of its members, their texts in order. *)
Definition groupFor (interval : Q) (segments : list TimestampedTextSegment)
    (k : Q) : Group :=
  match members interval segments k with
  | [] => mkGroup 0 0 []
  | first :: rest =>
      mkGroup (start first) (maxEnd (end_ first) rest)
        (map text (first :: rest))
  end.

(** The segment rendered for the bucket with key [k]. *)
Definition bucketFor (interval : Q) (segments : list TimestampedTextSegment)
    (k : Q) : TimestampedTextSegment :=
  bucketOfGroup (groupFor interval segments k).

(** Two segments in ascending order; with an interval of two and a half
    seconds they fall into the buckets 1 and 2. *)
Definition segmentsTwoBuckets : list TimestampedTextSegment :=
  [mkSegment 3 4 "a"; mkSegment 6 7 "b"].

(** The double nearest to 0.1, and two segments that start at the doubles
    nearest to 0.8 and to 0.9. *)
Definition doubleTenth : Q := binary64 (1 # 10).

Definition segmentsTenths : list TimestampedTextSegment :=
  [mkSegment (binary64 (8 # 10)) 1 "a"; mkSegment (binary64 (9 # 10)) 1 "b"].

(** *** Polls *)

(** A poll that no status branch of the interval callback takes. *)
Definition nonTerminal (settings : TranscriptionSettings)
    (transcript : TranscriptSchema) : bool :=
  (negb (statusCompleted settings transcript)
   && negb (statusIs transcript "failed")
   && negb (statusIs transcript "validation_failed"))%bool.


Definition TIMEOUT_MESSAGE : string :=
  "Swiftink took too long to transcribe the file".

(** Transcripts as successive polls may return them. *)
Definition transcriptWithStatus (status : string) : TranscriptSchema :=
  mkTranscript "t1" "memo.mp3" (Some status) (Some "hello") [] None [] [].

Definition settingsWithSummary : TranscriptionSettings :=
  mkSettings false "auto" true false false false "auto".

(** An event other than the end of the create response. *)
Definition notCreateResponse (ev : EventA) : bool :=
  match ev with
  | CreateResponseEnd _ => false
  | _ => true
  end.

(** *** Time zones and time stamps *)

Definition utc : TimeZone := mkTimeZone 0 0.

(** Africa/Monrovia at the epoch: 44 minutes and 30 seconds behind UTC, of
    which [getTimezoneOffset] reports the 44 minutes. *)
Definition monrovia : TimeZone := mkTimeZone 44 2670.

(** A zone whose offset is the whole number of minutes it reports. *)
Definition exactZone (tz : TimeZone) : Prop :=
  offsetSeconds tz = (60 * reportedMinutes tz)%Z.

(** The seconds by which the reported offset exceeds the offset itself. *)
Definition zoneShift (tz : TimeZone) : Z :=
  (60 * reportedMinutes tz - offsetSeconds tz)%Z.

(** The stamp the renderer writes for a number of seconds: the [Date] of
    the seconds, shifted by the time-zone offset, formatted. *)
Definition stamp (tz : TimeZone) (formatOther : Z -> string -> string)
    (pattern : string) (seconds : Q) : string :=
  format tz formatOther (shiftedDate tz seconds) pattern.

(** The time an hour-less stamp and a stamp with hours show for the local
    time [t], in milliseconds: the patterns ["mm:ss"] and ["HH:mm:ss"]. *)
Definition minutesSeconds (t : Z) : string :=
  pad2 (minutesOf t) ++ ":" ++ pad2 (secondsOf t).

Definition hoursMinutesSeconds (t : Z) : string :=
  pad2 (hoursOf t) ++ ":" ++ pad2 (minutesOf t) ++ ":" ++ pad2 (secondsOf t).

(** The line the renderer writes for a segment, without the line break
    that closes it. *)
Definition segmentLine (tz : TimeZone) (formatOther : Z -> string -> string)
    (pattern : string) (segment : TimestampedTextSegment) : string :=
  stamp tz formatOther pattern (start segment) ++ " - "
  ++ stamp tz formatOther pattern (end_ segment) ++ ": "
  ++ trim (text segment).

(** The number of line breaks in [s]: the number of lines of a text each
    line of which is closed by a line break. *)
Fixpoint lineBreaks (s : string) : nat :=
  match s with
  | "" => 0
  | String c s' =>
      ((if Ascii.eqb c (ascii_of_nat 10) then 1 else 0) + lineBreaks s')%nat
  end.

(** *** Characters of a string *)

(** Every character of [s] satisfies [p]. *)
Fixpoint allChars (p : ascii -> bool) (s : string) : bool :=
  match s with
  | "" => true
  | String c s' => (p c && allChars p s')%bool
  end.

(** A character of the class [a-zA-Z0-9.] or a ["-"]. *)
Definition nameChar (c : ascii) : bool := (inClass c || Ascii.eqb c "-")%bool.

(** *** Events *)

(** A poll request that failed. *)
Definition isPollFailed (ev : EventB) : bool :=
  match ev with
  | PollFailed _ => true
  | _ => false
  end.

(** The events of Backend B up to the first poll, when all goes well. *)
Definition eventsBeforePolling (session : Session) (created : TranscriptSchema)
    : list EventB :=
  [SessionResult (Some session); ReadOk; UploadSuccess; CreateOk created].

(** An outcome of a query request of Backend A that ends the polling: a
    response whose code is not that of a task still in progress, or a
    transport error. *)
Definition endsPollingA (ev : EventA) : bool :=
  match ev with
  | QueryResponseEnd response => negb (q_code response =? 11001)%Z
  | QueryRequestError _ => true
  | _ => false
  end.

(** One firing of the interval of Backend A answered by [response]. *)
Definition pollRound (response : QueryResponse) : list EventA :=
  [IntervalFires; QueryResponseEnd response].

(** ** Backend A: the create request

    The credentials and the body of the create request, built before the
    promise is created. *)

(** [s.split(sep)] for a separator of one character: the pieces between
    the separators, at least one. *)
Fixpoint split (sep : ascii) (s : string) : list string :=
  match s with
  | "" => [""]
  | String c s' =>
      if Ascii.eqb c sep then "" :: split sep s'
      else match split sep s' with
           | piece :: pieces => String c piece :: pieces
           | [] => [String c ""]
           end
  end.

(** [this.settings.whisperASRUrls.split(":")] *)
Definition apiKeyData (whisperASRUrls : string) : list string :=
  split ":" whisperASRUrls.

(** [apiKeyData[0]] *)
Definition API_KEY_ID (whisperASRUrls : string) : option string :=
  nth_error (apiKeyData whisperASRUrls) 0.

(** [apiKeyData[1]], [None] when it is [undefined]. *)
Definition API_KEY_SECRET (whisperASRUrls : string) : option string :=
  nth_error (apiKeyData whisperASRUrls) 1.

Definition LANG : string := "ru".

Definition CRLF : string := String (ascii_of_nat 13) (String (ascii_of_nat 10) "").

(** [Buffer.from(s, "utf8")]: one byte for a code unit below 128, two for
    a code unit from 128 to 255. *)
Fixpoint utf8 (s : string) : list ascii :=
  match s with
  | "" => []
  | String c s' =>
      let n := charCode c in
      if (n <? 128)%N then c :: utf8 s'
      else ascii_of_N (192 + n / 64) :: ascii_of_N (128 + n mod 64) :: utf8 s'
  end.

(** [s.replace(/-/g, "")] *)
Fixpoint removeDashes (s : string) : string :=
  match s with
  | "" => ""
  | String c s' => if Ascii.eqb c "-" then removeDashes s' else String c (removeDashes s')
  end.

(** The boundary, from the random UUID. *)
Definition boundaryOf (uuid : string) : string := removeDashes uuid.

(** [createData] *)
Definition createData (fileName : string) : string :=
  "lang=" ++ LANG ++ "&remotePath=" ++ fileName.

(** The double quote. *)
Definition QUOTE : string := String (ascii_of_nat 34) "".

Definition formData (boundary fileName : string) : string :=
  "--" ++ boundary ++ CRLF
  ++ "Content-Disposition: form-data; name=" ++ QUOTE ++ "file" ++ QUOTE
  ++ "; filename=" ++ QUOTE ++ fileName ++ QUOTE ++ CRLF
  ++ "Content-Type: application/octet-stream" ++ CRLF ++ CRLF.

Definition formDataBuffer (boundary fileName : string) (fileBytes : list ascii)
    : list ascii :=
  (utf8 (formData boundary fileName)
   ++ fileBytes
   ++ utf8 (CRLF ++ "--" ++ boundary ++ "--" ++ CRLF))%list.

(** The value of the [Content-Length] header. *)
Definition contentLength (boundary fileName : string) (fileBytes : list ascii)
    : nat :=
  List.length (formDataBuffer boundary fileName fileBytes).

(** The bytes handed to the request, in order: [write(formDataBuffer)],
    then [write(createData)] before [end()]. *)
Definition bytesWritten (boundary fileName : string) (fileBytes : list ascii)
    : list ascii :=
  (formDataBuffer boundary fileName fileBytes ++ utf8 (createData fileName))%list.

(** A string without [":"]. *)
Definition noColon (s : string) : bool :=
  allChars (fun c => negb (Ascii.eqb c ":")) s.

(* ================================================================== *)
(** * Part II: properties *)
(* ================================================================== *)

(** ** Object names *)

Lemma inClass_not_dash (c : ascii) : inClass c = true -> Ascii.eqb c "-" = false.
Proof.
  intros H. destruct (Ascii.eqb_spec c "-") as [->|]; [discriminate H|reflexivity].
Qed.

Lemma squeezeDashes_cons_kept (c : ascii) (s : string) :
  Ascii.eqb c "-" = false ->
  squeezeDashes (String c s) = String c (squeezeDashes s).
Proof.
  intros H. destruct s as [|d s]; simpl; [reflexivity|].
  rewrite H. reflexivity.
Qed.

Lemma squeezeDashes_dash_kept (c : ascii) (s : string) :
  Ascii.eqb c "-" = false ->
  squeezeDashes (String "-" (String c s)) = String "-" (squeezeDashes (String c s)).
Proof.
  intros H. cbn [squeezeDashes]. rewrite H, andb_false_r. reflexivity.
Qed.

Lemma squeezeDashes_dash_dash (s : string) :
  squeezeDashes (String "-" (String "-" s)) = squeezeDashes (String "-" s).
Proof. reflexivity. Qed.

(** Both ways of entering the scan agree with squeezing the
    character-by-character replacement. *)
Lemma replaceMatches_squeeze (s : string) :
  squeezeDashes (replaceEachChar s) = replaceMatches false s
  /\ squeezeDashes (String "-" (replaceEachChar s))
     = String "-" (replaceMatches true s).
Proof.
  induction s as [|c s [IH1 IH2]]; [split; reflexivity|].
  cbn [replaceEachChar replaceMatches].
  destruct (inClass c) eqn:Hc.
  - pose proof (inClass_not_dash c Hc) as Hd.
    rewrite squeezeDashes_dash_kept, squeezeDashes_cons_kept, IH1 by assumption.
    split; reflexivity.
  - rewrite squeezeDashes_dash_dash, IH2. split; reflexivity.
Qed.

Lemma keptChars_replaceMatches (b : bool) (s : string) :
  keptChars (replaceMatches b s) = keptChars s.
Proof.
  revert b. induction s as [|c s IH]; intros b; [reflexivity|].
  cbn [replaceMatches keptChars].
  destruct (inClass c) eqn:Hc.
  - cbn [keptChars]. rewrite Hc, IH. reflexivity.
  - destruct b; [apply IH|]. cbn [keptChars].
    change (inClass "-") with false. cbv iota. apply IH.
Qed.

(** C10, as stated, at a concrete name: the two characters [" ("] are one
    match of the pattern and give one ["-"], where a replacement character
    by character gives two. *)
Lemma sanitizeName_not_each_char :
  sanitizeName "my recording (1).mp3" = "my-recording-1-.mp3"
  /\ replaceEachChar "my recording (1).mp3" = "my-recording--1-.mp3"
  /\ ~ (forall name, sanitizeName name = replaceEachChar name).
Proof.
  split; [reflexivity|]. split; [reflexivity|].
  intros H. specialize (H "my recording (1).mp3"). discriminate H.
Qed.

(** C10, amended: the sanitized name replaces each maximal run of
    characters outside [A-Za-z0-9.] by a single ["-"]: it is the
    character-by-character replacement with each run of ["-"] squeezed to
    one, and the characters of the class are kept, in order. *)
Theorem sanitizeName_squeezes_runs (name : string) :
  sanitizeName name = squeezeDashes (replaceEachChar name)
  /\ keptChars (sanitizeName name) = keptChars name.
Proof.
  split.
  - symmetry. apply (proj1 (replaceMatches_squeeze name)).
  - apply keptChars_replaceMatches.
Qed.

(** ** Strings *)

Lemma append_nil_r (s : string) : s ++ "" = s.
Proof. induction s as [|c s IH]; simpl; [reflexivity|now rewrite IH]. Qed.

Lemma append_assoc (s t u : string) : (s ++ t) ++ u = s ++ (t ++ u).
Proof. induction s as [|c s IH]; simpl; [reflexivity|now rewrite IH]. Qed.

Lemma join_empty_cons (x : string) (l : list string) :
  join "" (x :: l) = x ++ join "" l.
Proof.
  unfold join. destruct l as [|y l]; simpl; [now rewrite append_nil_r|reflexivity].
Qed.

Lemma trimEnd_idempotent (s : string) : trimEnd (trimEnd s) = trimEnd s.
Proof.
  induction s as [|c s IH]; [reflexivity|].
  cbn [trimEnd]. destruct (trimEnd s) as [|d r] eqn:E.
  - destruct (isWhiteSpace c) eqn:Hc; [reflexivity|]. simpl. now rewrite Hc.
  - cbn [trimEnd]. cbn [trimEnd] in IH. rewrite IH. reflexivity.
Qed.

Lemma trimStart_head (s : string) :
  trimStart s = ""
  \/ exists c r, trimStart s = String c r /\ isWhiteSpace c = false.
Proof.
  induction s as [|c s IH]; [now left|].
  simpl. destruct (isWhiteSpace c) eqn:Hc; [exact IH|].
  right. exists c, s. split; [reflexivity|exact Hc].
Qed.

Lemma trimEnd_keeps_head (c : ascii) (r : string) :
  isWhiteSpace c = false -> exists r', trimEnd (String c r) = String c r'.
Proof.
  intros Hc. cbn [trimEnd]. destruct (trimEnd r) as [|d r'].
  - rewrite Hc. now exists "".
  - now exists (String d r').
Qed.

Lemma trim_idempotent (s : string) : trim (trim s) = trim s.
Proof.
  unfold trim.
  assert (H : trimStart (trimEnd (trimStart s)) = trimEnd (trimStart s)).
  { destruct (trimStart_head s) as [->|(c & r & -> & Hc)]; [reflexivity|].
    destruct (trimEnd_keeps_head c r Hc) as [r' ->].
    simpl. now rewrite Hc. }
  rewrite H. apply trimEnd_idempotent.
Qed.

(** ** The segment renderer without bucketing *)

Section RendererFacts.

Variable tz : TimeZone.
Variable formatOther : Z -> string -> string.

(** The offset added before formatting cancels the one [format] applies,
    up to the seconds the reported offset misses: the fields shown are
    those of the elapsed time, moved by [zoneShift]. *)
Lemma localTime_shiftedDate (seconds : Q) :
  localTime tz (shiftedDate tz seconds)
  = (newDate (seconds * 1000) + zoneShift tz * 1000)%Z.
Proof. unfold localTime, shiftedDate, getTimezoneOffset, zoneShift. lia. Qed.

Lemma renderSegments_from (formatToUse : string)
    (segments : list TimestampedTextSegment) (transcription : string) :
  fold_left
    (fun transcription segment =>
       transcription ++ segment_string tz formatOther formatToUse segment)
    segments transcription
  = transcription
    ++ join "" (map (segment_string tz formatOther formatToUse) segments).
Proof.
  revert transcription.
  induction segments as [|s l IH]; intros acc; cbn [fold_left map].
  - symmetry. apply append_nil_r.
  - rewrite IH, join_empty_cons, append_assoc. reflexivity.
Qed.

Lemma renderSegments_lines (formatToUse : string)
    (segments : list TimestampedTextSegment) :
  renderSegments tz formatOther formatToUse segments
  = join "" (map (segment_string tz formatOther formatToUse) segments).
Proof. unfold renderSegments. now rewrite renderSegments_from. Qed.

Lemma Qltb_false_iff (a b : Q) : Qltb a b = false <-> b <= a.
Proof.
  unfold Qltb. rewrite negb_false_iff. apply Qle_bool_iff.
Qed.

Lemma Qltb_true_iff (a b : Q) : Qltb a b = true <-> a < b.
Proof.
  unfold Qltb. rewrite negb_true_iff. split.
  - intros H. apply Qnot_le_lt. intros Hle.
    apply Qle_bool_iff in Hle. congruence.
  - intros H. destruct (Qle_bool b a) eqn:E; [|reflexivity].
    apply Qle_bool_iff in E. exfalso. exact (Qlt_not_le _ _ H E).
Qed.

End RendererFacts.

Lemma localTime_utc (d : Date) : localTime utc d = d.
Proof. unfold localTime. cbn [utc offsetSeconds]. lia. Qed.

Lemma stamp_elapsed tz formatOther pattern seconds :
  stamp tz formatOther pattern seconds
  = format utc formatOther
      (newDate (seconds * 1000) + zoneShift tz * 1000)%Z pattern.
Proof.
  unfold stamp, format. now rewrite localTime_shiftedDate, localTime_utc.
Qed.

Lemma segment_string_stamps tz formatOther pattern segment :
  segment_string tz formatOther pattern segment
  = stamp tz formatOther pattern (start segment) ++ " - "
    ++ stamp tz formatOther pattern (end_ segment) ++ ": "
    ++ trim (text segment) ++ LF.
Proof. reflexivity. Qed.

Lemma rendering_by_zoneShift (tz tz' : TimeZone)
    (formatOther : Z -> string -> string)
    (segments : list TimestampedTextSegment) (timestampFormat : string)
    (interval : Q) :
  zoneShift tz = zoneShift tz' ->
  segmentsToTimestampedString tz formatOther segments timestampFormat interval
  = segmentsToTimestampedString tz' formatOther segments timestampFormat interval.
Proof.
  intros Hz.
  assert (H : forall pattern l,
             renderSegments tz formatOther pattern l
             = renderSegments tz' formatOther pattern l).
  { intros pattern l. rewrite !renderSegments_lines. f_equal.
    apply map_ext. intros s. rewrite !segment_string_stamps.
    now rewrite !(stamp_elapsed tz), !(stamp_elapsed tz'), Hz. }
  unfold segmentsToTimestampedString.
  destruct (Qltb 0 interval); apply H.
Qed.

Lemma exactZone_zoneShift (tz : TimeZone) : exactZone tz -> zoneShift tz = 0%Z.
Proof. unfold exactZone, zoneShift. lia. Qed.

Lemma rendering_exactZone (tz : TimeZone) (formatOther : Z -> string -> string)
    (segments : list TimestampedTextSegment) (timestampFormat : string)
    (interval : Q) :
  exactZone tz ->
  segmentsToTimestampedString tz formatOther segments timestampFormat interval
  = segmentsToTimestampedString utc formatOther segments timestampFormat interval.
Proof.
  intros Hz. apply rendering_by_zoneShift.
  now rewrite (exactZone_zoneShift tz Hz).
Qed.

(** *** Lines *)

Lemma lineBreaks_append (s t : string) :
  lineBreaks (s ++ t) = (lineBreaks s + lineBreaks t)%nat.
Proof.
  induction s as [|c s IH]; [reflexivity|].
  cbn [append lineBreaks]. rewrite IH. lia.
Qed.

Lemma digit_no_line_break (d : Z) :
  (0 <= d < 10)%Z -> Ascii.eqb (digit d) (ascii_of_nat 10) = false.
Proof.
  intros H.
  assert (E : d = 0%Z \/ d = 1%Z \/ d = 2%Z \/ d = 3%Z \/ d = 4%Z \/ d = 5%Z
              \/ d = 6%Z \/ d = 7%Z \/ d = 8%Z \/ d = 9%Z) by lia.
  repeat (destruct E as [->|E]; [reflexivity|]). now subst d.
Qed.

Lemma lineBreaks_pad2 (n : Z) : (0 <= n < 100)%Z -> lineBreaks (pad2 n) = 0%nat.
Proof.
  intros H. unfold pad2. cbn [lineBreaks].
  rewrite !digit_no_line_break; [reflexivity| |].
  - apply Z.mod_pos_bound. lia.
  - split; [apply Z.div_pos; lia|apply Z.div_lt_upper_bound; lia].
Qed.

Lemma lineBreaks_field (x m : Z) :
  (0 < m <= 100)%Z -> lineBreaks (pad2 (x mod m)) = 0%nat.
Proof.
  intros H. apply lineBreaks_pad2. pose proof (Z.mod_pos_bound x m). lia.
Qed.

(** The stamps of the two patterns written out hold no line break. *)
Lemma lineBreaks_format (tz : TimeZone) (formatOther : Z -> string -> string)
    (d : Date) (pattern : string) :
  pattern = "mm:ss" \/ pattern = "HH:mm:ss" ->
  lineBreaks (format tz formatOther d pattern) = 0%nat.
Proof.
  unfold format, hoursOf, minutesOf, secondsOf. intros [-> | ->].
  - change (String.eqb "mm:ss" "mm:ss") with true. cbv iota.
    rewrite !lineBreaks_append, !lineBreaks_field by lia. reflexivity.
  - change (String.eqb "HH:mm:ss" "mm:ss") with false.
    change (String.eqb "HH:mm:ss" "HH:mm:ss") with true. cbv iota.
    rewrite !lineBreaks_append, !lineBreaks_field by lia. reflexivity.
Qed.

Lemma autoFormat_written_out (segments : list TimestampedTextSegment) :
  autoFormat segments = "mm:ss" \/ autoFormat segments = "HH:mm:ss".
Proof.
  unfold autoFormat. destruct (Qltb _ _); [now left|now right].
Qed.

Lemma split_line (a rest : string) :
  lineBreaks a = 0%nat ->
  split (ascii_of_nat 10) (a ++ LF ++ rest) = a :: split (ascii_of_nat 10) rest.
Proof.
  induction a as [|c a IH]; intros H.
  - unfold LF. cbn [append split]. now rewrite Ascii.eqb_refl.
  - cbn [lineBreaks] in H. cbn [append split].
    destruct (Ascii.eqb c (ascii_of_nat 10)); [discriminate|].
    now rewrite IH.
Qed.

Lemma segment_string_line (tz : TimeZone) (formatOther : Z -> string -> string)
    (pattern : string) (segment : TimestampedTextSegment) :
  segment_string tz formatOther pattern segment
  = segmentLine tz formatOther pattern segment ++ LF.
Proof.
  unfold segment_string, segmentLine, stamp. now rewrite !append_assoc.
Qed.

(** Lines without a line break inside are the lines of the rendering. *)
Lemma rendered_lines (tz : TimeZone) (formatOther : Z -> string -> string)
    (pattern : string) (segments : list TimestampedTextSegment) :
  (forall s, In s segments ->
             lineBreaks (segmentLine tz formatOther pattern s) = 0%nat) ->
  lineBreaks (join "" (map (segment_string tz formatOther pattern) segments))
  = List.length segments
  /\ split (ascii_of_nat 10)
       (join "" (map (segment_string tz formatOther pattern) segments))
     = (map (segmentLine tz formatOther pattern) segments ++ [""])%list.
Proof.
  induction segments as [|s l IH]; intros H; [split; reflexivity|].
  destruct IH as [IH1 IH2]; [intros s' Hin; apply H; now right|].
  cbn [map]. rewrite join_empty_cons, segment_string_line, append_assoc.
  split.
  - rewrite !lineBreaks_append, IH1, (H s) by now left. reflexivity.
  - rewrite split_line by (apply H; now left). now rewrite IH2.
Qed.

Lemma segmentLine_written_out (tz : TimeZone)
    (formatOther : Z -> string -> string) (pattern : string)
    (segment : TimestampedTextSegment) :
  pattern = "mm:ss" \/ pattern = "HH:mm:ss" ->
  lineBreaks (segmentLine tz formatOther pattern segment)
  = lineBreaks (trim (text segment)).
Proof.
  intros Hp. unfold segmentLine, stamp.
  rewrite !lineBreaks_append, !lineBreaks_format by exact Hp. reflexivity.
Qed.

(** C6, as the claim states it, fails.  A text with a line break inside
    it takes two lines of the rendering: one segment, two lines.  And the
    lines of the example are not the lines claimed where the zone's offset
    is not the whole number of minutes reported: in Monrovia at the epoch
    the segments [{0,65,"a"}, {70,130,"b"}] are rendered 30 seconds
    early. *)
Lemma segment_text_can_take_two_lines :
  segmentsToTimestampedString utc (fun _ pattern => pattern)
    [mkSegment 0 65 ("a" ++ LF ++ "b")] "mm:ss" 0
  = "00:00 - 01:05: a" ++ LF ++ "b" ++ LF
  /\ lineBreaks
       (segmentsToTimestampedString utc (fun _ pattern => pattern)
          [mkSegment 0 65 ("a" ++ LF ++ "b")] "mm:ss" 0) = 2%nat
  /\ List.length [mkSegment 0 65 ("a" ++ LF ++ "b")] = 1%nat
  /\ segmentsToTimestampedString monrovia (fun _ pattern => pattern)
       [mkSegment 0 65 "a"; mkSegment 70 130 "b"] "mm:ss" 0
     = "59:30 - 00:35: a" ++ LF ++ "00:40 - 01:40: b" ++ LF.
Proof. repeat split. Qed.

(** C6, amended.  Without bucketing (an interval that is not positive, 0
    in particular) the renderer returns, in input order, one entry per
    segment: the formatted start, [" - "], the formatted end, [": "], the
    trimmed text and a line break.  When no entry has a line break inside
    it the output has exactly one line per segment, and its lines are the
    entries in input order; under ["auto"], ["mm:ss"] and ["HH:mm:ss"] the
    stamps have none, so an entry has the line breaks of its trimmed text.
    For no segments the renderer returns the empty string, whatever the
    interval.  In a zone whose offset is the whole number of minutes
    reported, the segments [{0,65,"a"}, {70,130,"b"}] give the lines
    ["00:00 - 01:05: a"] and ["01:10 - 02:10: b"], under ["auto"] as under
    ["mm:ss"]. *)
Theorem unbucketed_one_line_per_segment :
  forall (tz : TimeZone) (formatOther : Z -> string -> string),
    (forall segments timestampFormat interval,
        interval <= 0 ->
        let formatToUse :=
          if String.eqb timestampFormat "auto" then autoFormat segments
          else timestampFormat in
        segmentsToTimestampedString tz formatOther segments timestampFormat interval
        = join ""
            (map (fun segment =>
                    format tz formatOther (shiftedDate tz (start segment)) formatToUse
                    ++ " - "
                    ++ format tz formatOther (shiftedDate tz (end_ segment)) formatToUse
                    ++ ": " ++ trim (text segment) ++ LF)
               segments))
    /\ (forall segments timestampFormat interval,
           interval <= 0 ->
           let formatToUse :=
             if String.eqb timestampFormat "auto" then autoFormat segments
             else timestampFormat in
           let output :=
             segmentsToTimestampedString tz formatOther segments
               timestampFormat interval in
           (forall s, In s segments ->
              lineBreaks (segmentLine tz formatOther formatToUse s) = 0%nat) ->
           lineBreaks output = List.length segments
           /\ split (ascii_of_nat 10) output
              = (map (segmentLine tz formatOther formatToUse) segments
                 ++ [""])%list)
    /\ (forall segments timestampFormat segment,
           timestampFormat = "auto" \/ timestampFormat = "mm:ss"
           \/ timestampFormat = "HH:mm:ss" ->
           let formatToUse :=
             if String.eqb timestampFormat "auto" then autoFormat segments
             else timestampFormat in
           lineBreaks (segmentLine tz formatOther formatToUse segment)
           = lineBreaks (trim (text segment)))
    /\ (forall timestampFormat interval,
           segmentsToTimestampedString tz formatOther [] timestampFormat interval = "")
    /\ (exactZone tz ->
        forall timestampFormat,
          timestampFormat = "auto" \/ timestampFormat = "mm:ss" ->
          segmentsToTimestampedString tz formatOther
            [mkSegment 0 65 "a"; mkSegment 70 130 "b"] timestampFormat 0
          = "00:00 - 01:05: a" ++ LF ++ "01:10 - 02:10: b" ++ LF).
Proof.
  intros tz formatOther.
  assert (Hlines : forall segments timestampFormat interval,
             interval <= 0 ->
             segmentsToTimestampedString tz formatOther segments
               timestampFormat interval
             = join ""
                 (map (segment_string tz formatOther
                         (if String.eqb timestampFormat "auto"
                          then autoFormat segments else timestampFormat))
                    segments)).
  { intros segments timestampFormat interval Hi.
    unfold segmentsToTimestampedString.
    apply Qltb_false_iff in Hi. rewrite Hi. apply renderSegments_lines. }
  split; [|split; [|split; [|split]]].
  - intros segments timestampFormat interval Hi formatToUse.
    exact (Hlines segments timestampFormat interval Hi).
  - intros segments timestampFormat interval Hi formatToUse output H.
    subst output. rewrite (Hlines _ _ _ Hi). now apply rendered_lines.
  - intros segments timestampFormat segment Hp formatToUse.
    apply segmentLine_written_out. subst formatToUse.
    destruct Hp as [-> | [-> | ->]].
    + apply autoFormat_written_out.
    + now left.
    + now right.
  - intros timestampFormat interval. unfold segmentsToTimestampedString.
    destruct (Qltb 0 interval); reflexivity.
  - intros Hz timestampFormat Hp. rewrite (rendering_exactZone _ _ _ _ _ Hz).
    destruct Hp as [-> | ->]; reflexivity.
Qed.

Lemma unbucketed_one_line_per_segment_witness :
  (0 <= 0)%Q
  /\ exactZone (mkTimeZone (-120) (-7200))
  /\ segmentsToTimestampedString (mkTimeZone (-120) (-7200))
       (fun _ pattern => pattern)
       [mkSegment 0 65 " a "; mkSegment 70 3725 "b"] "auto" 0
     = "00:00:00 - 00:01:05: a" ++ LF ++ "00:01:10 - 01:02:05: b" ++ LF
  /\ lineBreaks
       (segmentsToTimestampedString (mkTimeZone (-120) (-7200))
          (fun _ pattern => pattern)
          [mkSegment 0 65 " a "; mkSegment 70 3725 "b"] "auto" 0) = 2%nat
  /\ segmentsToTimestampedString (mkTimeZone (-120) (-7200))
       (fun _ pattern => pattern)
       [mkSegment 0 65 "a"; mkSegment 70 130 "b"] "mm:ss" 0
     = "00:00 - 01:05: a" ++ LF ++ "01:10 - 02:10: b" ++ LF.
Proof.
  split; [apply Qle_refl|]. split; [reflexivity|]. split; [|split].
  - rewrite (proj1 (unbucketed_one_line_per_segment (mkTimeZone (-120) (-7200))
                      (fun _ pattern => pattern))
               [mkSegment 0 65 " a "; mkSegment 70 3725 "b"] "auto" 0
               (Qle_refl 0)).
    reflexivity.
  - apply (proj1 (proj2 (unbucketed_one_line_per_segment
                           (mkTimeZone (-120) (-7200))
                           (fun _ pattern => pattern)))
             [mkSegment 0 65 " a "; mkSegment 70 3725 "b"] "auto" 0
             (Qle_refl 0)).
    intros s [<-|[<-|[]]]; reflexivity.
  - apply (proj2 (proj2 (proj2 (proj2 (unbucketed_one_line_per_segment
                                         (mkTimeZone (-120) (-7200))
                                         (fun _ pattern => pattern)))))
             eq_refl "mm:ss").
    now right.
Defined.

(** ** Format selection *)

Lemma mathMax_lt (a b c : Q) : mathMax a b < c <-> a < c /\ b < c.
Proof.
  unfold mathMax. destruct (Qle_bool a b) eqn:E.
  - apply Qle_bool_iff in E. split.
    + intros H. split; [apply Qle_lt_trans with b; assumption|assumption].
    + intros [_ H]. exact H.
  - assert (Hlt : b < a).
    { apply Qnot_le_lt. intros Hle. apply Qle_bool_iff in Hle. congruence. }
    split.
    + intros H. split; [assumption|apply Qlt_trans with a; assumption].
    + intros [H _]. exact H.
Qed.

Lemma maxDuration_from_lt (segments : list TimestampedTextSegment) (m c : Q) :
  fold_left (fun m segment => mathMax m (end_ segment)) segments m < c
  <-> m < c /\ forall s, In s segments -> end_ s < c.
Proof.
  revert m. induction segments as [|s l IH]; intros m; cbn [fold_left].
  - split; [intros H; split; [exact H|intros s []]|intros [H _]; exact H].
  - rewrite IH, mathMax_lt. split.
    + intros [[Hm Hs] Hl]. split; [exact Hm|].
      intros s' [<-|Hin]; [exact Hs|now apply Hl].
    + intros [Hm H]. split; [split; [exact Hm|apply H; now left]|].
      intros s' Hin. apply H. now right.
Qed.

Lemma autoFormat_short (segments : list TimestampedTextSegment) :
  autoFormat segments = "mm:ss" <-> forall s, In s segments -> end_ s < 3600.
Proof.
  unfold autoFormat, maxDuration.
  destruct (Qltb _ 3600) eqn:E.
  - apply Qltb_true_iff, maxDuration_from_lt in E. split; [intros _; apply E|reflexivity].
  - split; [discriminate|]. intros H. exfalso.
    assert (Hlt : fold_left (fun m segment => mathMax m (end_ segment)) segments 0 < 3600).
    { apply maxDuration_from_lt. split; [reflexivity|exact H]. }
    apply Qltb_true_iff in Hlt. congruence.
Qed.

Lemma autoFormat_long (segments : list TimestampedTextSegment) :
  (exists s, In s segments /\ 3600 <= end_ s) ->
  autoFormat segments = "HH:mm:ss".
Proof.
  intros (s & Hin & Hs).
  destruct (Qltb (maxDuration segments) 3600) eqn:E.
  - apply Qltb_true_iff, maxDuration_from_lt in E.
    exfalso. apply (Qlt_not_le _ _ (proj2 E s Hin) Hs).
  - unfold autoFormat. now rewrite E.
Qed.

(** What [renderSegments] is handed: the buckets when the interval is
    positive, the segments themselves otherwise. *)
Lemma segmentsToTimestampedString_rendered (tz : TimeZone)
    (formatOther : Z -> string -> string)
    (segments : list TimestampedTextSegment) (timestampFormat : string)
    (interval : Q) :
  segmentsToTimestampedString tz formatOther segments timestampFormat interval
  = join ""
      (map (segment_string tz formatOther
              (if String.eqb timestampFormat "auto" then autoFormat segments
               else timestampFormat))
         (if Qltb 0 interval then bucketedSegments interval segments
          else segments)).
Proof.
  unfold segmentsToTimestampedString.
  destruct (Qltb 0 interval); apply renderSegments_lines.
Qed.

(** C5.  Under ["auto"] the renderer formats with ["mm:ss"] when every
    segment ends strictly below 3600 seconds (so when the largest end is
    3599) and with ["HH:mm:ss"] when some segment ends at 3600 seconds or
    above (so when the largest end is 3600); with no segments it formats
    with ["mm:ss"].  The pattern chosen is the one every stamp of the
    output is written in: in the first case each line shows the minutes
    and seconds of its start and of its end, in the second their hours,
    minutes and seconds.  So a lone segment that ends at 3599 is rendered
    ["00:00 - 59:59"] and one that ends at 3600 ["00:00:00 - 01:00:00"], in
    a zone whose offset is the whole number of minutes reported. *)
Theorem auto_format_selection :
  forall (segments : list TimestampedTextSegment),
    ((forall s, In s segments -> end_ s < 3600) ->
     autoFormat segments = "mm:ss")
    /\ ((exists s, In s segments /\ 3600 <= end_ s) ->
        autoFormat segments = "HH:mm:ss")
    /\ autoFormat [] = "mm:ss"
    /\ (forall tz formatOther interval,
           segmentsToTimestampedString tz formatOther segments "auto" interval
           = segmentsToTimestampedString tz formatOther segments
               (autoFormat segments) interval)
    /\ (forall tz formatOther interval,
           let rendered :=
             if Qltb 0 interval then bucketedSegments interval segments
             else segments in
           let shown seconds := localTime tz (shiftedDate tz seconds) in
           ((forall s, In s segments -> end_ s < 3600) ->
            segmentsToTimestampedString tz formatOther segments "auto" interval
            = join ""
                (map (fun segment =>
                        minutesSeconds (shown (start segment)) ++ " - "
                        ++ minutesSeconds (shown (end_ segment)) ++ ": "
                        ++ trim (text segment) ++ LF)
                   rendered))
           /\ ((exists s, In s segments /\ 3600 <= end_ s) ->
               segmentsToTimestampedString tz formatOther segments "auto"
                 interval
               = join ""
                   (map (fun segment =>
                           hoursMinutesSeconds (shown (start segment)) ++ " - "
                           ++ hoursMinutesSeconds (shown (end_ segment)) ++ ": "
                           ++ trim (text segment) ++ LF)
                      rendered)))
    /\ (forall tz formatOther,
           exactZone tz ->
           segmentsToTimestampedString tz formatOther
             [mkSegment 0 3599 "a"] "auto" 0
           = "00:00 - 59:59: a" ++ LF
           /\ segmentsToTimestampedString tz formatOther
                [mkSegment 0 3600 "a"] "auto" 0
              = "00:00:00 - 01:00:00: a" ++ LF
           /\ segmentsToTimestampedString tz formatOther
                [mkSegment 0 12 "a"; mkSegment 12 3600 "b"] "auto" 0
              = "00:00:00 - 00:00:12: a" ++ LF
                ++ "00:00:12 - 01:00:00: b" ++ LF).
Proof.
  intros segments. split; [|split; [|split; [|split; [|split]]]].
  - apply autoFormat_short.
  - apply autoFormat_long.
  - reflexivity.
  - intros tz formatOther interval. unfold segmentsToTimestampedString, autoFormat.
    destruct (Qltb (maxDuration segments) 3600); reflexivity.
  - intros tz formatOther interval rendered shown. split; intros H.
    + rewrite segmentsToTimestampedString_rendered.
      change (String.eqb "auto" "auto") with true. cbv iota.
      rewrite (proj2 (autoFormat_short segments) H). reflexivity.
    + rewrite segmentsToTimestampedString_rendered.
      change (String.eqb "auto" "auto") with true. cbv iota.
      rewrite (autoFormat_long segments H). reflexivity.
  - intros tz formatOther Hz.
    rewrite !(rendering_exactZone tz _ _ _ _ Hz). repeat split.
Qed.

Lemma auto_format_selection_witness :
  autoFormat [mkSegment 0 3599 "a"] = "mm:ss"
  /\ autoFormat [mkSegment 0 12 "a"; mkSegment 12 3600 "b"] = "HH:mm:ss"
  /\ segmentsToTimestampedString utc (fun _ pattern => pattern)
       [mkSegment 0 12 "a"; mkSegment 12 3600 "b"] "auto" 0
     = "00:00:00 - 00:00:12: a" ++ LF ++ "00:00:12 - 01:00:00: b" ++ LF
  /\ segmentsToTimestampedString utc (fun _ pattern => pattern)
       [mkSegment 0 12 "a"; mkSegment 12 3599 "b"] "auto" 0
     = "00:00 - 00:12: a" ++ LF ++ "00:12 - 59:59: b" ++ LF.
Proof.
  split; [|split; [|split]].
  - apply (proj1 (auto_format_selection [mkSegment 0 3599 "a"])).
    intros s [<-|[]]. reflexivity.
  - apply (proj1 (proj2 (auto_format_selection
                           [mkSegment 0 12 "a"; mkSegment 12 3600 "b"]))).
    exists (mkSegment 12 3600 "b"). split; [right; now left|].
    discriminate.
  - rewrite (proj2 (proj1 (proj2 (proj2 (proj2 (proj2 (auto_format_selection
               [mkSegment 0 12 "a"; mkSegment 12 3600 "b"])))))
               utc (fun _ pattern => pattern) 0)).
    + reflexivity.
    + exists (mkSegment 12 3600 "b"). split; [right; now left|].
      discriminate.
  - rewrite (proj1 (proj1 (proj2 (proj2 (proj2 (proj2 (auto_format_selection
               [mkSegment 0 12 "a"; mkSegment 12 3599 "b"])))))
               utc (fun _ pattern => pattern) 0)).
    + reflexivity.
    + intros s [<-|[<-|[]]]; reflexivity.
Defined.

(** ** The result formatter *)

Lemma sliceLast_append_LF (s : string) : sliceLast (s ++ LF) = LF.
Proof.
  induction s as [|c s IH]; [reflexivity|].
  change (String c s ++ LF) with (String c (s ++ LF)).
  destruct (s ++ LF) as [|d r] eqn:E.
  - destruct s; discriminate E.
  - cbn [sliceLast]. exact IH.
Qed.

Lemma ensureNewline_separator (s : string) :
  ensureNewline s = s ++ separatorAfter s.
Proof.
  unfold ensureNewline, separatorAfter.
  destruct (String.eqb (sliceLast s) LF); [now rewrite append_nil_r|reflexivity].
Qed.

Lemma ensureNewline_ends (s : string) : sliceLast (ensureNewline s) = LF.
Proof.
  unfold ensureNewline. destruct (String.eqb (sliceLast s) LF) eqn:E.
  - now apply String.eqb_eq.
  - apply sliceLast_append_LF.
Qed.

Lemma ensureNewline_fixed (s : string) : sliceLast s = LF -> ensureNewline s = s.
Proof. intros H. unfold ensureNewline. now rewrite H. Qed.

Lemma lineBreakRun_append (n : nat) (s t : string) :
  lineBreakRun n (s ++ t) = lineBreakRun (lineBreakRun n s) t.
Proof.
  revert n. induction s as [|c s IH]; intros n; [reflexivity|].
  simpl. destruct (Ascii.eqb c _); apply IH.
Qed.

Lemma sliceLast_LF_run (s : string) (n : nat) :
  s <> "" -> (String.eqb (sliceLast s) LF = true <-> (0 < lineBreakRun n s)%nat).
Proof.
  revert n. induction s as [|c s IH]; intros n Hne; [congruence|].
  destruct s as [|d r].
  - cbn. destruct (Ascii.eqb c _) eqn:E; cbn; split; intros; try lia; try discriminate.
  - cbn [sliceLast lineBreakRun].
    destruct (Ascii.eqb c _); apply IH; discriminate.
Qed.

Lemma sliceLast_LF_trailing (s : string) :
  String.eqb (sliceLast s) LF = true <-> (0 < trailingLineBreaks s)%nat.
Proof.
  destruct s as [|c s].
  - cbn. split; [discriminate|lia].
  - apply sliceLast_LF_run. discriminate.
Qed.

(** A normalisation leaves the line breaks it finds and adds one when it
    finds none. *)
Lemma trailingLineBreaks_ensureNewline (s : string) :
  trailingLineBreaks (ensureNewline s) = Nat.max 1 (trailingLineBreaks s).
Proof.
  unfold ensureNewline. destruct (String.eqb (sliceLast s) LF) eqn:E.
  - apply sliceLast_LF_trailing in E. lia.
  - assert (H : trailingLineBreaks s = 0%nat).
    { destruct (trailingLineBreaks s) eqn:E'; [reflexivity|].
      assert (Hpos : (0 < trailingLineBreaks s)%nat) by lia.
      apply sliceLast_LF_trailing in Hpos. congruence. }
    unfold trailingLineBreaks in *. rewrite lineBreakRun_append, H. reflexivity.
Qed.

Lemma summarySection_cases (settings : TranscriptionSettings)
    (transcript : TranscriptSchema) :
  (summarySection settings transcript = ""
   /\ ~ (embedSummary settings = true
         /\ exists summary, tr_summary transcript = Some summary
                            /\ summary <> "" /\ summary <> SUMMARY_SENTINEL))
  \/ (embedSummary settings = true
      /\ exists summary, tr_summary transcript = Some summary
                         /\ summary <> "" /\ summary <> SUMMARY_SENTINEL
                         /\ summarySection settings transcript
                            = "## Summary" ++ LF ++ summary).
Proof.
  unfold summarySection.
  destruct (tr_summary transcript) as [summary|] eqn:Es.
  - destruct summary as [|c r] eqn:E; cbn [truthy].
    + left. split; [reflexivity|]. intros (_ & s & Hs & Hne & _). congruence.
    + rewrite <- E.
      destruct (embedSummary settings) eqn:Ef; cbn [andb].
      * destruct (String.eqb_spec summary SUMMARY_SENTINEL) as [Heq|Hneq]; cbn [negb].
        -- left. split; [reflexivity|]. intros (_ & s & Hs & _ & Hn). congruence.
        -- right. split; [reflexivity|]. exists summary.
           repeat split; try assumption. rewrite E. discriminate.
      * left. split; [reflexivity|]. intros (Hf & _). discriminate.
  - left. split; [reflexivity|]. intros (_ & s & Hs & _). discriminate.
Qed.

Lemma afterTranscript_ends tz formatOther settings transcript :
  sliceLast (afterTranscript tz formatOther settings transcript) = LF.
Proof. apply ensureNewline_ends. Qed.

(** C7.  The summary step appends a Summary section only if the flag is
    set and the summary is present, not empty and not the sentinel; in any
    other case, and so for the sentinel whatever the flag, it leaves the
    accumulated text as it was and the whole output is that of the same
    transcript without a summary. *)
Theorem summary_section_only_if :
  forall (tz : TimeZone) (formatOther : Z -> string -> string)
         (settings : TranscriptionSettings) (transcript : TranscriptSchema),
    (summarySection settings transcript <> "" ->
     embedSummary settings = true
     /\ exists summary,
         tr_summary transcript = Some summary
         /\ summary <> "" /\ summary <> SUMMARY_SENTINEL
         /\ summarySection settings transcript = "## Summary" ++ LF ++ summary)
    /\ (~ (embedSummary settings = true
           /\ exists summary,
               tr_summary transcript = Some summary
               /\ summary <> "" /\ summary <> SUMMARY_SENTINEL) ->
        summarySection settings transcript = ""
        /\ afterSummary tz formatOther settings transcript
           = afterTranscript tz formatOther settings transcript
        /\ formatSwiftinkResults tz formatOther settings transcript
           = formatSwiftinkResults tz formatOther settings
               (withSummary None transcript))
    /\ (tr_summary transcript = Some SUMMARY_SENTINEL ->
        summarySection settings transcript = ""
        /\ formatSwiftinkResults tz formatOther settings transcript
           = formatSwiftinkResults tz formatOther settings
               (withSummary None transcript)).
Proof.
  intros tz formatOther settings transcript.
  assert (Hnone : summarySection settings transcript = "" ->
                  afterSummary tz formatOther settings transcript
                  = afterTranscript tz formatOther settings transcript
                  /\ formatSwiftinkResults tz formatOther settings transcript
                     = formatSwiftinkResults tz formatOther settings
                         (withSummary None transcript)).
  { intros H. split.
    - unfold afterSummary. rewrite H, append_nil_r.
      apply ensureNewline_fixed, afterTranscript_ends.
    - unfold formatSwiftinkResults, afterKeywords, afterOutline, afterSummary.
      rewrite H. reflexivity. }
  split; [|split].
  - intros Hne.
    destruct (summarySection_cases settings transcript) as [[H _]|[Hf (s & H)]];
      [congruence|].
    split; [exact Hf|exists s; exact H].
  - intros Hnot.
    destruct (summarySection_cases settings transcript) as [[H _]|[Hf (s & Hs & H1 & H2 & _)]].
    + split; [exact H|apply Hnone, H].
    + exfalso. apply Hnot. split; [exact Hf|exists s; auto].
  - intros Hs.
    assert (H : summarySection settings transcript = "").
    { unfold summarySection. rewrite Hs. cbn [truthy SUMMARY_SENTINEL].
      rewrite String.eqb_refl, andb_false_r. reflexivity. }
    split; [exact H|apply Hnone, H].
Qed.

Lemma summary_section_only_if_witness :
  (embedSummary (mkSettings false "auto" true false false false "auto") = true
   /\ exists summary,
       Some "A short memo." = Some summary
       /\ summary <> "" /\ summary <> SUMMARY_SENTINEL
       /\ summarySection (mkSettings false "auto" true false false false "auto")
            (mkTranscript "t1" "memo.mp3" (Some "complete") (Some "hello") []
               (Some "A short memo.") [] [])
          = "## Summary" ++ LF ++ summary)
  /\ formatSwiftinkResults utc (fun _ pattern => pattern) settingsAllOff
       (mkTranscript "t1" "memo.mp3" (Some "complete") (Some "hello") []
          (Some "A short memo.") [] [])
     = "## Transcript" ++ LF ++ "hello" ++ LF
  /\ formatSwiftinkResults utc (fun _ pattern => pattern)
       (mkSettings false "auto" true false false false "auto")
       (mkTranscript "t1" "memo.mp3" (Some "complete") (Some "hello") []
          (Some SUMMARY_SENTINEL) [] [])
     = "## Transcript" ++ LF ++ "hello" ++ LF.
Proof.
  split; [|split].
  - apply (proj1 (summary_section_only_if utc (fun _ pattern => pattern)
             (mkSettings false "auto" true false false false "auto")
             (mkTranscript "t1" "memo.mp3" (Some "complete") (Some "hello") []
                (Some "A short memo.") [] []))).
    discriminate.
  - rewrite (proj2 (proj2 (proj1 (proj2 (summary_section_only_if utc
               (fun _ pattern => pattern) settingsAllOff
               (mkTranscript "t1" "memo.mp3" (Some "complete") (Some "hello") []
                  (Some "A short memo.") [] []))) ltac:(intros [H _]; discriminate H)))).
    reflexivity.
  - rewrite (proj2 (proj2 (proj2 (summary_section_only_if utc (fun _ pattern => pattern)
               (mkSettings false "auto" true false false false "auto")
               (mkTranscript "t1" "memo.mp3" (Some "complete") (Some "hello") []
                  (Some SUMMARY_SENTINEL) [] []))) eq_refl)).
    reflexivity.
Defined.

(** C8, as stated, at a concrete transcript: with every option off and a
    plain text ending in two line breaks, the text accumulated after each
    step, and the output, end in two line breaks. *)
Lemma trailing_line_breaks_not_one :
  formatSwiftinkResults utc (fun _ pattern => pattern) settingsAllOff transcriptTwoBreaks
  = "## Transcript" ++ LF ++ "a" ++ LF ++ LF
  /\ trailingLineBreaks
       (afterTranscript utc (fun _ pattern => pattern) settingsAllOff transcriptTwoBreaks)
     = 2%nat
  /\ trailingLineBreaks
       (formatSwiftinkResults utc (fun _ pattern => pattern) settingsAllOff
          transcriptTwoBreaks)
     = 2%nat
  /\ ~ (forall tz formatOther settings transcript,
           trailingLineBreaks (afterTranscript tz formatOther settings transcript) = 1%nat
           /\ trailingLineBreaks (afterSummary tz formatOther settings transcript) = 1%nat
           /\ trailingLineBreaks (afterOutline tz formatOther settings transcript) = 1%nat
           /\ trailingLineBreaks (afterKeywords tz formatOther settings transcript) = 1%nat).
Proof.
  split; [reflexivity|]. split; [reflexivity|]. split; [reflexivity|].
  intros H.
  destruct (H utc (fun _ pattern => pattern) settingsAllOff transcriptTwoBreaks)
    as [H1 _].
  discriminate H1.
Qed.

(** C8, amended.  The output starts with the Transcript section, whose body
    is the rendered segments when timestamps are on and the plain text, or
    nothing, otherwise; what the Summary, Outline and Keywords steps append
    follows in that order, and the link comes last.  After each step a line
    break is added exactly when the accumulated text does not end in one:
    the accumulated text then ends in at least one line break, in as many
    as it already had when it had some, and so in exactly one unless the
    text appended last ended in several. *)
Theorem sections_in_order_each_closed_by_line_break :
  forall (tz : TimeZone) (formatOther : Z -> string -> string)
         (settings : TranscriptionSettings) (transcript : TranscriptSchema),
    let head :=
      "## Transcript" ++ LF ++ transcriptBody tz formatOther settings transcript in
    let t1 := afterTranscript tz formatOther settings transcript in
    let t2 := afterSummary tz formatOther settings transcript in
    let t3 := afterOutline tz formatOther settings transcript in
    let t4 := afterKeywords tz formatOther settings transcript in
    let s2 := t1 ++ summarySection settings transcript in
    let s3 := t2 ++ outlineSection tz formatOther settings transcript in
    let s4 := t3 ++ keywordsSection settings transcript in
    formatSwiftinkResults tz formatOther settings transcript
    = head ++ separatorAfter head
      ++ summarySection settings transcript ++ separatorAfter s2
      ++ outlineSection tz formatOther settings transcript ++ separatorAfter s3
      ++ keywordsSection settings transcript ++ separatorAfter s4
      ++ functionsLink settings transcript
    /\ transcriptBody tz formatOther settings transcript
       = (if timestamps settings
          then segmentsToTimestampedString tz formatOther
                 (tr_text_segments transcript) (timestampFormat settings) 0
          else match tr_text transcript with Some t => t | None => "" end)
    /\ (forall s, separatorAfter s = (if String.eqb (sliceLast s) LF then "" else LF))
    /\ (sliceLast t1 = LF /\ sliceLast t2 = LF /\ sliceLast t3 = LF /\ sliceLast t4 = LF)
    /\ trailingLineBreaks t1 = Nat.max 1 (trailingLineBreaks head)
    /\ trailingLineBreaks t2 = Nat.max 1 (trailingLineBreaks s2)
    /\ trailingLineBreaks t3 = Nat.max 1 (trailingLineBreaks s3)
    /\ trailingLineBreaks t4 = Nat.max 1 (trailingLineBreaks s4).
Proof.
  intros tz formatOther settings transcript. cbv zeta.
  split; [|split; [|split; [|split; [|split; [|split; [|split]]]]]].
  - unfold formatSwiftinkResults, afterKeywords, afterOutline, afterSummary,
      afterTranscript.
    rewrite !ensureNewline_separator, !append_assoc. reflexivity.
  - unfold transcriptBody. destruct (timestamps settings); [reflexivity|].
    destruct (tr_text transcript) as [[|c r]|]; reflexivity.
  - reflexivity.
  - repeat split; apply ensureNewline_ends.
  - apply trailingLineBreaks_ensureNewline.
  - apply trailingLineBreaks_ensureNewline.
  - apply trailingLineBreaks_ensureNewline.
  - apply trailingLineBreaks_ensureNewline.
Qed.

(** ** Bucketing *)

Lemma Qeq_bool_compat (k k' a : Q) :
  Qeq_bool k k' = true -> Qeq_bool k a = Qeq_bool k' a.
Proof.
  intros H. apply Qeqb_comp; [now apply Qeq_bool_eq|reflexivity].
Qed.

Lemma hasKey_compat (k k' : Q) (keys : list Q) :
  Qeq_bool k k' = true -> hasKey k keys = hasKey k' keys.
Proof.
  intros H. unfold hasKey. induction keys as [|a l IH]; [reflexivity|].
  simpl. now rewrite IH, (Qeq_bool_compat k k' a H).
Qed.

Lemma hasKey_InA (k : Q) (keys : list Q) :
  hasKey k keys = true <-> InA Qeq k keys.
Proof.
  unfold hasKey. rewrite existsb_exists, InA_alt. split.
  - intros (x & Hin & Hx). exists x. split; [now apply Qeq_bool_eq|exact Hin].
  - intros (x & Hx & Hin). exists x. split; [exact Hin|now apply Qeq_eq_bool].
Qed.

Lemma hasKey_In (k : Q) (keys : list Q) : In k keys -> hasKey k keys = true.
Proof.
  intros H. apply hasKey_InA, InA_alt. exists k. split; [reflexivity|exact H].
Qed.

Lemma hasKey_false_In (k x : Q) (keys : list Q) :
  hasKey k keys = false -> In x keys -> Qeq_bool k x = false.
Proof.
  intros H Hin. destruct (Qeq_bool k x) eqn:E; [|reflexivity].
  rewrite (hasKey_compat k x keys E), (hasKey_In x keys Hin) in H. discriminate H.
Qed.

(** *** Objects built by a map over their keys *)

Section KeyedByMap.

Context {V : Type}.
Variable f : Q -> V.

Lemma getProp_absent (k : Q) (keys : list Q) :
  hasKey k keys = false -> getProp k (map (fun x => (x, f x)) keys) = None.
Proof.
  unfold hasKey. induction keys as [|a l IH]; [reflexivity|].
  simpl. intros H. apply orb_false_iff in H as [Ha Hl].
  rewrite Ha. now apply IH.
Qed.

Lemma getProp_present (k : Q) (keys : list Q) :
  (forall x, Qeq_bool k x = true -> f x = f k) ->
  hasKey k keys = true -> getProp k (map (fun x => (x, f x)) keys) = Some (f k).
Proof.
  intros Hf. unfold hasKey. induction keys as [|a l IH]; [discriminate|].
  simpl. destruct (Qeq_bool k a) eqn:Ha.
  - intros _. now rewrite (Hf a Ha).
  - simpl. exact IH.
Qed.

Lemma setProp_absent (k : Q) (v : V) (keys : list Q) :
  hasKey k keys = false ->
  setProp k v (map (fun x => (x, f x)) keys) = (map (fun x => (x, f x)) keys ++ [(k, v)])%list.
Proof.
  unfold hasKey. induction keys as [|a l IH]; [reflexivity|].
  simpl. intros H. apply orb_false_iff in H as [Ha Hl].
  rewrite Ha. now rewrite IH.
Qed.

Lemma setProp_present (k : Q) (v : V) (keys : list Q) :
  NoDupA Qeq keys -> hasKey k keys = true ->
  setProp k v (map (fun x => (x, f x)) keys)
  = map (fun x => (x, if Qeq_bool k x then v else f x)) keys.
Proof.
  induction keys as [|a l IH]; [discriminate|].
  intros Hnd Hk. inversion Hnd as [|? ? Hnotin Hnd']; subst.
  simpl. destruct (Qeq_bool k a) eqn:Ha.
  - f_equal. apply map_ext_in. intros x Hx.
    assert (Hl : hasKey k l = false).
    { destruct (hasKey k l) eqn:E; [|reflexivity].
      exfalso. apply Hnotin. apply hasKey_InA.
      now rewrite <- (hasKey_compat k a l Ha). }
    now rewrite (hasKey_false_In k x l Hl Hx).
  - f_equal. apply IH; [exact Hnd'|].
    unfold hasKey in Hk. simpl in Hk. now rewrite Ha in Hk.
Qed.

End KeyedByMap.

(** *** The grouping loop *)

Section Grouping.

Variable interval : Q.

Local Abbreviation key := (intervalStart interval).

Lemma firstKeys_snoc (segments : list TimestampedTextSegment)
    (s : TimestampedTextSegment) :
  firstKeys interval (segments ++ [s])
  = if hasKey (key s) (firstKeys interval segments)
    then firstKeys interval segments
    else (firstKeys interval segments ++ [key s])%list.
Proof. unfold firstKeys. now rewrite fold_left_app. Qed.

Lemma hasKey_firstKeys (segments : list TimestampedTextSegment) (k : Q) :
  hasKey k (firstKeys interval segments)
  = existsb (fun s => Qeq_bool (key s) k) segments.
Proof.
  induction segments as [|s l IH] using rev_ind; [reflexivity|].
  rewrite firstKeys_snoc, existsb_app. cbn [existsb]. rewrite orb_false_r.
  destruct (hasKey (key s) (firstKeys interval l)) eqn:E.
  - rewrite IH. destruct (Qeq_bool (key s) k) eqn:Ek.
    + rewrite orb_true_r, <- IH, <- (hasKey_compat (key s) k _ Ek). exact E.
    + now rewrite orb_false_r.
  - unfold hasKey at 1. rewrite existsb_app. fold (hasKey k (firstKeys interval l)).
    rewrite IH. cbn [existsb]. now rewrite orb_false_r, Qeq_bool_comm.
Qed.

Lemma firstKeys_distinct (segments : list TimestampedTextSegment) :
  NoDupA Qeq (firstKeys interval segments).
Proof.
  induction segments as [|s l IH] using rev_ind; [constructor|].
  rewrite firstKeys_snoc.
  destruct (hasKey (key s) (firstKeys interval l)) eqn:E; [exact IH|].
  apply NoDupA_app; [exact Q_Setoid|exact IH|repeat constructor; inversion 1|].
  intros x Hx Hs. apply InA_singleton in Hs.
  assert (H : hasKey (key s) (firstKeys interval l) = true).
  { apply hasKey_InA. eapply InA_eqA; [exact Q_Setoid|exact Hs|exact Hx]. }
  congruence.
Qed.

Lemma firstKeys_are_keys (segments : list TimestampedTextSegment) (k : Q) :
  In k (firstKeys interval segments) -> exists s, In s segments /\ key s = k.
Proof.
  induction segments as [|s l IH] using rev_ind; [intros []|].
  rewrite firstKeys_snoc.
  destruct (hasKey (key s) (firstKeys interval l)).
  - intros H. destruct (IH H) as (s' & Hin & Hk).
    exists s'. split; [apply in_or_app; now left|exact Hk].
  - intros H. apply in_app_or in H as [H|[<-|[]]].
    + destruct (IH H) as (s' & Hin & Hk).
      exists s'. split; [apply in_or_app; now left|exact Hk].
    + exists s. split; [apply in_or_app; right; now left|reflexivity].
Qed.

Lemma members_snoc (segments : list TimestampedTextSegment)
    (s : TimestampedTextSegment) (k : Q) :
  members interval (segments ++ [s]) k
  = (members interval segments k
     ++ if Qeq_bool (key s) k then [s] else [])%list.
Proof. unfold members. now rewrite filter_app. Qed.

Lemma members_nil_iff (segments : list TimestampedTextSegment) (k : Q) :
  members interval segments k = []
  <-> hasKey k (firstKeys interval segments) = false.
Proof.
  rewrite hasKey_firstKeys. unfold members.
  induction segments as [|s l IH]; [split; reflexivity|].
  simpl. destruct (Qeq_bool (key s) k); simpl; [split; discriminate|exact IH].
Qed.

Lemma members_compat (segments : list TimestampedTextSegment) (k k' : Q) :
  Qeq_bool k k' = true ->
  members interval segments k' = members interval segments k.
Proof.
  intros H. unfold members. apply filter_ext. intros s.
  rewrite (Qeq_bool_comm _ k'), (Qeq_bool_comm _ k). symmetry.
  now apply Qeq_bool_compat.
Qed.

Lemma groupFor_compat (segments : list TimestampedTextSegment) (k k' : Q) :
  Qeq_bool k k' = true ->
  groupFor interval segments k' = groupFor interval segments k.
Proof. intros H. unfold groupFor. now rewrite (members_compat segments k k' H). Qed.

Lemma groupFor_snoc_other (segments : list TimestampedTextSegment)
    (s : TimestampedTextSegment) (k : Q) :
  Qeq_bool (key s) k = false ->
  groupFor interval (segments ++ [s]) k = groupFor interval segments k.
Proof.
  intros H. unfold groupFor. now rewrite members_snoc, H, app_nil_r.
Qed.

Lemma groupFor_snoc_new (segments : list TimestampedTextSegment)
    (s : TimestampedTextSegment) (k : Q) :
  Qeq_bool (key s) k = true ->
  members interval segments k = [] ->
  groupFor interval (segments ++ [s]) k
  = mkGroup (start s) (end_ s) [text s].
Proof.
  intros H Hnil. unfold groupFor. now rewrite members_snoc, H, Hnil.
Qed.

Lemma groupFor_snoc_same (segments : list TimestampedTextSegment)
    (s : TimestampedTextSegment) (k : Q) :
  Qeq_bool (key s) k = true ->
  members interval segments k <> [] ->
  groupFor interval (segments ++ [s]) k
  = let g := groupFor interval segments k in
    mkGroup (g_start g) (mathMax (g_end g) (end_ s)) (g_texts g ++ [text s]).
Proof.
  intros H Hne. unfold groupFor. rewrite members_snoc, H.
  destruct (members interval segments k) as [|first rest]; [congruence|].
  cbn [app g_start g_end g_texts]. unfold maxEnd.
  rewrite fold_left_app. cbn [fold_left map]. now rewrite map_app.
Qed.

(** The object the loop builds holds, for each distinct key in the order
    the keys are first met, the group of that key. *)
Lemma groupSegments_spec (segments : list TimestampedTextSegment) :
  groupSegments interval segments
  = map (fun k => (k, groupFor interval segments k))
      (firstKeys interval segments).
Proof.
  induction segments as [|s l IH] using rev_ind; [reflexivity|].
  unfold groupSegments. rewrite fold_left_app. cbn [fold_left].
  fold (groupSegments interval l). rewrite IH. unfold addToGroups.
  rewrite firstKeys_snoc.
  destruct (hasKey (key s) (firstKeys interval l)) eqn:E.
  - rewrite getProp_present;
      [|intros x Hx; now apply groupFor_compat|exact E].
    rewrite setProp_present; [|apply firstKeys_distinct|exact E].
    apply map_ext_in. intros x Hx. f_equal.
    destruct (Qeq_bool (key s) x) eqn:Ex.
    + rewrite groupFor_snoc_same; [|exact Ex|].
      * cbv zeta. now rewrite (groupFor_compat l (key s) x Ex).
      * intros Hnil. apply members_nil_iff in Hnil.
        now rewrite (hasKey_In x _ Hx) in Hnil.
    + now rewrite groupFor_snoc_other.
  - rewrite getProp_absent by exact E.
    rewrite setProp_absent by exact E.
    rewrite map_app. f_equal.
    + apply map_ext_in. intros x Hx. f_equal.
      rewrite groupFor_snoc_other; [reflexivity|].
      exact (hasKey_false_In (key s) x _ E Hx).
    + cbn [map]. rewrite groupFor_snoc_new;
        [reflexivity|apply Qeq_bool_refl|now apply members_nil_iff].
Qed.

End Grouping.

(** *** Enumeration order *)

Lemma insertBy_map {A B : Type} (g : A -> B) (key : B -> Q) (x : A) (l : list A) :
  insertBy key (g x) (map g l) = map g (insertBy (fun a => key (g a)) x l).
Proof.
  induction l as [|y l IH]; [reflexivity|].
  simpl. destruct (Qle_bool (key (g x)) (key (g y))); [reflexivity|].
  simpl. now rewrite IH.
Qed.

Lemma sortBy_map {A B : Type} (g : A -> B) (key : B -> Q) (l : list A) :
  sortBy key (map g l) = map g (sortBy (fun a => key (g a)) l).
Proof.
  induction l as [|x l IH]; [reflexivity|].
  cbn [map sortBy fold_right]. fold (sortBy key (map g l)).
  fold (sortBy (fun a => key (g a)) l). now rewrite IH, insertBy_map.
Qed.

Lemma filter_map_comm {A B : Type} (g : A -> B) (p : B -> bool) (l : list A) :
  filter p (map g l) = map g (filter (fun a => p (g a)) l).
Proof.
  induction l as [|x l IH]; [reflexivity|].
  simpl. destruct (p (g x)); simpl; now rewrite IH.
Qed.

Lemma objectValues_map {V : Type} (f : Q -> V) (keys : list Q) :
  objectValues (map (fun k => (k, f k)) keys) = map f (enumerationOrder keys).
Proof.
  unfold objectValues, ownEntries, enumerationOrder.
  rewrite !filter_map_comm, sortBy_map, !map_app, !map_map. reflexivity.
Qed.

Lemma bucketedSegments_spec (interval : Q)
    (segments : list TimestampedTextSegment) :
  bucketedSegments interval segments
  = map (bucketFor interval segments)
      (enumerationOrder (firstKeys interval segments)).
Proof.
  unfold bucketedSegments. rewrite groupSegments_spec, objectValues_map.
  now rewrite map_map.
Qed.

Lemma In_insertBy {A : Type} (key : A -> Q) (x y : A) (l : list A) :
  In y (insertBy key x l) <-> y = x \/ In y l.
Proof.
  induction l as [|z l IH]; simpl; [intuition|].
  destruct (Qle_bool (key x) (key z)); simpl; [intuition|].
  rewrite IH. intuition.
Qed.

Lemma In_sortBy {A : Type} (key : A -> Q) (y : A) (l : list A) :
  In y (sortBy key l) <-> In y l.
Proof.
  induction l as [|x l IH]; [reflexivity|].
  cbn [sortBy fold_right]. fold (sortBy key l).
  rewrite In_insertBy, IH. simpl. intuition.
Qed.

Lemma Qle_bool_false_lt (a b : Q) : Qle_bool a b = false -> b < a.
Proof.
  intros H. apply Qnot_le_lt. intros Hle. apply Qle_bool_iff in Hle. congruence.
Qed.

Lemma insertBy_ascending (x : Q) (l : list Q) :
  StronglySorted Qlt l -> ~ InA Qeq x l ->
  StronglySorted Qlt (insertBy (fun k => k) x l).
Proof.
  induction l as [|y l IH]; intros Hs Hx; simpl.
  - repeat constructor.
  - inversion Hs as [|? ? Hs' Hall]; subst.
    destruct (Qle_bool x y) eqn:E.
    + apply Qle_bool_iff in E.
      assert (Hxy : x < y).
      { apply Qle_lt_or_eq in E as [H|H]; [exact H|].
        exfalso. apply Hx. now constructor. }
      constructor; [exact Hs|].
      constructor; [exact Hxy|].
      eapply Forall_impl; [|exact Hall].
      intros z Hz. now apply Qlt_trans with y.
    + apply Qle_bool_false_lt in E.
      constructor.
      * apply IH; [exact Hs'|]. intros H. apply Hx. now constructor 2.
      * apply Forall_forall. intros z Hz. apply In_insertBy in Hz as [->|Hz];
          [exact E|]. rewrite Forall_forall in Hall. now apply Hall.
Qed.

Lemma InA_sortBy (x : Q) (l : list Q) :
  InA Qeq x (sortBy (fun k => k) l) -> InA Qeq x l.
Proof.
  rewrite !InA_alt. intros (y & Hy & Hin). exists y. split; [exact Hy|].
  now apply In_sortBy in Hin.
Qed.

Lemma sortBy_ascending (l : list Q) :
  NoDupA Qeq l -> StronglySorted Qlt (sortBy (fun k => k) l).
Proof.
  induction 1 as [|x l Hx Hnd IH]; [constructor|].
  cbn [sortBy fold_right]. fold (sortBy (fun k => k) l).
  apply insertBy_ascending; [exact IH|].
  intros H. apply Hx. now apply InA_sortBy.
Qed.

Lemma NoDupA_filter (p : Q -> bool) (l : list Q) :
  NoDupA Qeq l -> NoDupA Qeq (filter p l).
Proof.
  induction 1 as [|x l Hx Hnd IH]; [constructor|].
  simpl. destruct (p x); [|exact IH].
  constructor; [|exact IH].
  intros H. apply Hx. rewrite InA_alt in *.
  destruct H as (y & Hy & Hin). exists y. split; [exact Hy|].
  now apply filter_In in Hin.
Qed.

Lemma filter_all {A : Type} (p : A -> bool) (l : list A) :
  (forall x, In x l -> p x = true) -> filter p l = l.
Proof.
  induction l as [|x l IH]; intros H; [reflexivity|].
  simpl. rewrite (H x (or_introl eq_refl)). f_equal.
  apply IH. intros y Hy. apply H. now right.
Qed.

Lemma filter_none {A : Type} (p : A -> bool) (l : list A) :
  (forall x, In x l -> p x = true) -> filter (fun x => negb (p x)) l = [].
Proof.
  induction l as [|x l IH]; intros H; [reflexivity|].
  simpl. rewrite (H x (or_introl eq_refl)). simpl.
  apply IH. intros y Hy. apply H. now right.
Qed.

(** The array-index keys come out in strictly ascending order. *)
Lemma index_keys_ascending (interval : Q)
    (segments : list TimestampedTextSegment) :
  StronglySorted Qlt
    (sortBy (fun k => k) (filter isArrayIndex (firstKeys interval segments))).
Proof. apply sortBy_ascending, NoDupA_filter, firstKeys_distinct. Qed.

(** When every key is an array index, so does the whole enumeration. *)
Lemma enumerationOrder_ascending (interval : Q)
    (segments : list TimestampedTextSegment) :
  (forall s, In s segments -> isArrayIndex (intervalStart interval s) = true) ->
  StronglySorted Qlt (enumerationOrder (firstKeys interval segments)).
Proof.
  intros H. unfold enumerationOrder.
  assert (Hk : forall k, In k (firstKeys interval segments) -> isArrayIndex k = true).
  { intros k Hin. destruct (firstKeys_are_keys interval segments k Hin) as (s & Hs & <-).
    now apply H. }
  rewrite (filter_none isArrayIndex _ Hk), app_nil_r.
  rewrite (filter_all isArrayIndex _ Hk).
  apply sortBy_ascending, firstKeys_distinct.
Qed.

(** *** Doubles *)

Lemma Qred_inject_Z (m : Z) : Qred (inject_Z m) = inject_Z m.
Proof.
  unfold Qred, inject_Z.
  pose proof (Z.ggcd_gcd m 1) as Hg.
  pose proof (Z.ggcd_correct_divisors m 1) as Hd.
  destruct (Z.ggcd m 1) as (g, (aa, bb)). cbn [fst snd] in *.
  rewrite Z.gcd_1_r in Hg. subst g. destruct Hd as [Ha Hb].
  rewrite Z.mul_1_l in Ha, Hb. subst aa bb. reflexivity.
Qed.

Lemma binary64_comp (x y : Q) : x == y -> binary64 x = binary64 y.
Proof. intros H. unfold binary64. now rewrite (Qred_complete x y H). Qed.

Lemma roundHalfEven_cases (num den : Z) :
  (0 < den)%Z ->
  roundHalfEven num den = (num / den)%Z
  \/ (roundHalfEven num den = num / den + 1 /\ den <= 2 * (num mod den))%Z.
Proof.
  intros H. unfold roundHalfEven.
  destruct (2 * (num mod den) <? den)%Z eqn:E1; [now left|].
  apply Z.ltb_ge in E1.
  destruct (den <? 2 * (num mod den))%Z; [now right|].
  destruct (Z.even (num / den)); [now left|now right].
Qed.

Lemma roundHalfEven_whole (num : Z) : roundHalfEven num 1 = num.
Proof.
  unfold roundHalfEven. rewrite Z.mod_1_r, Z.div_1_r. reflexivity.
Qed.

Lemma exponentOf_le (a b : Z) :
  (0 < a < TWO53)%Z -> (0 < b)%Z -> (exponentOf a b <= 52)%Z.
Proof.
  intros Ha Hb. unfold exponentOf.
  assert (H : (Z.log2 a < 53)%Z) by (apply Z.log2_lt_pow2; [lia|exact (proj2 Ha)]).
  pose proof (Z.log2_nonneg b).
  destruct (_ <? _)%Z; lia.
Qed.

(** Where the exponent is not negative the number is at least [2 ^ e]. *)
Lemma exponentOf_lower (a b : Z) :
  (0 < a)%Z -> (0 < b)%Z -> (0 <= exponentOf a b)%Z ->
  (b * 2 ^ exponentOf a b <= a)%Z.
Proof.
  intros Ha Hb. unfold exponentOf.
  set (e0 := (Z.log2 a - Z.log2 b)%Z).
  destruct (_ <? _)%Z eqn:E; intros He.
  - pose proof (Z.log2_spec a Ha) as [La _].
    pose proof (Z.log2_spec b Hb) as [_ Lb].
    pose proof (Z.log2_nonneg b) as Hlb.
    assert (Hpow : (2 ^ Z.log2 a = 2 ^ Z.succ (Z.log2 b) * 2 ^ (e0 - 1))%Z).
    { rewrite <- Z.pow_add_r by lia. f_equal. unfold e0. lia. }
    assert (Hp : (0 < 2 ^ (e0 - 1))%Z) by (apply Z.pow_pos_nonneg; lia).
    nia.
  - apply Z.ltb_ge in E.
    rewrite (Z.max_r 0 e0), (Z.max_l 0 (- e0)) in E by lia.
    rewrite Z.pow_0_r in E. lia.
Qed.

(** Rounding [a / b] to a double does not carry it to the next whole
    number when [a] is below 2^53: the distance to that number is at least
    [1 / b], more than half the spacing of the doubles around [a / b]. *)
Lemma roundPositive_floor (a b : Z) :
  (0 < a < TWO53)%Z -> (0 < b)%Z ->
  Qfloor (roundPositive a b) = (a / b)%Z.
Proof.
  intros Ha Hb. unfold roundPositive.
  pose proof (exponentOf_le a b Ha Hb) as He.
  set (e := exponentOf a b) in *.
  set (s := (52 - Z.max e (-1022))%Z).
  assert (Hs : (0 <= s)%Z) by (unfold s; lia).
  rewrite (Z.max_r 0 s), (Z.max_l 0 (- s)) by lia.
  rewrite Z.pow_0_r, !Z.mul_1_r.
  set (S := (2 ^ s)%Z).
  assert (HS : (0 < S)%Z) by (apply Z.pow_pos_nonneg; lia).
  unfold Qfloor. cbn [Qnum Qden]. rewrite Z2Pos.id by exact HS.
  set (q := (a / b)%Z).
  assert (Hq : (b * q <= a < b * (q + 1))%Z).
  { unfold q. pose proof (Z.div_mod a b ltac:(lia)).
    pose proof (Z.mod_pos_bound a b Hb). lia. }
  assert (Hq0 : (0 <= q)%Z) by (apply Z.div_pos; lia).
  set (N := (a * S)%Z).
  pose proof (Z.div_mod N b ltac:(lia)) as HN.
  pose proof (Z.mod_pos_bound N b Hb) as Hr.
  assert (Hlo : (q * S <= N / b)%Z).
  { apply Z.div_le_lower_bound; [exact Hb|]. unfold N. nia. }
  assert (Hhi : (N / b < (q + 1) * S)%Z).
  { apply Z.div_lt_upper_bound; [exact Hb|]. unfold N. nia. }
  assert (Hm : (q * S <= roundHalfEven N b < (q + 1) * S)%Z).
  { destruct (roundHalfEven_cases N b Hb) as [-> | [-> Hup]]; [lia|].
    split; [lia|].
    destruct (Z.eq_dec (N / b + 1) ((q + 1) * S)) as [Heq|]; [exfalso|lia].
    assert (Hb2 : (2 * S <= b)%Z).
    { assert (S <= b - N mod b)%Z; [|lia].
      assert (b - N mod b = S * (b * (q + 1) - a))%Z by (unfold N in *; nia).
      nia. }
    destruct (Z_le_gt_dec 53 s) as [Hbig|Hsmall].
    - assert (TWO53 <= S)%Z.
      { unfold S. change TWO53 with (2 ^ 53)%Z. apply Z.pow_le_mono_r; lia. }
      assert (b * (S - 1) <= N)%Z by nia.
      assert (N < TWO53 * S)%Z by (unfold N; nia).
      unfold TWO53 in *. nia.
    - assert (He0 : (0 <= e)%Z) by (unfold s in Hsmall; lia).
      pose proof (exponentOf_lower a b ltac:(lia) Hb He0) as Hlow.
      fold e in Hlow.
      assert (HSe : (2 * S * 2 ^ e = TWO53)%Z).
      { unfold S, s. rewrite Z.max_l by lia.
        change 2%Z with (2 ^ 1)%Z at 1. rewrite <- !Z.pow_add_r by lia.
        replace (1 + (52 - e) + e)%Z with 53%Z by lia. reflexivity. }
      assert (0 < 2 ^ e)%Z by (apply Z.pow_pos_nonneg; lia).
      nia. }
  symmetry. apply Z.div_unique with (r := (roundHalfEven N b - q * S)%Z); lia.
Qed.

Lemma Qred_num_le (y : Q) :
  (0 <= Qnum y)%Z -> (0 <= Qnum (Qred y) <= Qnum y)%Z.
Proof.
  destruct y as [a b]. cbn [Qnum]. intros Ha. unfold Qred.
  pose proof (Z.ggcd_gcd a (Zpos b)) as Hg.
  pose proof (Z.ggcd_correct_divisors a (Zpos b)) as Hd.
  pose proof (Z.gcd_nonneg a (Zpos b)) as Hn.
  destruct (Z.ggcd a (Zpos b)) as (g, (aa, bb)). cbn [fst snd] in *.
  rewrite <- Hg in Hn. destruct Hd as [Ea Eb]. cbn [Qnum].
  assert (Hpos : (0 < g)%Z).
  { destruct (Z.eq_dec g 0) as [E|E]; [|lia]. rewrite E in Eb. lia. }
  assert (Haa : (0 <= aa)%Z) by nia.
  nia.
Qed.

(** Rounding to a double keeps the integer part of a number that is not
    negative and whose numerator is below 2^53. *)
Lemma binary64_floor (x : Q) :
  0 <= x -> (Qnum (Qred x) < TWO53)%Z -> Qfloor (binary64 x) = Qfloor x.
Proof.
  intros Hx Hn.
  rewrite <- (Qfloor_comp _ _ (Qred_correct x)).
  unfold binary64.
  assert (H0 : 0 <= Qred x) by now rewrite Qred_correct.
  destruct (Qred x) as [a b]. cbn [Qnum Qden] in *.
  destruct a as [|p|p].
  - reflexivity.
  - rewrite roundPositive_floor by lia. reflexivity.
  - exfalso. unfold Qle in H0. cbn in H0. lia.
Qed.

(** A whole number from 0 to below 2^53 is a double. *)
Lemma binary64_whole (z : Z) :
  (0 <= z < TWO53)%Z -> binary64 (inject_Z z) == inject_Z z.
Proof.
  intros Hz. unfold binary64. rewrite Qred_inject_Z. cbn [inject_Z Qnum Qden].
  destruct z as [|p|p]; [reflexivity| |lia].
  unfold roundPositive.
  pose proof (exponentOf_le (Zpos p) 1 ltac:(lia) ltac:(lia)) as He.
  set (e := exponentOf (Zpos p) 1) in *.
  set (s := (52 - Z.max e (-1022))%Z).
  assert (Hs : (0 <= s)%Z) by (unfold s; lia).
  rewrite (Z.max_r 0 s), (Z.max_l 0 (- s)) by lia.
  rewrite Z.pow_0_r, !Z.mul_1_r, roundHalfEven_whole.
  assert (HS : (0 < 2 ^ s)%Z) by (apply Z.pow_pos_nonneg; lia).
  unfold Qeq. cbn [Qnum Qden inject_Z]. rewrite Z2Pos.id by exact HS. lia.
Qed.

(** The number is below [2 ^ (e + 1)]. *)
Lemma exponentOf_upper (a b : Z) :
  (0 < a)%Z -> (0 < b)%Z ->
  (a * 2 ^ Z.max 0 (- (exponentOf a b + 1))
   < b * 2 ^ Z.max 0 (exponentOf a b + 1))%Z.
Proof.
  intros Ha Hb. unfold exponentOf.
  set (e0 := (Z.log2 a - Z.log2 b)%Z).
  destruct (_ <? _)%Z eqn:E.
  - apply Z.ltb_lt in E. replace (e0 - 1 + 1)%Z with e0 by lia. exact E.
  - pose proof (Z.log2_spec a Ha) as [_ La].
    pose proof (Z.log2_spec b Hb) as [Lb _].
    pose proof (Z.log2_nonneg b) as Hlb.
    pose proof (Z.log2_nonneg a) as Hla.
    destruct (Z_le_gt_dec 0 (e0 + 1)) as [H|H].
    + rewrite (Z.max_l 0 (- (e0 + 1))), (Z.max_r 0 (e0 + 1)) by lia.
      rewrite Z.pow_0_r, Z.mul_1_r.
      assert (Hpow : (2 ^ Z.succ (Z.log2 a) = 2 ^ Z.log2 b * 2 ^ (e0 + 1))%Z).
      { rewrite <- Z.pow_add_r by lia. f_equal. unfold e0. lia. }
      assert (0 < 2 ^ (e0 + 1))%Z by (apply Z.pow_pos_nonneg; lia).
      nia.
    + rewrite (Z.max_r 0 (- (e0 + 1))), (Z.max_l 0 (e0 + 1)) by lia.
      rewrite Z.pow_0_r, Z.mul_1_r.
      assert (Hpow : (2 ^ Z.log2 b
                      = 2 ^ Z.succ (Z.log2 a) * 2 ^ (- (e0 + 1)))%Z).
      { rewrite <- Z.pow_add_r by lia. f_equal. unfold e0. lia. }
      assert (0 < 2 ^ (- (e0 + 1)))%Z by (apply Z.pow_pos_nonneg; lia).
      nia.
Qed.

Lemma exponentOf_le_value (a b : Z) :
  (0 < a)%Z -> (0 < b)%Z -> (a < TWO53 * b)%Z -> (exponentOf a b <= 52)%Z.
Proof.
  intros Ha Hb Hlt. unfold exponentOf.
  set (e0 := (Z.log2 a - Z.log2 b)%Z).
  pose proof (Z.log2_spec a Ha) as [La _].
  pose proof (Z.log2_spec b Hb) as [_ Lb].
  pose proof (Z.log2_nonneg b) as Hlb.
  pose proof (Z.log2_nonneg a) as Hla.
  assert (He0 : (e0 <= 53)%Z).
  { destruct (Z_le_gt_dec e0 53) as [H|H]; [exact H|exfalso].
    assert (Hpow : (2 ^ Z.log2 a = 2 ^ Z.succ (Z.log2 b) * 2 ^ (e0 - 1))%Z).
    { rewrite <- Z.pow_add_r by lia. f_equal. unfold e0. lia. }
    assert (TWO53 <= 2 ^ (e0 - 1))%Z.
    { change TWO53 with (2 ^ 53)%Z. apply Z.pow_le_mono_r; lia. }
    unfold TWO53 in *. nia. }
  destruct (_ <? _)%Z eqn:E; [lia|].
  apply Z.ltb_ge in E.
  destruct (Z.eq_dec e0 53) as [H53|]; [exfalso|lia].
  rewrite H53 in E. change (Z.max 0 (- 53)) with 0%Z in E.
  change (Z.max 0 53) with 53%Z in E. change (2 ^ 53)%Z with TWO53 in E.
  rewrite Z.pow_0_r in E. lia.
Qed.

(** A double from 0 to below 2^53 has, in lowest terms, a numerator below
    2^53. *)
Lemma double_numerator (x : Q) :
  0 <= x -> x < inject_Z TWO53 -> isDouble x ->
  (Qnum (Qred x) < TWO53)%Z.
Proof.
  intros H0 Hlt Hd. unfold isDouble in Hd.
  assert (H0' : 0 <= Qred x) by now rewrite Qred_correct.
  assert (Hlt' : Qred x < inject_Z TWO53) by now rewrite Qred_correct.
  assert (Hd' : binary64 x == Qred x) by now rewrite Qred_correct.
  unfold binary64 in Hd'.
  destruct (Qred x) as [a b] eqn:Ex. cbn [Qnum Qden] in *.
  destruct a as [|p|p].
  - reflexivity.
  - unfold Qlt, inject_Z in Hlt'. cbn [Qnum Qden] in Hlt'.
    rewrite Z.mul_1_r in Hlt'.
    pose proof (exponentOf_le_value (Zpos p) (Zpos b) ltac:(lia) ltac:(lia) Hlt')
      as He.
    pose proof (exponentOf_upper (Zpos p) (Zpos b) ltac:(lia) ltac:(lia)) as Hup.
    unfold roundPositive in Hd'.
    set (e := exponentOf (Zpos p) (Zpos b)) in *.
    set (s := (52 - Z.max e (-1022))%Z) in *.
    assert (Hs : (0 <= s)%Z) by (unfold s; lia).
    rewrite (Z.max_r 0 s), (Z.max_l 0 (- s)) in Hd' by lia.
    rewrite Z.pow_0_r, !Z.mul_1_r in Hd'.
    set (S := (2 ^ s)%Z) in *.
    assert (HS : (0 < S)%Z) by (apply Z.pow_pos_nonneg; lia).
    set (m := roundHalfEven (Zpos p * S) (Zpos b)) in *.
    unfold Qeq in Hd'. cbn [Qnum Qden] in Hd'.
    rewrite Z2Pos.id in Hd' by exact HS.
    (* m * b = p * S *)
    assert (Hm : (m * 2 ^ Z.max 0 (e + 1) < TWO53 * 2 ^ Z.max 0 (e + 1))%Z
                 -> (m < TWO53)%Z).
    { assert (0 < 2 ^ Z.max 0 (e + 1))%Z by (apply Z.pow_pos_nonneg; lia). nia. }
    assert (Hmlt : (m < TWO53)%Z).
    { assert (Hb : (0 < Zpos b)%Z) by lia.
      assert (HSS : (S * 2 ^ Z.max 0 (e + 1)
                     <= TWO53 * 2 ^ Z.max 0 (- (e + 1)))%Z).
      { unfold S, s. change TWO53 with (2 ^ 53)%Z.
        rewrite <- !Z.pow_add_r by lia. apply Z.pow_le_mono_r; lia. }
      assert (0 < 2 ^ Z.max 0 (e + 1))%Z by (apply Z.pow_pos_nonneg; lia).
      assert (0 < 2 ^ Z.max 0 (- (e + 1)))%Z by (apply Z.pow_pos_nonneg; lia).
      (* m * b * 2^max(0,e+1) = p * S * 2^max(0,e+1) <= p * TWO53 * 2^max(0,-(e+1))
         < TWO53 * b * 2^max(0,e+1) *)
      set (P := (2 ^ Z.max 0 (e + 1))%Z) in *.
      set (M := (2 ^ Z.max 0 (- (e + 1)))%Z) in *.
      assert (m * Zpos b * P <= TWO53 * (Zpos p * M))%Z.
      { rewrite Hd'. unfold TWO53 in *. nia. }
      assert (TWO53 * (Zpos p * M) < TWO53 * (Zpos b * P))%Z.
      { apply Z.mul_lt_mono_pos_l; [reflexivity|exact Hup]. }
      assert (m * (Zpos b * P) < TWO53 * (Zpos b * P))%Z by lia.
      assert (0 < Zpos b * P)%Z by nia.
      apply Z.mul_lt_mono_pos_r with (p := (Zpos b * P)%Z); assumption. }
    assert (Hm0 : (0 <= m)%Z).
    { assert (0 <= m * Zpos b)%Z by (rewrite Hd'; nia). nia. }
    assert (E : Zpos p # b == m # Z.to_pos S).
    { unfold Qeq. cbn [Qnum Qden]. rewrite Z2Pos.id by exact HS. lia. }
    assert (Er : Qred (Zpos p # b) = Zpos p # b).
    { rewrite <- Ex. exact (Qred_complete _ _ (Qred_correct x)). }
    pose proof (Qred_num_le (m # Z.to_pos S) Hm0) as Hle. cbn [Qnum] in Hle.
    rewrite <- (Qred_complete _ _ E), Er in Hle. cbn [Qnum] in Hle. lia.
  - exfalso. unfold Qle in H0'. cbn in H0'. lia.
Qed.

(** *** Keys and bucket indices *)

Lemma key_canonical (interval : Q) (s s' : TimestampedTextSegment) :
  Qeq_bool (intervalStart interval s) (intervalStart interval s') = true ->
  intervalStart interval s = intervalStart interval s'.
Proof.
  intros H. apply Qeq_bool_eq in H. unfold intervalStart in *.
  apply Qred_complete. now apply Qeq_Qred_iff.
Qed.

Lemma key_in_firstKeys (interval : Q) (segments : list TimestampedTextSegment)
    (s : TimestampedTextSegment) :
  In s segments -> In (intervalStart interval s) (firstKeys interval segments).
Proof.
  intros Hs.
  assert (H : hasKey (intervalStart interval s) (firstKeys interval segments) = true).
  { rewrite hasKey_firstKeys. apply existsb_exists. exists s.
    split; [exact Hs|apply Qeq_bool_refl]. }
  apply existsb_exists in H as (x & Hx & Hq).
  destruct (firstKeys_are_keys interval segments x Hx) as (s' & _ & <-).
  now rewrite (key_canonical interval s s' Hq).
Qed.

(** The members of the bucket of a segment are the segments with the key of
    that segment. *)
Lemma members_same_key (interval : Q) (segments : list TimestampedTextSegment)
    (s m : TimestampedTextSegment) :
  In m (members interval segments (intervalStart interval s))
  <-> In m segments /\ intervalStart interval m = intervalStart interval s.
Proof.
  unfold members. rewrite filter_In. split; intros [Hin H]; split; try exact Hin.
  - now apply key_canonical.
  - rewrite H. apply Qeq_bool_refl.
Qed.

Lemma mathMax_ge_l (a b : Q) : a <= mathMax a b.
Proof.
  unfold mathMax. destruct (Qle_bool a b) eqn:E.
  - now apply Qle_bool_iff.
  - apply Qle_refl.
Qed.

Lemma mathMax_ge_r (a b : Q) : b <= mathMax a b.
Proof.
  unfold mathMax. destruct (Qle_bool a b) eqn:E.
  - apply Qle_refl.
  - apply Qlt_le_weak. now apply Qle_bool_false_lt.
Qed.

Lemma maxEnd_ge_init (m : Q) (l : list TimestampedTextSegment) : m <= maxEnd m l.
Proof.
  revert m. induction l as [|s l IH]; intros m; [apply Qle_refl|].
  cbn [maxEnd fold_left]. fold (maxEnd (mathMax m (end_ s)) l).
  eapply Qle_trans; [apply (mathMax_ge_l m (end_ s))|apply IH].
Qed.

Lemma maxEnd_ge (m : Q) (l : list TimestampedTextSegment)
    (s : TimestampedTextSegment) :
  In s l -> end_ s <= maxEnd m l.
Proof.
  revert m. induction l as [|x l IH]; intros m; [intros []|].
  cbn [maxEnd fold_left]. fold (maxEnd (mathMax m (end_ x)) l).
  intros [->|Hin]; [|now apply IH].
  eapply Qle_trans; [apply (mathMax_ge_r m (end_ s))|apply maxEnd_ge_init].
Qed.

Lemma maxEnd_attained (m : Q) (l : list TimestampedTextSegment) :
  maxEnd m l = m \/ exists s, In s l /\ maxEnd m l = end_ s.
Proof.
  revert m. induction l as [|x l IH]; intros m; [now left|].
  cbn [maxEnd fold_left]. fold (maxEnd (mathMax m (end_ x)) l).
  destruct (IH (mathMax m (end_ x))) as [H|(s & Hin & H)].
  - rewrite H. unfold mathMax. destruct (Qle_bool m (end_ x)); [|now left].
    right. exists x. split; [now left|reflexivity].
  - right. exists s. split; [now right|exact H].
Qed.

(** What the bucket of a key met among the segments holds. *)
Lemma bucketFor_contents (interval : Q)
    (segments : list TimestampedTextSegment) (k : Q) :
  In k (firstKeys interval segments) ->
  exists first rest,
    members interval segments k = first :: rest
    /\ start (bucketFor interval segments k) = start first
    /\ (forall m, In m (first :: rest) ->
                  end_ m <= end_ (bucketFor interval segments k))
    /\ (exists m, In m (first :: rest)
                  /\ end_ (bucketFor interval segments k) = end_ m)
    /\ text (bucketFor interval segments k)
       = trim (join "" (map text (first :: rest))).
Proof.
  intros Hk.
  destruct (members interval segments k) as [|first rest] eqn:E.
  - apply members_nil_iff in E. now rewrite (hasKey_In k _ Hk) in E.
  - exists first, rest. unfold bucketFor, groupFor. rewrite E.
    cbn [bucketOfGroup g_start g_end g_texts start end_ text].
    repeat split.
    + intros m [<-|Hm]; [apply maxEnd_ge_init|now apply maxEnd_ge].
    + destruct (maxEnd_attained (end_ first) rest) as [H|(s & Hs & H)].
      * exists first. split; [now left|exact H].
      * exists s. split; [now right|exact H].
Qed.

(** The key of a bucket, computed from the start the bucket is rendered
    with, is the key the bucket is stored under. *)
Lemma key_bucketFor (interval : Q) (segments : list TimestampedTextSegment)
    (k : Q) :
  In k (firstKeys interval segments) ->
  intervalStart interval (bucketFor interval segments k) = k.
Proof.
  intros Hk.
  destruct (bucketFor_contents interval segments k Hk)
    as (first & rest & Hm & Hs & _).
  assert (Hf : In first (members interval segments k)) by (rewrite Hm; now left).
  transitivity (intervalStart interval first).
  { unfold intervalStart. now rewrite Hs. }
  destruct (firstKeys_are_keys interval segments k Hk) as (s & _ & Ek).
  rewrite <- Ek in Hf |- *. now apply members_same_key in Hf.
Qed.

Lemma StronglySorted_map_in {A B : Type} (R : A -> A -> Prop)
    (R' : B -> B -> Prop) (f : A -> B) (l : list A) :
  (forall x y, In x l -> In y l -> R x y -> R' (f x) (f y)) ->
  StronglySorted R l -> StronglySorted R' (map f l).
Proof.
  intros H Hs. induction Hs as [|x l Hs IH Hall]; [constructor|].
  cbn [map]. constructor.
  - apply IH. intros a b Ha Hb. apply H; now right.
  - apply Forall_forall. intros b Hb. apply in_map_iff in Hb as (y & <- & Hy).
    rewrite Forall_forall in Hall.
    apply H; [now left|now right|now apply Hall].
Qed.

Lemma In_enumerationOrder (keys : list Q) (k : Q) :
  In k (enumerationOrder keys) <-> In k keys.
Proof.
  unfold enumerationOrder. rewrite in_app_iff, In_sortBy, !filter_In.
  destruct (isArrayIndex k); simpl; intuition congruence.
Qed.

(** When every key is an array index the buckets come out in strictly
    ascending order of key. *)
Lemma buckets_ascending_by_key (interval : Q)
    (segments : list TimestampedTextSegment) :
  (forall s, In s segments -> isArrayIndex (intervalStart interval s) = true) ->
  StronglySorted Qlt
    (map (intervalStart interval) (bucketedSegments interval segments)).
Proof.
  intros H. rewrite bucketedSegments_spec, map_map.
  apply StronglySorted_map_in with (R := Qlt);
    [|now apply enumerationOrder_ascending].
  intros x y Hx Hy Hlt.
  apply (proj1 (In_enumerationOrder _ _)) in Hx.
  apply (proj1 (In_enumerationOrder _ _)) in Hy.
  rewrite (key_bucketFor interval segments x Hx).
  now rewrite (key_bucketFor interval segments y Hy).
Qed.

Section Buckets.

Variable interval : Q.
Hypothesis interval_positive : 0 < interval.

Local Abbreviation key := (intervalStart interval).
Local Abbreviation index := (bucketIndex interval).

Lemma interval_nonzero : ~ interval == 0.
Proof. intros H. rewrite H in interval_positive. discriminate. Qed.

(** The start of a segment lies in the window of its bucket index. *)
Lemma start_in_window (s : TimestampedTextSegment) :
  inject_Z (index s) * interval <= start s
  /\ start s < inject_Z (index s + 1) * interval.
Proof.
  assert (H : start s == start s / interval * interval).
  { field. apply interval_nonzero. }
  split.
  - apply Qle_trans with (start s / interval * interval).
    + apply Qmult_le_r; [exact interval_positive|apply Qfloor_le].
    + rewrite <- H. apply Qle_refl.
  - apply Qle_lt_trans with (start s / interval * interval).
    + rewrite <- H. apply Qle_refl.
    + apply Qmult_lt_r; [exact interval_positive|apply Qlt_floor].
Qed.

(** An interval that is a whole number of seconds. *)
Variable n : Z.
Hypothesis interval_whole : interval == inject_Z n.

Lemma whole_positive : (0 < n)%Z.
Proof.
  rewrite Zlt_Qlt. eapply Qlt_le_trans; [exact interval_positive|].
  apply Qle_lteq. right. exact interval_whole.
Qed.

Lemma index_nonneg (s : TimestampedTextSegment) :
  0 <= start s -> (0 <= index s)%Z.
Proof.
  intros H. unfold bucketIndex. rewrite <- (Qfloor_Z 0). apply Qfloor_resp_le.
  apply Qle_shift_div_l; [exact interval_positive|]. now rewrite Qmult_0_l.
Qed.

(** Dividing by a whole number does not raise the numerator. *)
Lemma quotient_numerator (x : Q) :
  0 <= x -> (Qnum (Qred (x / interval)) <= Qnum (Qred x))%Z.
Proof.
  intros Hx. pose proof whole_positive as Hn.
  assert (H0 : 0 <= Qred x) by now rewrite Qred_correct.
  assert (E : x / interval
              == Qnum (Qred x) # (Qden (Qred x) * Z.to_pos n)).
  { transitivity (Qred x / inject_Z n).
    - apply Qdiv_comp; [symmetry; apply Qred_correct|exact interval_whole].
    - destruct (Qred x) as [a b]. destruct n as [|p|p]; try lia.
      unfold Qeq, Qdiv, Qmult, Qinv, inject_Z. cbn. lia. }
  rewrite (Qred_complete _ _ E).
  apply (Qred_num_le (Qnum (Qred x) # Qden (Qred x) * Z.to_pos n)).
  cbn [Qnum]. unfold Qle in H0. cbn in H0. lia.
Qed.

(** For a start that is a double below 2^53 the key is computed without
    rounding error: it is the bucket index times the interval. *)
Lemma intervalStart_exact (s : TimestampedTextSegment) :
  exactStart s -> key s = inject_Z (index s * n).
Proof.
  intros (H0 & Hlt & Hd). pose proof whole_positive as Hpos.
  pose proof (double_numerator (start s) H0 Hlt Hd) as Hn.
  assert (E1 : Qfloor (binary64 (start s / interval)) = index s).
  { apply binary64_floor.
    - apply Qle_shift_div_l; [exact interval_positive|]. now rewrite Qmult_0_l.
    - pose proof (quotient_numerator (start s) H0). lia. }
  assert (Hle : inject_Z (index s * n) <= start s).
  { eapply Qle_trans; [|exact (proj1 (start_in_window s))].
    rewrite inject_Z_mult. apply Qle_lteq. right.
    apply Qmult_comp; [reflexivity|symmetry; exact interval_whole]. }
  assert (Hub : (index s * n < TWO53)%Z).
  { rewrite Zlt_Qlt. eapply Qle_lt_trans; [exact Hle|exact Hlt]. }
  pose proof (index_nonneg s H0) as Hz.
  unfold intervalStart. rewrite E1.
  rewrite <- (Qred_inject_Z (index s * n)). apply Qred_complete.
  rewrite (binary64_comp _ (inject_Z (index s * n))).
  - apply binary64_whole. split; [nia|exact Hub].
  - rewrite inject_Z_mult. apply Qmult_comp; [reflexivity|exact interval_whole].
Qed.

(** Two segments have the same key exactly when they have the same bucket
    index. *)
Lemma same_key_iff_same_index (s s' : TimestampedTextSegment) :
  exactStart s -> exactStart s' ->
  (key s = key s' <-> index s = index s').
Proof.
  intros Hs Hs'. pose proof whole_positive as Hpos.
  rewrite !intervalStart_exact by assumption. split.
  - intros H. apply (f_equal Qnum) in H. cbn [inject_Z Qnum] in H. nia.
  - now intros ->.
Qed.

Lemma index_lt_of_key_lt (s s' : TimestampedTextSegment) :
  exactStart s -> exactStart s' ->
  key s < key s' -> (index s < index s')%Z.
Proof.
  intros Hs Hs'. pose proof whole_positive as Hpos.
  rewrite !intervalStart_exact by assumption.
  rewrite <- Zlt_Qlt. nia.
Qed.

Lemma members_same_index (segments : list TimestampedTextSegment)
    (s m : TimestampedTextSegment) :
  (forall x, In x segments -> exactStart x) -> exactStart s ->
  In m (members interval segments (key s))
  <-> In m segments /\ index m = index s.
Proof.
  intros Hall Hs. rewrite members_same_key. split; intros [Hin H]; split;
    try exact Hin; now apply same_key_iff_same_index; auto.
Qed.

(** The bucket rendered for the key of a segment has the bucket index of
    that segment. *)
Lemma index_bucketFor (segments : list TimestampedTextSegment)
    (s : TimestampedTextSegment) :
  (forall x, In x segments -> exactStart x) ->
  In s segments ->
  index (bucketFor interval segments (key s)) = index s.
Proof.
  intros Hall Hs.
  destruct (bucketFor_contents interval segments (key s)
              (key_in_firstKeys interval segments s Hs))
    as (first & rest & Hm & Hst & _).
  assert (H : In first (members interval segments (key s))).
  { rewrite Hm. now left. }
  apply members_same_index in H as [_ H]; [|exact Hall|now apply Hall].
  rewrite <- H. unfold bucketIndex. now rewrite Hst.
Qed.

(** An interval that is a whole number of seconds, with starts that are
    doubles from 0 to below 2^32 - 1, gives array-index keys only. *)
Lemma whole_interval_index_key (s : TimestampedTextSegment) :
  exactStart s -> start s < 4294967295 ->
  isArrayIndex (key s) = true.
Proof.
  intros Hs Hhi. pose proof whole_positive as Hpos.
  assert (Hle : inject_Z (index s * n) <= start s).
  { eapply Qle_trans; [|exact (proj1 (start_in_window s))].
    rewrite inject_Z_mult. apply Qle_lteq. right.
    apply Qmult_comp; [reflexivity|symmetry; exact interval_whole]. }
  pose proof (index_nonneg s (proj1 Hs)) as Hz.
  assert (Hub : (index s * n < 4294967295)%Z).
  { rewrite Zlt_Qlt. eapply Qle_lt_trans; [exact Hle|exact Hhi]. }
  rewrite (intervalStart_exact s Hs). unfold isArrayIndex, inject_Z.
  cbn [Qnum Qden]. rewrite Pos.eqb_refl. cbn [andb].
  apply andb_true_iff. split; [apply Z.leb_le; nia|now apply Z.ltb_lt].
Qed.

(** With starts that are doubles from 0 to below 2^32 - 1 the buckets come
    out in strictly ascending order of bucket index. *)
Lemma buckets_ascending (segments : list TimestampedTextSegment) :
  (forall s, In s segments -> exactStart s) ->
  (forall s, In s segments -> start s < 4294967295) ->
  StronglySorted Z.lt (map index (bucketedSegments interval segments)).
Proof.
  intros Hall Hhi. rewrite bucketedSegments_spec, map_map.
  apply StronglySorted_map_in with (R := Qlt).
  - intros x y Hx Hy Hlt.
    apply In_enumerationOrder, firstKeys_are_keys in Hx as (sx & Hsx & <-).
    apply In_enumerationOrder, firstKeys_are_keys in Hy as (sy & Hsy & <-).
    rewrite !index_bucketFor by assumption.
    apply index_lt_of_key_lt; auto.
  - apply enumerationOrder_ascending. intros s Hs.
    apply whole_interval_index_key; auto.
Qed.

End Buckets.

(** C4, as stated, at concrete segments: with an interval of two and a
    half seconds the segments starting at 3 and at 6 fall into the buckets
    1 and 2, whose keys are 2.5 and 5; the object enumerates the key 5, an
    array index, before the key 2.5, and the bucket 2 is rendered first. *)
Lemma buckets_not_in_ascending_order :
  bucketedSegments (5 # 2) segmentsTwoBuckets
  = [mkSegment 6 7 "b"; mkSegment 3 4 "a"]
  /\ segmentsToTimestampedString utc (fun _ pattern => pattern) segmentsTwoBuckets
       "auto" (5 # 2)
     = "00:06 - 00:07: b" ++ LF ++ "00:03 - 00:04: a" ++ LF
  /\ map (bucketIndex (5 # 2)) (bucketedSegments (5 # 2) segmentsTwoBuckets)
     = [2%Z; 1%Z]
  /\ ~ (forall interval segments,
           0 < interval ->
           StronglySorted Z.le
             (map (bucketIndex interval) (bucketedSegments interval segments))).
Proof.
  split; [vm_compute; reflexivity|]. split; [vm_compute; reflexivity|].
  split; [vm_compute; reflexivity|].
  intros H. specialize (H (5 # 2) segmentsTwoBuckets eq_refl).
  assert (E : map (bucketIndex (5 # 2)) (bucketedSegments (5 # 2) segmentsTwoBuckets)
              = [2%Z; 1%Z]) by (vm_compute; reflexivity).
  rewrite E in H.
  inversion H as [|? ? _ Hall]; subst.
  inversion Hall as [|? ? Hle _]; subst. lia.
Qed.

(** The quotient is rounded before its floor is taken.  With the doubles
    nearest to 0.8 and to 0.9 as starts and the double nearest to 0.1 as
    interval, the quotients are below 9 and their floors are 8; the second
    quotient rounds to 9, and the segments get the keys 0.8 and 0.9: two
    buckets. *)
Lemma rounded_quotient_decides_the_bucket :
  map (bucketIndex doubleTenth) segmentsTenths = [8%Z; 8%Z]
  /\ map (fun s => Qfloor (binary64 (start s / doubleTenth))) segmentsTenths
     = [8%Z; 9%Z]
  /\ map (intervalStart doubleTenth) segmentsTenths
     = [Qred (binary64 (8 # 10)); Qred (binary64 (9 # 10))]
  /\ bucketedSegments doubleTenth segmentsTenths = segmentsTenths.
Proof. repeat split; vm_compute; reflexivity. Qed.

(** C4, amended.  For a positive interval the renderer writes one line per
    bucket.  A segment belongs to the bucket of its key, which is
    [Math.floor(start / interval) * interval] as the doubles compute it;
    there is one bucket for each key met; the start of a bucket is that of
    its first member, its end the largest end among its members, its text
    their texts joined without separator in the order met, trimmed.  The
    buckets come in the order the object enumerates its keys: those that
    are integers from 0 to 2^32 - 2 in ascending order, then the others in
    the order first met; they are in ascending order of key whenever every
    key is such an integer.  When the interval is a whole number and the
    starts are doubles from 0 to below 2^53, rounding does not show: the
    key of a segment is [floor(start / interval)] times the interval, a
    segment belongs to the bucket [floor(start / interval)], in whose
    window its start lies, and with every start below 2^32 - 1 the buckets
    come in ascending order of bucket index. *)
Theorem buckets_by_floor_in_enumeration_order :
  forall (tz : TimeZone) (formatOther : Z -> string -> string)
         (segments : list TimestampedTextSegment) (timestampFormat : string)
         (interval : Q),
    0 < interval ->
    let formatToUse :=
      if String.eqb timestampFormat "auto" then autoFormat segments
      else timestampFormat in
    segmentsToTimestampedString tz formatOther segments timestampFormat interval
    = join ""
        (map (segment_string tz formatOther formatToUse)
           (bucketedSegments interval segments))
    /\ bucketedSegments interval segments
       = map (bucketFor interval segments)
           (enumerationOrder (firstKeys interval segments))
    /\ (forall s m,
           In m (members interval segments (intervalStart interval s))
           <-> In m segments
               /\ intervalStart interval m = intervalStart interval s)
    /\ (forall s, In s segments ->
                  In (intervalStart interval s) (firstKeys interval segments))
    /\ NoDupA Qeq (firstKeys interval segments)
    /\ (forall k,
           In k (firstKeys interval segments) ->
           exists first rest,
             members interval segments k = first :: rest
             /\ start (bucketFor interval segments k) = start first
             /\ (forall m, In m (first :: rest) ->
                           end_ m <= end_ (bucketFor interval segments k))
             /\ (exists m, In m (first :: rest)
                           /\ end_ (bucketFor interval segments k) = end_ m)
             /\ text (bucketFor interval segments k)
                = trim (join "" (map text (first :: rest)))
             /\ trim (text (bucketFor interval segments k))
                = text (bucketFor interval segments k))
    /\ StronglySorted Qlt
         (sortBy (fun k => k)
            (filter isArrayIndex (firstKeys interval segments)))
    /\ ((forall s, In s segments ->
                   isArrayIndex (intervalStart interval s) = true) ->
        StronglySorted Qlt
          (map (intervalStart interval) (bucketedSegments interval segments)))
    /\ (forall n,
           interval == inject_Z n ->
           (forall s, In s segments -> exactStart s) ->
           (forall s, In s segments ->
              intervalStart interval s
              = inject_Z (bucketIndex interval s * n)
              /\ inject_Z (bucketIndex interval s) * interval <= start s
              /\ start s < inject_Z (bucketIndex interval s + 1) * interval)
           /\ (forall s m,
                  In s segments ->
                  In m (members interval segments (intervalStart interval s))
                  <-> In m segments
                      /\ bucketIndex interval m = bucketIndex interval s)
           /\ (forall s, In s segments ->
                  bucketIndex interval
                    (bucketFor interval segments (intervalStart interval s))
                  = bucketIndex interval s)
           /\ ((forall s, In s segments -> start s < 4294967295) ->
               StronglySorted Z.lt
                 (map (bucketIndex interval)
                    (bucketedSegments interval segments)))).
Proof.
  intros tz formatOther segments timestampFormat interval Hpos formatToUse.
  repeat match goal with |- _ /\ _ => split end.
  - unfold segmentsToTimestampedString. fold formatToUse.
    apply Qltb_true_iff in Hpos. rewrite Hpos. apply renderSegments_lines.
  - apply bucketedSegments_spec.
  - intros s m. apply members_same_key.
  - intros s. apply key_in_firstKeys.
  - apply firstKeys_distinct.
  - intros k Hk.
    destruct (bucketFor_contents interval segments k Hk)
      as (first & rest & Hm & Hs & Hle & Hex & Ht).
    exists first, rest. repeat split; try assumption.
    rewrite Ht. apply trim_idempotent.
  - apply index_keys_ascending.
  - apply buckets_ascending_by_key.
  - intros n Hn Hall.
    repeat match goal with |- _ /\ _ => split end.
    + intros s Hs. split; [|now apply start_in_window].
      apply intervalStart_exact; auto.
    + intros s m Hs. apply members_same_index with (n := n); auto.
    + intros s Hs. apply index_bucketFor with (n := n); auto.
    + intros Hhi. apply buckets_ascending with (n := n); auto.
Qed.

Lemma buckets_by_floor_in_enumeration_order_witness :
  0 < 10
  /\ (10 == inject_Z 10)
  /\ StronglySorted Z.lt
       (map (bucketIndex 10)
          (bucketedSegments 10
             [mkSegment 12 15 " b"; mkSegment (7 # 2) 4 "a ";
              mkSegment 16 30 "c"]))
  /\ bucketedSegments 10
       [mkSegment 12 15 " b"; mkSegment (7 # 2) 4 "a "; mkSegment 16 30 "c"]
     = [mkSegment (7 # 2) 4 "a"; mkSegment 12 30 "bc"]
  /\ 0 < doubleTenth
  /\ bucketedSegments doubleTenth segmentsTenths
     = map (bucketFor doubleTenth segmentsTenths)
         (enumerationOrder (firstKeys doubleTenth segmentsTenths)).
Proof.
  split; [reflexivity|]. split; [reflexivity|]. split; [|split; [|split]].
  - destruct (buckets_by_floor_in_enumeration_order utc
                (fun _ pattern => pattern)
                [mkSegment 12 15 " b"; mkSegment (7 # 2) 4 "a ";
                 mkSegment 16 30 "c"]
                "auto" 10 eq_refl) as (_ & _ & _ & _ & _ & _ & _ & _ & H).
    refine (proj2 (proj2 (proj2 (H 10%Z _ _))) _).
    + reflexivity.
    + intros s [<-|[<-|[<-|[]]]]; repeat split;
        solve [vm_compute; reflexivity|discriminate].
    + intros s [<-|[<-|[<-|[]]]]; reflexivity.
  - vm_compute. reflexivity.
  - reflexivity.
  - apply (proj1 (proj2 (buckets_by_floor_in_enumeration_order utc
                           (fun _ pattern => pattern) segmentsTenths "auto"
                           doubleTenth eq_refl))).
Defined.

(** ** Backend B: the poll loop *)

Section PollLoop.

Variable tz : TimeZone.
Variable formatOther : Z -> string -> string.
Variable settings : TranscriptionSettings.

Local Abbreviation run := (runB tz formatOther settings "").

Lemma pollCallback_nonTerminal (tries : N) (transcript : TranscriptSchema) :
  nonTerminal settings transcript = true ->
  pollCallback tz formatOther settings tries transcript
  = if (MAX_TRIES <? tries)%N then PollReject TIMEOUT_MESSAGE else PollContinue.
Proof.
  unfold nonTerminal, pollCallback. intros H.
  apply andb_true_iff in H as [H H3]. apply andb_true_iff in H as [H1 H2].
  apply negb_true_iff in H1, H2, H3. now rewrite H1, H2, H3.
Qed.

Lemma pollCallback_completed (tries : N) (transcript : TranscriptSchema) :
  statusCompleted settings transcript = true ->
  pollCallback tz formatOther settings tries transcript
  = PollResolve (formatSwiftinkResults tz formatOther settings transcript).
Proof. unfold pollCallback. now intros ->. Qed.

(** Non-terminal polls keep the loop going, counting, as long as the
    counter has not passed [MAX_TRIES] when a poll is examined. *)
Lemma polls_continue (polls : list TranscriptSchema) (tries : N) :
  forallb (nonTerminal settings) polls = true ->
  (tries + N.of_nat (List.length polls) <= MAX_TRIES + 1)%N ->
  run (mkStateB (Polling tries) Pending) (map PollResponse polls)
  = mkStateB (Polling (tries + N.of_nat (List.length polls))) Pending.
Proof.
  revert tries. induction polls as [|t l IH]; intros tries Hall Hlen.
  - cbn. now rewrite N.add_0_r.
  - cbn [forallb] in Hall. apply andb_true_iff in Hall as [Ht Hl].
    cbn [List.length] in Hlen. rewrite Nat2N.inj_succ in Hlen.
    cbn [map runB fold_left]. unfold stepB at 2. cbn [phaseB promiseB].
    rewrite (pollCallback_nonTerminal tries t Ht).
    assert (E : (MAX_TRIES <? tries)%N = false) by (apply N.ltb_ge; lia).
    rewrite E. fold (run (mkStateB (Polling (tries + 1)) Pending) (map PollResponse l)).
    rewrite IH; [|exact Hl|lia].
    cbn [List.length]. rewrite Nat2N.inj_succ. f_equal. f_equal. lia.
Qed.

Lemma stepB_finished (fileName : string) (st : StateB) (ev : EventB) :
  phaseB st = Finished -> stepB tz formatOther settings fileName st ev = st.
Proof. intros H. unfold stepB. rewrite H. now destruct ev. Qed.

Lemma runB_finished (fileName : string) (st : StateB) (events : list EventB) :
  phaseB st = Finished -> runB tz formatOther settings fileName st events = st.
Proof.
  intros H. induction events as [|ev l IH]; [reflexivity|].
  cbn [runB fold_left]. rewrite stepB_finished by exact H. exact IH.
Qed.

Lemma runB_cons (fileName : string) (st : StateB) (ev : EventB)
    (events : list EventB) :
  runB tz formatOther settings fileName st (ev :: events)
  = runB tz formatOther settings fileName
      (stepB tz formatOther settings fileName st ev) events.
Proof. reflexivity. Qed.

Lemma stepB_poll (fileName : string) (tries : N) (p : Promise string)
    (transcript : TranscriptSchema) :
  stepB tz formatOther settings fileName (mkStateB (Polling tries) p)
    (PollResponse transcript)
  = match pollCallback tz formatOther settings tries transcript with
    | PollResolve value => finishB (resolve value p)
    | PollReject msg => finishB (reject (Message msg) p)
    | PollContinue => mkStateB (Polling (tries + 1)) p
    end.
Proof. reflexivity. Qed.

Lemma run_app (st : StateB) (events events' : list EventB) :
  run st (events ++ events') = run (run st events) events'.
Proof. unfold runB. apply fold_left_app. Qed.

End PollLoop.

(** C1.  What the poll loop does, against the cap of 100 attempts the
    claim states: the callback tests [tries > MAX_TRIES] with [tries]
    counting the polls before the current one, so a 101st poll that is
    still not terminal leaves the promise pending and the interval running,
    and the timeout rejection comes with the 102nd.  A poll whose status is
    completed, after 99 (or up to 101) polls that are not terminal,
    resolves with the formatted transcript. *)
Theorem timeout_at_poll_102 :
  forall (tz : TimeZone) (formatOther : Z -> string -> string)
         (settings : TranscriptionSettings) (polls : list TranscriptSchema),
    forallb (nonTerminal settings) polls = true ->
    ((List.length polls <= 101)%nat ->
     pollLoop tz formatOther settings polls
     = mkStateB (Polling (N.of_nat (List.length polls))) Pending)
    /\ (List.length polls = 102%nat ->
        pollLoop tz formatOther settings polls
        = mkStateB Finished (Rejected (Message TIMEOUT_MESSAGE)))
    /\ (forall transcript,
           (List.length polls <= 101)%nat ->
           statusCompleted settings transcript = true ->
           pollLoop tz formatOther settings (polls ++ [transcript])
           = mkStateB Finished
               (Resolved (formatSwiftinkResults tz formatOther settings transcript))).
Proof.
  intros tz formatOther settings polls Hall.
  assert (Hrun : forall l, forallb (nonTerminal settings) l = true ->
                 (List.length l <= 101)%nat ->
                 pollLoop tz formatOther settings l
                 = mkStateB (Polling (N.of_nat (List.length l))) Pending).
  { intros l Hl Hlen. unfold pollLoop.
    rewrite polls_continue; [reflexivity|exact Hl|unfold MAX_TRIES; lia]. }
  split; [|split].
  - now apply Hrun.
  - intros Hlen.
    destruct (exists_last (l := polls)) as (l & t & ->);
      [intros ->; discriminate Hlen|].
    rewrite forallb_app in Hall. apply andb_true_iff in Hall as [Hl Ht].
    cbn [forallb] in Ht. rewrite andb_true_r in Ht.
    rewrite length_app in Hlen. cbn [List.length] in Hlen.
    assert (Hl101 : List.length l = 101%nat) by lia.
    unfold pollLoop. rewrite map_app, run_app.
    fold (pollLoop tz formatOther settings l).
    rewrite (Hrun l Hl) by lia. rewrite Hl101.
    cbn [map runB fold_left]. unfold stepB. cbn [phaseB promiseB].
    rewrite (pollCallback_nonTerminal _ _ _ _ _ Ht). reflexivity.
  - intros transcript Hlen Hc.
    unfold pollLoop. rewrite map_app, run_app.
    fold (pollLoop tz formatOther settings polls).
    rewrite (Hrun polls Hall Hlen).
    cbn [map runB fold_left]. unfold stepB. cbn [phaseB promiseB].
    rewrite (pollCallback_completed _ _ _ _ _ Hc). reflexivity.
Qed.

Lemma timeout_at_poll_102_witness :
  pollLoop utc (fun _ pattern => pattern) settingsAllOff
    (repeat (transcriptWithStatus "transcribing") 101)
  = mkStateB (Polling 101) Pending
  /\ pollLoop utc (fun _ pattern => pattern) settingsAllOff
       (repeat (transcriptWithStatus "transcribing") 102)
     = mkStateB Finished (Rejected (Message TIMEOUT_MESSAGE))
  /\ pollLoop utc (fun _ pattern => pattern) settingsAllOff
       (repeat (transcriptWithStatus "transcribing") 99
        ++ [transcriptWithStatus "complete"])
     = mkStateB Finished (Resolved ("## Transcript" ++ LF ++ "hello" ++ LF)).
Proof.
  split; [|split].
  - apply (proj1 (timeout_at_poll_102 utc (fun _ pattern => pattern) settingsAllOff
                    (repeat (transcriptWithStatus "transcribing") 101) eq_refl)).
    rewrite repeat_length. apply le_n.
  - apply (proj1 (proj2 (timeout_at_poll_102 utc (fun _ pattern => pattern)
                           settingsAllOff
                           (repeat (transcriptWithStatus "transcribing") 102)
                           eq_refl))).
    apply repeat_length.
  - apply (proj2 (proj2 (timeout_at_poll_102 utc (fun _ pattern => pattern)
                           settingsAllOff
                           (repeat (transcriptWithStatus "transcribing") 99)
                           eq_refl)) (transcriptWithStatus "complete")).
    + rewrite repeat_length. repeat constructor.
    + reflexivity.
Defined.

(** ** Backend B: the completed statuses *)






(** ** Backend A *)

(** Without an interval and without a query under way, only the end of the
    create response changes the state. *)
Lemma stepA_idle (st : StateA) (ev : EventA) :
  intervalID st = None -> outstanding st = 0%nat ->
  created st = true \/ notCreateResponse ev = true ->
  stepA st ev = st.
Proof.
  intros Hi Ho Hc. destruct ev; cbn [stepA]; try reflexivity.
  - destruct Hc as [Hc|Hc]; [now rewrite Hc|discriminate Hc].
  - now rewrite Hi.
  - now rewrite Ho.
  - now rewrite Ho.
Qed.

Lemma runA_idle (st : StateA) (events : list EventA) :
  intervalID st = None -> outstanding st = 0%nat ->
  created st = true \/ forallb notCreateResponse events = true ->
  runA st events = st.
Proof.
  intros Hi Ho Hc. induction events as [|ev l IH]; [reflexivity|].
  cbn [runA fold_left]. rewrite stepA_idle; [|exact Hi|exact Ho|].
  - apply IH. destruct Hc as [Hc|Hc]; [now left|right].
    cbn [forallb] in Hc. now apply andb_true_iff in Hc.
  - destruct Hc as [Hc|Hc]; [now left|right].
    cbn [forallb] in Hc. now apply andb_true_iff in Hc.
Qed.

(** While the interval is set, each firing issues one more query for its
    task. *)
Lemma runA_firings (task : option string) (n : nat) (st : StateA) :
  intervalID st = Some task ->
  runA st (repeat IntervalFires n)
  = mkStateA (promiseA st) (created st) (Some task)
      (queries st ++ repeat (queryPath task) n) (outstanding st + n).
Proof.
  revert st. induction n as [|n IH]; intros st Hi.
  - cbn. rewrite app_nil_r, Nat.add_0_r, <- Hi. now destruct st.
  - cbn [repeat runA fold_left]. cbn [stepA]. rewrite Hi.
    fold (runA (mkStateA (promiseA st) (created st) (Some task)
                  (queries st ++ [queryPath task]) (S (outstanding st)))
               (repeat IntervalFires n)).
    rewrite IH by reflexivity. cbn [promiseA created queries outstanding].
    rewrite <- app_assoc. cbn [app]. f_equal. lia.
Qed.

(** C9.  A create response with code 10000 and a task identifier leaves the
    promise pending and sets the interval, each firing of which issues a
    query request for that task; a create response with another code
    rejects the promise with the message of the response and sets no
    interval, so that whatever happens afterwards no query request is
    issued and the rejection stands. *)
Theorem create_response_starts_polling_or_rejects :
  forall (response : CreateResponse),
    (forall task,
        code response = 10000%Z -> taskId response = Some task ->
        let st := stepA initA (CreateResponseEnd response) in
        promiseA st = Pending
        /\ intervalID st = Some (Some task)
        /\ forall n,
            queries (runA st (repeat IntervalFires n))
            = repeat ("/asr/file/v1/query?taskId=" ++ task ++ "&resultType=1") n)
    /\ (code response <> 10000%Z ->
        let st := stepA initA (CreateResponseEnd response) in
        promiseA st = Rejected (Message (msg response))
        /\ intervalID st = None
        /\ forall events,
            queries (runA st events) = []
            /\ promiseA (runA st events) = Rejected (Message (msg response))).
Proof.
  intros response. split.
  - intros task Hc Ht st. subst st. cbn [stepA initA created].
    apply Z.eqb_eq in Hc. rewrite Hc, Ht. cbn [promiseA intervalID].
    split; [reflexivity|]. split; [reflexivity|].
    intros n. rewrite (runA_firings (Some task)) by reflexivity. reflexivity.
  - intros Hc st. subst st. cbn [stepA initA created].
    apply Z.eqb_neq in Hc. rewrite Hc. cbn [promiseA intervalID reject].
    split; [reflexivity|]. split; [reflexivity|].
    intros events. rewrite runA_idle; [split; reflexivity|reflexivity|reflexivity|].
    now left.
Qed.

Lemma create_response_starts_polling_or_rejects_witness :
  queries
    (runA (stepA initA (CreateResponseEnd (mkCreateResponse 10000 (Some "task7") "")))
       (repeat IntervalFires 2))
  = ["/asr/file/v1/query?taskId=task7&resultType=1";
     "/asr/file/v1/query?taskId=task7&resultType=1"]
  /\ promiseA
       (runA (stepA initA
                (CreateResponseEnd (mkCreateResponse 10001 None "invalid key")))
          [IntervalFires; QueryResponseEnd (mkQueryResponse 11000 ["a"] "")])
     = Rejected (Message "invalid key").
Proof.
  split.
  - apply (proj2 (proj2 (proj1 (create_response_starts_polling_or_rejects
             (mkCreateResponse 10000 (Some "task7") "")) "task7" eq_refl eq_refl))).
  - apply (proj2 (proj2 (proj2 (proj2 (create_response_starts_polling_or_rejects
             (mkCreateResponse 10001 None "invalid key")) ltac:(discriminate)))
             [IntervalFires; QueryResponseEnd (mkQueryResponse 11000 ["a"] "")])).
Defined.

(** C3.  Two failures that settle nothing, against the claim that every
    failure rejects.  The error handler of the create request of Backend A
    only logs: after a transport error there, and whatever follows short of
    a create response, the promise stays pending (the error handler of a
    query request does reject).  The upload of Backend B is given no error
    handler and its promise no way to reject: after a failed upload the
    state is what it was, the promise pending, and the handler written
    for a rejected upload is never entered (a failed create request does
    reject).  A poll request that fails is dropped in the same way. *)
Theorem transport_errors_leave_promise_pending :
  (forall error events,
      forallb notCreateResponse events = true ->
      runA initA (CreateRequestError error :: events) = initA
      /\ getTranscription
           (promiseA (runA initA (CreateRequestError error :: events)))
         = Pending)
  /\ (forall st error,
         promiseA st = Pending -> (0 < outstanding st)%nat ->
         promiseA (stepA st (QueryRequestError error))
         = Rejected (ErrorObject error))
  /\ (forall tz formatOther settings fileName session error,
         let st :=
           runB tz formatOther settings fileName initB
             [SessionResult (Some session); ReadOk] in
         phaseB st = Uploading (user_id session ++ "/" ++ sanitizeName fileName)
         /\ stepB tz formatOther settings fileName st (UploadError error) = st
         /\ getTranscription
              (promiseB (stepB tz formatOther settings fileName st (UploadError error)))
            = Pending)
  /\ (forall ev reason, uploadPromiseAfter ev <> Rejected reason)
  /\ (forall tz formatOther settings fileName session error,
         promiseB
           (runB tz formatOther settings fileName initB
              [SessionResult (Some session); ReadOk; UploadSuccess;
               CreateFailed error])
         = Rejected (ErrorObject error))
  /\ (forall tz formatOther settings fileName tries error,
         stepB tz formatOther settings fileName (mkStateB (Polling tries) Pending)
           (PollFailed error)
         = mkStateB (Polling tries) Pending).
Proof.
  split; [|split; [|split; [|split; [|split]]]].
  - intros error events Hev.
    assert (H : runA initA (CreateRequestError error :: events) = initA).
    { apply runA_idle; [reflexivity|reflexivity|now right]. }
    rewrite H. split; reflexivity.
  - intros st error Hp Ho. cbn [stepA].
    destruct (outstanding st); [lia|].
    cbn [clearInterval settleA answered promiseA]. now rewrite Hp.
  - intros. cbn. repeat split.
  - intros ev reason. destruct ev; discriminate.
  - reflexivity.
  - reflexivity.
Qed.

Lemma transport_errors_leave_promise_pending_witness :
  getTranscription
    (promiseA
       (runA initA
          [CreateRequestError "ECONNRESET"; IntervalFires;
           QueryResponseEnd (mkQueryResponse 11000 ["a"] "")]))
  = Pending
  /\ promiseA
       (stepA (runA initA
                 [CreateResponseEnd (mkCreateResponse 10000 (Some "task7") "");
                  IntervalFires])
          (QueryRequestError "ECONNRESET"))
     = Rejected (ErrorObject "ECONNRESET").
Proof.
  split.
  - apply (proj1 transport_errors_leave_promise_pending "ECONNRESET"
             [IntervalFires; QueryResponseEnd (mkQueryResponse 11000 ["a"] "")]
             eq_refl).
  - apply (proj1 (proj2 transport_errors_leave_promise_pending)).
    + reflexivity.
    + cbn. lia.
Defined.

(* ================================================================== *)
(** * Part III: further properties *)
(* ================================================================== *)

(** ** Time stamps *)



Lemma newDate_whole_seconds (q : Q) :
  0 <= q -> (newDate (q * 1000) / 1000)%Z = Qfloor q.
Proof.
  destruct q as [a b]. unfold Qle, newDate, Qmult, Qfloor. cbn [Qnum Qden].
  intros H. rewrite Pos.mul_1_r.
  rewrite Z.quot_div_nonneg by lia.
  rewrite Z.div_div by lia. apply Z.div_mul_cancel_r; lia.
Qed.

Lemma newDate_inject_Z (n : Z) : newDate (inject_Z n * 1000) = (n * 1000)%Z.
Proof. unfold newDate, Qmult, inject_Z. cbn [Qnum Qden]. apply Z.quot_1_r. Qed.

Lemma fields_by_whole_seconds (d : Z) :
  secondsOf d = ((d / 1000) mod 60)%Z
  /\ minutesOf d = ((d / 1000 / 60) mod 60)%Z
  /\ hoursOf d = ((d / 1000 / 3600) mod 24)%Z.
Proof.
  unfold secondsOf, minutesOf, hoursOf.
  rewrite !Z.div_div by lia. repeat split.
Qed.

Lemma format_by_whole_seconds formatOther (d d' : Z) (pattern : string) :
  (d / 1000 = d' / 1000)%Z ->
  pattern = "mm:ss" \/ pattern = "HH:mm:ss" ->
  format utc formatOther d pattern = format utc formatOther d' pattern.
Proof.
  intros H Hp. unfold format. rewrite !localTime_utc.
  destruct (fields_by_whole_seconds d) as (-> & -> & ->).
  destruct (fields_by_whole_seconds d') as (-> & -> & ->).
  rewrite H. destruct Hp as [->| ->]; reflexivity.
Qed.

(** X2.  Under the two patterns of the automatic choice a stamp shows
    whole seconds, the fraction dropped: a time that is not negative is
    stamped as its integer part. *)
Theorem stamps_drop_the_fraction :
  forall (tz : TimeZone) (formatOther : Z -> string -> string) (pattern : string)
         (seconds : Q),
    0 <= seconds ->
    pattern = "mm:ss" \/ pattern = "HH:mm:ss" ->
    stamp tz formatOther pattern seconds
    = stamp tz formatOther pattern (inject_Z (Qfloor seconds)).
Proof.
  intros tz formatOther pattern seconds Hs Hp.
  rewrite !stamp_elapsed. apply format_by_whole_seconds; [|exact Hp].
  rewrite !Z.div_add by lia.
  rewrite newDate_whole_seconds by exact Hs.
  rewrite newDate_inject_Z. now rewrite Z.div_mul by lia.
Qed.

Lemma stamps_drop_the_fraction_witness :
  stamp (mkTimeZone 60 3600) (fun _ pattern => pattern) "mm:ss" (659 # 10) = "01:05".
Proof.
  rewrite (stamps_drop_the_fraction (mkTimeZone 60 3600) (fun _ pattern => pattern) "mm:ss"
             (659 # 10));
    [reflexivity|discriminate|now left].
Defined.

(** The fields of a stamp are those of the whole seconds elapsed, moved by
    the seconds the reported offset misses. *)
Lemma stamp_of_whole_seconds tz formatOther (seconds : Q) :
  0 <= seconds ->
  let x := (Qfloor seconds + zoneShift tz)%Z in
  stamp tz formatOther "mm:ss" seconds
  = pad2 ((x / 60) mod 60) ++ ":" ++ pad2 (x mod 60)
  /\ stamp tz formatOther "HH:mm:ss" seconds
     = pad2 ((x / 3600) mod 24) ++ ":"
       ++ pad2 ((x / 60) mod 60) ++ ":"
       ++ pad2 (x mod 60).
Proof.
  intros H x. rewrite !stamp_elapsed. unfold format.
  rewrite !localTime_utc.
  destruct (fields_by_whole_seconds
              (newDate (seconds * 1000) + zoneShift tz * 1000)) as (-> & -> & ->).
  rewrite Z.div_add by lia.
  rewrite (newDate_whole_seconds seconds H). split; reflexivity.
Qed.

(** A shift of the clock keeps whole seconds apart: below one hour the
    minutes and seconds shown, and below one day the hours, minutes and
    seconds shown, determine the time. *)
Lemma shifted_fields_injective_hour (a b c : Z) :
  (0 <= a < 3600)%Z -> (0 <= b < 3600)%Z ->
  (((a + c) / 60) mod 60 = ((b + c) / 60) mod 60)%Z ->
  ((a + c) mod 60 = (b + c) mod 60)%Z ->
  a = b.
Proof.
  intros Ha Hb Hm Hs.
  pose proof (Z.div_mod (a + c) 60 ltac:(lia)) as Ea.
  pose proof (Z.div_mod (b + c) 60 ltac:(lia)) as Eb.
  pose proof (Z.div_mod ((a + c) / 60) 60 ltac:(lia)) as Ea'.
  pose proof (Z.div_mod ((b + c) / 60) 60 ltac:(lia)) as Eb'.
  rewrite Hs in Ea. rewrite Hm in Ea'. lia.
Qed.

Lemma shifted_fields_injective_day (a b c : Z) :
  (0 <= a < 86400)%Z -> (0 <= b < 86400)%Z ->
  (((a + c) / 3600) mod 24 = ((b + c) / 3600) mod 24)%Z ->
  (((a + c) / 60) mod 60 = ((b + c) / 60) mod 60)%Z ->
  ((a + c) mod 60 = (b + c) mod 60)%Z ->
  a = b.
Proof.
  intros Ha Hb Hh Hm Hs.
  replace 3600%Z with (60 * 60)%Z in Hh by reflexivity.
  rewrite <- !Z.div_div in Hh by lia.
  pose proof (Z.div_mod (a + c) 60 ltac:(lia)) as Ea.
  pose proof (Z.div_mod (b + c) 60 ltac:(lia)) as Eb.
  pose proof (Z.div_mod ((a + c) / 60) 60 ltac:(lia)) as Ea'.
  pose proof (Z.div_mod ((b + c) / 60) 60 ltac:(lia)) as Eb'.
  pose proof (Z.div_mod ((a + c) / 60 / 60) 24 ltac:(lia)) as Ea''.
  pose proof (Z.div_mod ((b + c) / 60 / 60) 24 ltac:(lia)) as Eb''.
  rewrite Hs in Ea. rewrite Hm in Ea'. rewrite Hh in Ea''. lia.
Qed.

Lemma digit_injective (a b : Z) :
  (0 <= a < 10)%Z -> (0 <= b < 10)%Z -> digit a = digit b -> a = b.
Proof.
  intros Ha Hb H. unfold digit in H.
  apply (f_equal N_of_ascii) in H.
  rewrite !N_ascii_embedding in H by lia. lia.
Qed.

Lemma pad2_injective (a b : Z) :
  (0 <= a < 100)%Z -> (0 <= b < 100)%Z -> pad2 a = pad2 b -> a = b.
Proof.
  intros Ha Hb H. unfold pad2 in H. injection H as H1 H2.
  apply digit_injective in H1;
    [|split; [apply Z.div_pos; lia|apply Z.div_lt_upper_bound; lia]
     |split; [apply Z.div_pos; lia|apply Z.div_lt_upper_bound; lia]].
  apply digit_injective in H2; [|apply Z.mod_pos_bound; lia|apply Z.mod_pos_bound; lia].
  rewrite (Z.div_mod a 10), (Z.div_mod b 10) by lia. now rewrite H1, H2.
Qed.

Lemma pad2_append_injective (a b : Z) (r r' : string) :
  pad2 a ++ r = pad2 b ++ r' -> pad2 a = pad2 b /\ r = r'.
Proof.
  unfold pad2. cbn [append]. intros H. injection H as H1 H2 H3.
  now rewrite H1, H2, H3.
Qed.

Lemma Qfloor_bounds (q : Q) (n : Z) :
  0 <= q -> q < inject_Z n -> (0 <= Qfloor q < n)%Z.
Proof.
  intros Hlo Hhi. split.
  - rewrite <- (Qfloor_Z 0). now apply Qfloor_resp_le.
  - rewrite Zlt_Qlt. eapply Qle_lt_trans; [apply Qfloor_le|exact Hhi].
Qed.

Lemma colon_append_injective (r r' : string) : ":" ++ r = ":" ++ r' -> r = r'.
Proof. cbn [append]. intros H. now injection H. Qed.

Lemma pad2_mod_injective (a b m : Z) :
  (0 < m <= 100)%Z -> pad2 (a mod m) = pad2 (b mod m) -> (a mod m = b mod m)%Z.
Proof.
  intros Hm H. pose proof (Z.mod_pos_bound a m). pose proof (Z.mod_pos_bound b m).
  apply pad2_injective; [lia|lia|exact H].
Qed.

(** X3.  Below the thresholds the stamps tell whole seconds apart: two
    times from 0 to below one hour with the same ["mm:ss"] stamp, or from
    0 to below one day with the same ["HH:mm:ss"] stamp, have the same
    integer part. *)
Theorem stamps_tell_seconds_apart :
  forall (tz : TimeZone) (formatOther : Z -> string -> string) (p q : Q),
    0 <= p -> 0 <= q ->
    (p < 3600 -> q < 3600 ->
     stamp tz formatOther "mm:ss" p = stamp tz formatOther "mm:ss" q ->
     Qfloor p = Qfloor q)
    /\ (p < 86400 -> q < 86400 ->
        stamp tz formatOther "HH:mm:ss" p = stamp tz formatOther "HH:mm:ss" q ->
        Qfloor p = Qfloor q).
Proof.
  intros tz formatOther p q Hp Hq.
  destruct (stamp_of_whole_seconds tz formatOther p Hp) as [Ep Ep'].
  destruct (stamp_of_whole_seconds tz formatOther q Hq) as [Eq Eq'].
  cbv zeta in Ep, Ep', Eq, Eq'.
  split; intros Hp' Hq' H.
  - rewrite Ep, Eq in H.
    pose proof (Qfloor_bounds p 3600 Hp Hp') as Bp.
    pose proof (Qfloor_bounds q 3600 Hq Hq') as Bq.
    apply pad2_append_injective in H as [Hm H].
    apply colon_append_injective in H.
    apply pad2_mod_injective in Hm; [|lia].
    apply pad2_mod_injective in H; [|lia].
    exact (shifted_fields_injective_hour _ _ _ Bp Bq Hm H).
  - rewrite Ep', Eq' in H.
    pose proof (Qfloor_bounds p 86400 Hp Hp') as Bp.
    pose proof (Qfloor_bounds q 86400 Hq Hq') as Bq.
    apply pad2_append_injective in H as [Hh H].
    apply colon_append_injective in H.
    apply pad2_append_injective in H as [Hm H].
    apply colon_append_injective in H.
    apply pad2_mod_injective in Hh; [|lia].
    apply pad2_mod_injective in Hm; [|lia].
    apply pad2_mod_injective in H; [|lia].
    exact (shifted_fields_injective_day _ _ _ Bp Bq Hh Hm H).
Qed.

Lemma stamps_tell_seconds_apart_witness :
  stamp utc (fun _ pattern => pattern) "mm:ss" 65
  = stamp utc (fun _ pattern => pattern) "mm:ss" (131 # 2)
  /\ Qfloor 65 = Qfloor (131 # 2).
Proof.
  split; [reflexivity|].
  apply (proj1 (stamps_tell_seconds_apart utc (fun _ pattern => pattern)
                  65 (131 # 2) ltac:(discriminate) ltac:(discriminate)));
    reflexivity.
Defined.

Lemma Qfloor_add_whole (q : Q) (n : Z) :
  Qfloor (q + inject_Z n) = (Qfloor q + n)%Z.
Proof.
  destruct q as [a b]. unfold Qplus, inject_Z, Qfloor. cbn [Qnum Qden].
  rewrite Pos.mul_1_r, Z.mul_1_r. apply Z.div_add. discriminate.
Qed.

Lemma fields_after_an_hour (x : Z) :
  (((x + 3600) / 60) mod 60 = (x / 60) mod 60
   /\ (x + 3600) mod 60 = x mod 60)%Z.
Proof.
  replace (x + 3600)%Z with (x + 60 * 60)%Z by lia. split.
  - rewrite Z.div_add by lia.
    replace (x / 60 + 60)%Z with (x / 60 + 1 * 60)%Z by lia.
    apply Z.mod_add. lia.
  - apply Z.mod_add. lia.
Qed.

Lemma fields_after_a_day (x : Z) :
  (((x + 86400) / 3600) mod 24 = (x / 3600) mod 24
   /\ ((x + 86400) / 60) mod 60 = (x / 60) mod 60
   /\ (x + 86400) mod 60 = x mod 60)%Z.
Proof.
  repeat split.
  - replace (x + 86400)%Z with (x + 24 * 3600)%Z by lia.
    rewrite Z.div_add by lia.
    replace (x / 3600 + 24)%Z with (x / 3600 + 1 * 24)%Z by lia.
    apply Z.mod_add. lia.
  - replace (x + 86400)%Z with (x + 1440 * 60)%Z by lia.
    rewrite Z.div_add by lia.
    replace (x / 60 + 1440)%Z with (x / 60 + 24 * 60)%Z by lia.
    apply Z.mod_add. lia.
  - replace (x + 86400)%Z with (x + 1440 * 60)%Z by lia.
    apply Z.mod_add. lia.
Qed.

(** X4.  Stamps wrap around: under ["mm:ss"] the hours are not shown, so a
    time and the time one hour later get the same stamp, and under
    ["HH:mm:ss"] so do a time and the time one day later. *)
Theorem stamps_wrap_around :
  forall (tz : TimeZone) (formatOther : Z -> string -> string) (seconds : Q),
    0 <= seconds ->
    stamp tz formatOther "mm:ss" (seconds + 3600)
    = stamp tz formatOther "mm:ss" seconds
    /\ stamp tz formatOther "HH:mm:ss" (seconds + 86400)
       = stamp tz formatOther "HH:mm:ss" seconds.
Proof.
  intros tz formatOther seconds H.
  assert (H1 : 0 <= seconds + 3600).
  { apply Qle_trans with (0 + 0); [discriminate|].
    apply Qplus_le_compat; [exact H|discriminate]. }
  assert (H2 : 0 <= seconds + 86400).
  { apply Qle_trans with (0 + 0); [discriminate|].
    apply Qplus_le_compat; [exact H|discriminate]. }
  rewrite (proj1 (stamp_of_whole_seconds tz formatOther _ H1)).
  rewrite (proj2 (stamp_of_whole_seconds tz formatOther _ H2)).
  rewrite (proj1 (stamp_of_whole_seconds tz formatOther _ H)).
  rewrite (proj2 (stamp_of_whole_seconds tz formatOther _ H)).
  change 3600 with (inject_Z 3600). change 86400 with (inject_Z 86400).
  rewrite !Qfloor_add_whole.
  replace (Qfloor seconds + 3600 + zoneShift tz)%Z
    with (Qfloor seconds + zoneShift tz + 3600)%Z by lia.
  replace (Qfloor seconds + 86400 + zoneShift tz)%Z
    with (Qfloor seconds + zoneShift tz + 86400)%Z by lia.
  destruct (fields_after_an_hour (Qfloor seconds + zoneShift tz)) as (-> & ->).
  destruct (fields_after_a_day (Qfloor seconds + zoneShift tz)) as (-> & -> & ->).
  split; reflexivity.
Qed.

Lemma stamps_wrap_around_witness :
  stamp utc (fun _ pattern => pattern) "mm:ss" (65 + 3600) = "01:05".
Proof.
  rewrite (proj1 (stamps_wrap_around utc (fun _ pattern => pattern) 65
                    ltac:(discriminate))).
  reflexivity.
Defined.

(** ** Rendering, line by line *)

Lemma join_empty_app (l l' : list string) :
  join "" (l ++ l') = join "" l ++ join "" l'.
Proof.
  induction l as [|x l IH]; [reflexivity|].
  cbn [app]. now rewrite !join_empty_cons, IH, append_assoc.
Qed.

Lemma autoFormat_not_auto (segments : list TimestampedTextSegment) :
  String.eqb (autoFormat segments) "auto" = false.
Proof. unfold autoFormat. destruct (Qltb _ _); reflexivity. Qed.

(** X5.  Without bucketing the rendering of two sequences put end to end
    is the rendering of the first followed by that of the second, both
    under the pattern chosen for the whole. *)
Theorem unbucketed_rendering_concatenates :
  forall (tz : TimeZone) (formatOther : Z -> string -> string)
         (first second : list TimestampedTextSegment) (timestampFormat : string)
         (interval : Q),
    interval <= 0 ->
    let pattern :=
      if String.eqb timestampFormat "auto" then autoFormat (first ++ second)
      else timestampFormat in
    segmentsToTimestampedString tz formatOther (first ++ second) timestampFormat
      interval
    = segmentsToTimestampedString tz formatOther first pattern interval
      ++ segmentsToTimestampedString tz formatOther second pattern interval.
Proof.
  intros tz formatOther first second timestampFormat interval Hi pattern.
  assert (Hp : String.eqb pattern "auto" = false).
  { subst pattern. destruct (String.eqb timestampFormat "auto") eqn:E;
      [apply autoFormat_not_auto|exact E]. }
  unfold segmentsToTimestampedString. fold pattern.
  apply Qltb_false_iff in Hi. rewrite Hi, Hp.
  rewrite !renderSegments_lines, map_app. apply join_empty_app.
Qed.

Lemma unbucketed_rendering_concatenates_witness :
  segmentsToTimestampedString utc (fun _ pattern => pattern)
    ([mkSegment 0 65 "a"] ++ [mkSegment 70 3725 "b"]) "auto" 0
  = ("00:00:00 - 00:01:05: a" ++ LF) ++ ("00:01:10 - 01:02:05: b" ++ LF).
Proof.
  rewrite (unbucketed_rendering_concatenates utc (fun _ pattern => pattern)
             [mkSegment 0 65 "a"] [mkSegment 70 3725 "b"] "auto" 0 (Qle_refl 0)).
  reflexivity.
Defined.

Lemma lineBreakRun_zero_any (s : string) (n : nat) :
  s <> "" -> lineBreakRun 0 s = 0%nat -> lineBreakRun n s = 0%nat.
Proof.
  intros Hne H0.
  destruct (lineBreakRun n s) eqn:E; [reflexivity|].
  assert (Hpos : (0 < lineBreakRun n s)%nat) by lia.
  apply (sliceLast_LF_run s n Hne) in Hpos.
  apply (sliceLast_LF_run s 0 Hne) in Hpos. lia.
Qed.

Lemma whiteSpace_LF (c : ascii) :
  isWhiteSpace c = false -> Ascii.eqb c (ascii_of_nat 10) = false.
Proof.
  intros H. destruct (Ascii.eqb_spec c (ascii_of_nat 10)) as [->|]; [|reflexivity].
  discriminate H.
Qed.

Lemma lineBreakRun_cons (n : nat) (c : ascii) (s : string) :
  lineBreakRun n (String c s)
  = if Ascii.eqb c (ascii_of_nat 10) then lineBreakRun (S n) s
    else lineBreakRun 0 s.
Proof. reflexivity. Qed.

Lemma trimEnd_no_trailing_line_break (s : string) :
  lineBreakRun 0 (trimEnd s) = 0%nat.
Proof.
  induction s as [|c s IH]; [reflexivity|].
  cbn [trimEnd]. destruct (trimEnd s) as [|d r] eqn:E.
  - destruct (isWhiteSpace c) eqn:Hc; [reflexivity|].
    rewrite lineBreakRun_cons. now rewrite (whiteSpace_LF c Hc).
  - rewrite lineBreakRun_cons.
    destruct (Ascii.eqb c _); [|exact IH].
    apply lineBreakRun_zero_any; [discriminate|exact IH].
Qed.

(** A rendered line ends in one line break, whatever comes before it. *)
Lemma segment_string_line_break tz formatOther pattern segment (n : nat) :
  lineBreakRun n (segment_string tz formatOther pattern segment) = 1%nat.
Proof.
  rewrite segment_string_stamps, lineBreakRun_append.
  generalize (lineBreakRun n (stamp tz formatOther pattern (start segment))).
  intros k.
  change (lineBreakRun k (" - " ++ stamp tz formatOther pattern (end_ segment)
                          ++ ": " ++ trim (text segment) ++ LF))
    with (lineBreakRun 0 (stamp tz formatOther pattern (end_ segment)
                          ++ ": " ++ trim (text segment) ++ LF)).
  rewrite lineBreakRun_append.
  generalize (lineBreakRun 0 (stamp tz formatOther pattern (end_ segment))).
  intros k'.
  change (lineBreakRun k' (": " ++ trim (text segment) ++ LF))
    with (lineBreakRun 0 (trim (text segment) ++ LF)).
  rewrite lineBreakRun_append. unfold trim.
  now rewrite trimEnd_no_trailing_line_break.
Qed.

Lemma bucketedSegments_nonempty (interval : Q)
    (segments : list TimestampedTextSegment) :
  segments <> [] -> bucketedSegments interval segments <> [].
Proof.
  destruct segments as [|s l]; [congruence|]. intros _ H.
  assert (Hin : In (intervalStart interval s)
                  (enumerationOrder (firstKeys interval (s :: l)))).
  { apply In_enumerationOrder, key_in_firstKeys. now left. }
  rewrite bucketedSegments_spec in H.
  destruct (enumerationOrder _); [exact Hin|discriminate H].
Qed.

Lemma renderSegments_line_break tz formatOther pattern
    (segments : list TimestampedTextSegment) (n : nat) :
  segments <> [] ->
  lineBreakRun n (renderSegments tz formatOther pattern segments) = 1%nat.
Proof.
  intros Hne. destruct (exists_last Hne) as (l & s & ->).
  rewrite renderSegments_lines, map_app, join_empty_app.
  cbn [map]. unfold join at 2. cbn [String.concat].
  rewrite lineBreakRun_append.
  apply segment_string_line_break.
Qed.

Lemma rendering_line_break tz formatOther
    (segments : list TimestampedTextSegment) (timestampFormat : string)
    (interval : Q) (n : nat) :
  segments <> [] ->
  lineBreakRun n
    (segmentsToTimestampedString tz formatOther segments timestampFormat interval)
  = 1%nat.
Proof.
  intros Hne. unfold segmentsToTimestampedString.
  destruct (Qltb 0 interval); apply renderSegments_line_break;
    [now apply bucketedSegments_nonempty|exact Hne].
Qed.

(** X6.  For segments, bucketed or not and under any pattern, the rendering
    ends in exactly one line break. *)
Theorem rendering_ends_in_one_line_break :
  forall (tz : TimeZone) (formatOther : Z -> string -> string)
         (segments : list TimestampedTextSegment) (timestampFormat : string)
         (interval : Q),
    segments <> [] ->
    trailingLineBreaks
      (segmentsToTimestampedString tz formatOther segments timestampFormat interval)
    = 1%nat.
Proof.
  intros tz formatOther segments timestampFormat interval Hne.
  now apply rendering_line_break.
Qed.

Lemma rendering_ends_in_one_line_break_witness :
  trailingLineBreaks
    (segmentsToTimestampedString utc (fun _ pattern => pattern)
       [mkSegment 0 65 ("a" ++ LF ++ LF)] "auto" 0)
  = 1%nat.
Proof.
  apply (rendering_ends_in_one_line_break utc (fun _ pattern => pattern)
           [mkSegment 0 65 ("a" ++ LF ++ LF)] "auto" 0).
  discriminate.
Defined.

(** ** The result formatter, further *)

Lemma sliceLast_append (a b : string) : b <> "" -> sliceLast (a ++ b) = sliceLast b.
Proof.
  intros Hb. induction a as [|c a IH]; [reflexivity|].
  change (String c a ++ b) with (String c (a ++ b)).
  destruct (a ++ b) as [|d r] eqn:E.
  - destruct a; [cbn in E; congruence|discriminate E].
  - cbn [sliceLast]. exact IH.
Qed.

Lemma ends_in_line_break (s : string) (n : nat) :
  s <> "" -> lineBreakRun n s = 1%nat -> sliceLast s = LF.
Proof.
  intros Hne H. apply String.eqb_eq, (sliceLast_LF_run s n Hne). lia.
Qed.

(** X7.  The sections written by the segment renderer close themselves.
    With timestamps on, the Transcript section is its heading followed by
    the rendered segments, nothing added, and ends in exactly one line
    break.  The Outline step never has a line break added after it, and
    when the Outline section is written the text ends in exactly one. *)
Theorem rendered_sections_close_themselves :
  forall (tz : TimeZone) (formatOther : Z -> string -> string)
         (settings : TranscriptionSettings) (transcript : TranscriptSchema),
    (timestamps settings = true ->
     afterTranscript tz formatOther settings transcript
     = "## Transcript" ++ LF
       ++ segmentsToTimestampedString tz formatOther
            (tr_text_segments transcript) (timestampFormat settings) 0
     /\ trailingLineBreaks (afterTranscript tz formatOther settings transcript)
        = 1%nat)
    /\ afterOutline tz formatOther settings transcript
       = afterSummary tz formatOther settings transcript
         ++ outlineSection tz formatOther settings transcript
    /\ (outlineSection tz formatOther settings transcript <> "" ->
        trailingLineBreaks (afterOutline tz formatOther settings transcript)
        = 1%nat).
Proof.
  intros tz formatOther settings transcript.
  assert (Hout : outlineSection tz formatOther settings transcript = ""
                 \/ (tr_heading_segments transcript <> []
                     /\ outlineSection tz formatOther settings transcript
                        = "## Outline" ++ LF
                          ++ segmentsToTimestampedString tz formatOther
                               (tr_heading_segments transcript)
                               (timestampFormat settings) 0)).
  { unfold outlineSection. destruct (embedOutline settings); [|now left].
    destruct (tr_heading_segments transcript) as [|h l]; [now left|].
    right. split; [discriminate|reflexivity]. }
  assert (Hrun : outlineSection tz formatOther settings transcript <> "" ->
                 forall n,
                   lineBreakRun n (outlineSection tz formatOther settings transcript)
                   = 1%nat).
  { intros Hne n. destruct Hout as [E|[Hh E]]; [congruence|].
    rewrite E. rewrite <- append_assoc, lineBreakRun_append.
    now apply rendering_line_break. }
  split; [|split].
  - intros Ht. unfold afterTranscript, transcriptBody. rewrite Ht.
    destruct (tr_text_segments transcript) as [|s l] eqn:E.
    + split; reflexivity.
    + assert (Hr : forall n,
                 lineBreakRun n
                   (segmentsToTimestampedString tz formatOther (s :: l)
                      (timestampFormat settings) 0) = 1%nat).
      { intros n. apply rendering_line_break. discriminate. }
      assert (Hne : segmentsToTimestampedString tz formatOther (s :: l)
                      (timestampFormat settings) 0 <> "").
      { intros H0. specialize (Hr 0%nat). rewrite H0 in Hr. discriminate Hr. }
      rewrite ensureNewline_fixed.
      * split; [reflexivity|]. unfold trailingLineBreaks.
        rewrite <- append_assoc, lineBreakRun_append. apply Hr.
      * rewrite <- append_assoc, sliceLast_append by exact Hne.
        now apply (ends_in_line_break _ 0).
  - unfold afterOutline. apply ensureNewline_fixed.
    destruct Hout as [E|[Hh E]].
    + rewrite E, append_nil_r. apply ensureNewline_ends.
    + assert (Hne : outlineSection tz formatOther settings transcript <> "")
        by (rewrite E; discriminate).
      rewrite sliceLast_append by exact Hne.
      apply (ends_in_line_break _ 0 Hne), Hrun, Hne.
  - intros Hne. unfold afterOutline.
    rewrite trailingLineBreaks_ensureNewline. unfold trailingLineBreaks.
    rewrite lineBreakRun_append, (Hrun Hne). reflexivity.
Qed.

Lemma rendered_sections_close_themselves_witness :
  afterTranscript utc (fun _ pattern => pattern)
    (mkSettings true "auto" false false false false "auto")
    (mkTranscript "t1" "memo.mp3" (Some "complete") (Some "hello")
       [mkSegment 0 65 ("a" ++ LF ++ LF)] None [] [])
  = "## Transcript" ++ LF ++ "00:00 - 01:05: a" ++ LF.
Proof.
  rewrite (proj1 (proj1 (rendered_sections_close_themselves utc
             (fun _ pattern => pattern)
             (mkSettings true "auto" false false false false "auto")
             (mkTranscript "t1" "memo.mp3" (Some "complete") (Some "hello")
                [mkSegment 0 65 ("a" ++ LF ++ LF)] None [] [])) eq_refl)).
  reflexivity.
Defined.

(** X8.  When the summary, the outline and the keywords are each switched
    off or without content, and the link is off, the output is the
    Transcript section alone. *)
Theorem only_transcript_section :
  forall (tz : TimeZone) (formatOther : Z -> string -> string)
         (settings : TranscriptionSettings) (transcript : TranscriptSchema),
    (embedSummary settings = false
     \/ truthy (tr_summary transcript) = None
     \/ tr_summary transcript = Some SUMMARY_SENTINEL) ->
    (embedOutline settings = false \/ tr_heading_segments transcript = []) ->
    (embedKeywords settings = false \/ tr_keywords transcript = []) ->
    embedAdditionalFunctionality settings = false ->
    formatSwiftinkResults tz formatOther settings transcript
    = ensureNewline
        ("## Transcript" ++ LF ++ transcriptBody tz formatOther settings transcript).
Proof.
  intros tz formatOther settings transcript Hs Ho Hk Hl.
  assert (Es : summarySection settings transcript = "").
  { unfold summarySection. destruct Hs as [H|[H|H]].
    - rewrite H. now destruct (truthy (tr_summary transcript)).
    - now rewrite H.
    - rewrite H. cbn [truthy SUMMARY_SENTINEL].
      now rewrite String.eqb_refl, andb_false_r. }
  assert (Eo : outlineSection tz formatOther settings transcript = "").
  { unfold outlineSection. destruct Ho as [H|H]; rewrite H; [reflexivity|].
    now rewrite andb_false_r. }
  assert (Ek : keywordsSection settings transcript = "").
  { unfold keywordsSection. destruct Hk as [H|H]; rewrite H; [reflexivity|].
    now rewrite andb_false_r. }
  unfold formatSwiftinkResults, functionsLink, afterKeywords, afterOutline,
    afterSummary. rewrite Hl, Es, Eo, Ek, !append_nil_r.
  fold (afterTranscript tz formatOther settings transcript).
  rewrite !(ensureNewline_fixed _ (afterTranscript_ends tz formatOther settings transcript)).
  reflexivity.
Qed.

Lemma only_transcript_section_witness :
  formatSwiftinkResults utc (fun _ pattern => pattern)
    (mkSettings false "auto" true true true false "auto")
    (mkTranscript "t1" "memo.mp3" (Some "complete") (Some "hello") []
       (Some SUMMARY_SENTINEL) [] [])
  = "## Transcript" ++ LF ++ "hello" ++ LF.
Proof.
  rewrite (only_transcript_section utc (fun _ pattern => pattern)
             (mkSettings false "auto" true true true false "auto")
             (mkTranscript "t1" "memo.mp3" (Some "complete") (Some "hello") []
                (Some SUMMARY_SENTINEL) [] []));
    [reflexivity|right; right; reflexivity|now right|now right|reflexivity].
Defined.

(** X9.  The output ends in a line break exactly when the link is off:
    with the link on it ends in the closing parenthesis of the link, which
    follows the last line break directly. *)
Theorem output_ends_in_line_break_or_link :
  forall (tz : TimeZone) (formatOther : Z -> string -> string)
         (settings : TranscriptionSettings) (transcript : TranscriptSchema),
    (embedAdditionalFunctionality settings = false ->
     sliceLast (formatSwiftinkResults tz formatOther settings transcript) = LF)
    /\ (embedAdditionalFunctionality settings = true ->
        sliceLast (formatSwiftinkResults tz formatOther settings transcript) = ")"
        /\ formatSwiftinkResults tz formatOther settings transcript
           = afterKeywords tz formatOther settings transcript
             ++ "[...](obsidian://swiftink_transcript_functions?id="
             ++ tr_id transcript ++ ")"
        /\ sliceLast (afterKeywords tz formatOther settings transcript) = LF).
Proof.
  intros tz formatOther settings transcript.
  unfold formatSwiftinkResults, functionsLink. split; intros H; rewrite H.
  - rewrite append_nil_r. apply ensureNewline_ends.
  - split; [|split; [reflexivity|apply ensureNewline_ends]].
    rewrite <- !append_assoc. now rewrite sliceLast_append by discriminate.
Qed.

Lemma output_ends_in_line_break_or_link_witness :
  sliceLast
    (formatSwiftinkResults utc (fun _ pattern => pattern)
       (mkSettings false "auto" false false false true "auto")
       (transcriptWithStatus "complete"))
  = ")".
Proof.
  apply (proj2 (output_ends_in_line_break_or_link utc (fun _ pattern => pattern)
                  (mkSettings false "auto" false false false true "auto")
                  (transcriptWithStatus "complete"))).
  reflexivity.
Defined.

(** ** Bucketing, further *)

Lemma insertBy_length {A : Type} (key : A -> Q) (x : A) (l : list A) :
  List.length (insertBy key x l) = S (List.length l).
Proof.
  induction l as [|y l IH]; [reflexivity|].
  simpl. destruct (Qle_bool (key x) (key y)); simpl; [reflexivity|now rewrite IH].
Qed.

Lemma sortBy_length {A : Type} (key : A -> Q) (l : list A) :
  List.length (sortBy key l) = List.length l.
Proof.
  induction l as [|x l IH]; [reflexivity|].
  cbn [sortBy fold_right]. fold (sortBy key l).
  now rewrite insertBy_length, IH.
Qed.

Lemma enumerationOrder_length (keys : list Q) :
  List.length (enumerationOrder keys) = List.length keys.
Proof.
  unfold enumerationOrder. rewrite length_app, sortBy_length.
  apply filter_length.
Qed.

Lemma firstKeys_length (interval : Q) (segments : list TimestampedTextSegment) :
  (List.length (firstKeys interval segments) <= List.length segments)%nat.
Proof.
  induction segments as [|s l IH] using rev_ind; [apply le_n|].
  rewrite firstKeys_snoc, length_app. cbn [List.length].
  destruct (hasKey _ _); [lia|]. rewrite length_app. cbn [List.length]. lia.
Qed.

Lemma In_bucketedSegments (interval : Q) (segments : list TimestampedTextSegment)
    (b : TimestampedTextSegment) :
  In b (bucketedSegments interval segments)
  <-> exists k, In k (firstKeys interval segments)
                /\ b = bucketFor interval segments k.
Proof.
  rewrite bucketedSegments_spec, in_map_iff. split.
  - intros (k & <- & Hk). exists k. split; [now apply In_enumerationOrder|reflexivity].
  - intros (k & Hk & ->). exists k. split; [reflexivity|now apply In_enumerationOrder].
Qed.

(** *** The groups as a partition *)

Lemma g_texts_groupFor (interval : Q) (segments : list TimestampedTextSegment)
    (k : Q) :
  g_texts (groupFor interval segments k)
  = map text (members interval segments k).
Proof.
  unfold groupFor. now destruct (members interval segments k).
Qed.

Lemma flat_map_ext_in {A B : Type} (f g : A -> list B) (l : list A) :
  (forall a, In a l -> f a = g a) -> flat_map f l = flat_map g l.
Proof.
  intros H. rewrite !flat_map_concat_map. f_equal. now apply map_ext_in.
Qed.

Section Partition.

Context {A : Type}.
Variable f : A -> Q.

Local Abbreviation withKey k := (filter (fun a => Qeq_bool (f a) k)).

(** One more element goes to the one key, of distinct keys, that it has. *)
Lemma partition_cons (x : A) (l : list A) (keys : list Q) :
  NoDupA Qeq keys -> hasKey (f x) keys = true ->
  Permutation (flat_map (fun k => withKey k (x :: l)) keys)
    (x :: flat_map (fun k => withKey k l) keys).
Proof.
  induction keys as [|k ks IH]; intros Hnd Hk; [discriminate Hk|].
  inversion Hnd as [|? ? Hnotin Hnd']; subst.
  cbn [flat_map filter]. destruct (Qeq_bool (f x) k) eqn:E.
  - cbn [app]. constructor. apply Permutation_app_head.
    rewrite (flat_map_ext_in (fun k0 => withKey k0 (x :: l))
               (fun k0 => withKey k0 l)); [reflexivity|].
    intros k' Hk'. cbn [filter].
    destruct (Qeq_bool (f x) k') eqn:E'; [|reflexivity].
    exfalso. apply Hnotin. apply InA_alt. exists k'. split; [|exact Hk'].
    apply Qeq_bool_eq in E, E'. now rewrite <- E, <- E'.
  - unfold hasKey in Hk. cbn [existsb] in Hk. rewrite E in Hk. cbn [orb] in Hk.
    eapply Permutation_trans;
      [apply Permutation_app_head, (IH Hnd' Hk)|].
    symmetry. apply Permutation_middle.
Qed.

(** Filtering by each of the distinct keys met rearranges the list. *)
Lemma partition_by_keys (l : list A) (keys : list Q) :
  NoDupA Qeq keys -> (forall a, In a l -> hasKey (f a) keys = true) ->
  Permutation (flat_map (fun k => withKey k l) keys) l.
Proof.
  intros Hnd. induction l as [|x l IH]; intros Hall.
  - clear. induction keys as [|k ks IH]; [constructor|exact IH].
  - eapply Permutation_trans;
      [apply (partition_cons x l keys Hnd), Hall; now left|].
    constructor. apply IH. intros a Ha. apply Hall. now right.
Qed.

End Partition.

Lemma insertBy_permutation {A : Type} (key : A -> Q) (x : A) (l : list A) :
  Permutation (insertBy key x l) (x :: l).
Proof.
  induction l as [|y l IH]; [reflexivity|].
  cbn [insertBy]. destruct (Qle_bool (key x) (key y)); [reflexivity|].
  eapply Permutation_trans; [apply perm_skip, IH|apply perm_swap].
Qed.

Lemma sortBy_permutation {A : Type} (key : A -> Q) (l : list A) :
  Permutation (sortBy key l) l.
Proof.
  induction l as [|x l IH]; [constructor|].
  cbn [sortBy fold_right]. fold (sortBy key l).
  eapply Permutation_trans; [apply insertBy_permutation|now constructor].
Qed.

Lemma filter_split_permutation {A : Type} (p : A -> bool) (l : list A) :
  Permutation (filter p l ++ filter (fun a => negb (p a)) l) l.
Proof.
  induction l as [|x l IH]; [constructor|].
  cbn [filter]. destruct (p x); cbn [negb app].
  - now constructor.
  - symmetry. eapply Permutation_trans; [|apply Permutation_middle].
    constructor. now symmetry.
Qed.

(** [Object.values] rearranges the values of the object. *)
Lemma objectValues_permutation {V : Type} (o : NumKeyed V) :
  Permutation (objectValues o) (map snd o).
Proof.
  unfold objectValues, ownEntries. apply Permutation_map.
  eapply Permutation_trans; [|apply (filter_split_permutation
                                       (fun e => isArrayIndex (fst e)))].
  apply Permutation_app_tail. apply sortBy_permutation.
Qed.

(** X10.  The grouping loop partitions the segments.  The texts of the
    groups it builds, group after group, are the texts of the segments
    rearranged: each text is in one group, once.  A group stored under a
    key holds the texts of the segments with that key, in the order of the
    input, and at least one; the keys of the groups are distinct; the
    group of a segment is stored under the key of the segment.  The
    buckets rendered are the groups, rearranged, one bucket per group, so
    there are at most as many buckets as segments. *)
Theorem buckets_partition_the_segments :
  forall (interval : Q) (segments : list TimestampedTextSegment),
    Permutation
      (concat (map (fun entry => g_texts (snd entry))
                 (groupSegments interval segments)))
      (map text segments)
    /\ (forall k g,
           In (k, g) (groupSegments interval segments) ->
           g_texts g
           = map text
               (filter (fun s => Qeq_bool (intervalStart interval s) k) segments)
           /\ g_texts g <> [])
    /\ NoDupA Qeq (map fst (groupSegments interval segments))
    /\ (forall s, In s segments ->
           exists g,
             In (intervalStart interval s, g) (groupSegments interval segments)
             /\ In (text s) (g_texts g))
    /\ Permutation (bucketedSegments interval segments)
         (map (fun entry => bucketOfGroup (snd entry))
            (groupSegments interval segments))
    /\ List.length (bucketedSegments interval segments)
       = List.length (groupSegments interval segments)
    /\ (List.length (bucketedSegments interval segments)
        <= List.length segments)%nat.
Proof.
  intros interval segments.
  assert (Hperm : Permutation (bucketedSegments interval segments)
                    (map (fun entry => bucketOfGroup (snd entry))
                       (groupSegments interval segments))).
  { unfold bucketedSegments. rewrite <- (map_map snd bucketOfGroup).
    apply Permutation_map, objectValues_permutation. }
  assert (Hlen : List.length (bucketedSegments interval segments)
                 = List.length (groupSegments interval segments)).
  { rewrite (Permutation_length Hperm). apply length_map. }
  repeat match goal with |- _ /\ _ => split end.
  - rewrite groupSegments_spec, map_map. cbn [snd].
    rewrite (map_ext _ (fun k => map text (members interval segments k)))
      by (intros k; apply g_texts_groupFor).
    rewrite <- (map_map (members interval segments) (map text)).
    rewrite <- concat_map. apply Permutation_map.
    rewrite <- flat_map_concat_map.
    apply (partition_by_keys (intervalStart interval));
      [apply firstKeys_distinct|].
    intros s Hs. apply hasKey_In. now apply key_in_firstKeys.
  - intros k g Hin. rewrite groupSegments_spec in Hin.
    apply in_map_iff in Hin as (k' & E & Hk). injection E as -> <-.
    rewrite g_texts_groupFor. split; [reflexivity|].
    fold (members interval segments k).
    destruct (members interval segments k) eqn:Em; [|discriminate].
    apply members_nil_iff in Em. now rewrite (hasKey_In k _ Hk) in Em.
  - rewrite groupSegments_spec, map_map. cbn [fst]. rewrite map_id.
    apply firstKeys_distinct.
  - intros s Hs. exists (groupFor interval segments (intervalStart interval s)).
    split.
    + rewrite groupSegments_spec. apply in_map_iff.
      exists (intervalStart interval s). split; [reflexivity|].
      now apply key_in_firstKeys.
    + rewrite g_texts_groupFor. apply in_map. unfold members.
      apply filter_In. split; [exact Hs|apply Qeq_bool_refl].
  - exact Hperm.
  - exact Hlen.
  - rewrite Hlen, groupSegments_spec, length_map. apply firstKeys_length.
Qed.

Lemma buckets_partition_the_segments_witness :
  groupSegments 10
    [mkSegment 12 15 "b"; mkSegment 3 4 "a"; mkSegment 16 30 "c"]
  = [(10, mkGroup 12 30 ["b"; "c"]); (0, mkGroup 3 4 ["a"])]
  /\ g_texts (mkGroup 12 30 ["b"; "c"])
     = map text
         (filter (fun s => Qeq_bool (intervalStart 10 s) 10)
            [mkSegment 12 15 "b"; mkSegment 3 4 "a"; mkSegment 16 30 "c"]).
Proof.
  split; [vm_compute; reflexivity|].
  apply (proj1 (proj2 (buckets_partition_the_segments 10
                         [mkSegment 12 15 "b"; mkSegment 3 4 "a";
                          mkSegment 16 30 "c"])) 10 (mkGroup 12 30 ["b"; "c"])).
  vm_compute. left. reflexivity.
Defined.

(** X11.  Bucketing keeps segments well formed and invents no time: when
    no segment ends before it starts, no bucket does, and the start and the
    end of a bucket are the start and the end of segments of the input. *)
Theorem buckets_stay_well_formed :
  forall (interval : Q) (segments : list TimestampedTextSegment),
    (forall s, In s segments -> start s <= end_ s) ->
    forall b, In b (bucketedSegments interval segments) ->
              start b <= end_ b
              /\ (exists s, In s segments /\ start b = start s)
              /\ (exists s, In s segments /\ end_ b = end_ s).
Proof.
  intros interval segments Hwf b Hb.
  apply In_bucketedSegments in Hb as (k & Hk & ->).
  destruct (bucketFor_contents interval segments k Hk)
    as (first & rest & Hm & Hs & Hle & (m & Hmin & Hend) & _).
  assert (Hin : forall x, In x (first :: rest) -> In x segments).
  { intros x Hx. rewrite <- Hm in Hx. unfold members in Hx.
    now apply filter_In in Hx. }
  split; [|split].
  - rewrite Hs. eapply Qle_trans; [apply Hwf, Hin; now left|].
    apply Hle. now left.
  - exists first. split; [apply Hin; now left|exact Hs].
  - exists m. split; [now apply Hin|exact Hend].
Qed.

Lemma buckets_stay_well_formed_witness :
  start (bucketFor 10 [mkSegment 12 15 "b"; mkSegment 3 4 "a"; mkSegment 16 30 "c"]
           10)
  <= end_ (bucketFor 10 [mkSegment 12 15 "b"; mkSegment 3 4 "a"; mkSegment 16 30 "c"]
             10).
Proof.
  apply (buckets_stay_well_formed 10
           [mkSegment 12 15 "b"; mkSegment 3 4 "a"; mkSegment 16 30 "c"]).
  - intros s [<-|[<-|[<-|[]]]]; discriminate.
  - vm_compute. right. left. reflexivity.
Defined.

(** ** Object names, further *)

Lemma replaceMatches_in_match_head (s : string) :
  replaceMatches true s = ""
  \/ exists c r, replaceMatches true s = String c r /\ inClass c = true.
Proof.
  induction s as [|c s IH]; [now left|].
  cbn [replaceMatches]. destruct (inClass c) eqn:Hc; [|exact IH].
  right. exists c, (replaceMatches false s). now split.
Qed.

Lemma replaceMatches_squeezed (b : bool) (s : string) :
  squeezeDashes (replaceMatches b s) = replaceMatches b s.
Proof.
  revert b. induction s as [|c s IH]; intros b; [reflexivity|].
  cbn [replaceMatches]. destruct (inClass c) eqn:Hc.
  - rewrite squeezeDashes_cons_kept by now apply inClass_not_dash.
    now rewrite IH.
  - destruct b; [apply IH|].
    destruct (replaceMatches_in_match_head s) as [E|(d & r & E & Hd)].
    + now rewrite E.
    + rewrite E, squeezeDashes_dash_kept by now apply inClass_not_dash.
      rewrite <- E. now rewrite IH.
Qed.

Lemma replaceMatches_alphabet (b : bool) (s : string) :
  allChars nameChar (replaceMatches b s) = true.
Proof.
  revert b. induction s as [|c s IH]; intros b; [reflexivity|].
  cbn [replaceMatches]. destruct (inClass c) eqn:Hc.
  - cbn [allChars]. unfold nameChar at 1. now rewrite Hc, IH.
  - destruct b; [apply IH|]. cbn [allChars]. now rewrite IH.
Qed.

Lemma replaceMatches_length (b : bool) (s : string) :
  (String.length (replaceMatches b s) <= String.length s)%nat.
Proof.
  revert b. induction s as [|c s IH]; intros b; [apply le_n|].
  cbn [replaceMatches]. destruct (inClass c).
  - cbn [String.length]. specialize (IH false). lia.
  - destruct b; cbn [String.length]; specialize (IH true); lia.
Qed.

(** X12.  A sanitized name is made of letters, digits, dots and ["-"] only
    (so it holds no ["/"], no space and no quote), it never has two ["-"]
    in a row, and it is at most as long as the name. *)
Theorem sanitized_name_alphabet :
  forall (name : string),
    allChars nameChar (sanitizeName name) = true
    /\ squeezeDashes (sanitizeName name) = sanitizeName name
    /\ (String.length (sanitizeName name) <= String.length name)%nat.
Proof.
  intros name. unfold sanitizeName. split; [|split].
  - apply replaceMatches_alphabet.
  - apply replaceMatches_squeezed.
  - apply replaceMatches_length.
Qed.

Lemma replaceMatches_again (s : string) (b b' : bool) :
  (b' = true -> b = true) ->
  replaceMatches b' (replaceMatches b s) = replaceMatches b s.
Proof.
  revert b b'. induction s as [|c s IH]; intros b b' Hb; [now destruct b'|].
  cbn [replaceMatches]. destruct (inClass c) eqn:Hc.
  - cbn [replaceMatches]. rewrite Hc. now rewrite IH.
  - destruct b.
    + now apply IH.
    + destruct b'; [now specialize (Hb eq_refl)|].
      cbn [replaceMatches]. change (inClass "-") with false. cbv iota.
      now rewrite IH.
Qed.

Lemma replaceMatches_clean (b : bool) (s : string) :
  allChars inClass s = true -> replaceMatches b s = s.
Proof.
  revert b. induction s as [|c s IH]; intros b H; [reflexivity|].
  cbn [allChars] in H. apply andb_true_iff in H as [Hc Hs].
  cbn [replaceMatches]. now rewrite Hc, IH.
Qed.

(** X13.  Sanitizing is idempotent, and a name made of letters, digits and
    dots only is left as it is. *)
Theorem sanitizeName_idempotent :
  forall (name : string),
    sanitizeName (sanitizeName name) = sanitizeName name
    /\ (allChars inClass name = true -> sanitizeName name = name).
Proof.
  intros name. unfold sanitizeName. split.
  - now apply replaceMatches_again.
  - apply replaceMatches_clean.
Qed.

Lemma sanitizeName_idempotent_witness :
  sanitizeName "Interview.2024.mp3" = "Interview.2024.mp3".
Proof.
  apply (proj2 (sanitizeName_idempotent "Interview.2024.mp3")). reflexivity.
Defined.

(** ** Backend B, further *)

Section BackendBRuns.

Variable tz : TimeZone.
Variable formatOther : Z -> string -> string.
Variable settings : TranscriptionSettings.

Lemma pollCallback_continue_bound (tries : N) (transcript : TranscriptSchema) :
  pollCallback tz formatOther settings tries transcript = PollContinue ->
  (tries <= MAX_TRIES)%N.
Proof.
  unfold pollCallback.
  destruct (statusCompleted _ _); [discriminate|].
  destruct (statusIs _ "failed"); [discriminate|].
  destruct (statusIs _ "validation_failed"); [discriminate|].
  destruct (MAX_TRIES <? tries)%N eqn:E; [discriminate|].
  intros _. now apply N.ltb_ge.
Qed.

Lemma polls_bounded (polls : list TranscriptSchema) (tries : N) :
  let st :=
    runB tz formatOther settings "" (mkStateB (Polling tries) Pending)
      (map PollResponse polls) in
  (phaseB st = Finished /\ promiseB st <> Pending)
  \/ (st = mkStateB (Polling (tries + N.of_nat (List.length polls))) Pending
      /\ (polls = []
          \/ (tries + N.of_nat (List.length polls) <= MAX_TRIES + 1)%N)).
Proof.
  revert tries. induction polls as [|t l IH]; intros tries; cbv zeta.
  - right. cbn. rewrite N.add_0_r. split; [reflexivity|now left].
  - cbn [map]. rewrite runB_cons, stepB_poll.
    destruct (pollCallback tz formatOther settings tries t) eqn:E.
    + left. rewrite runB_finished by reflexivity. split; [reflexivity|discriminate].
    + left. rewrite runB_finished by reflexivity. split; [reflexivity|discriminate].
    + apply pollCallback_continue_bound in E.
      destruct (IH (tries + 1)%N) as [H|[H Hlen]]; [now left|].
      right. rewrite H. cbn [List.length]. rewrite Nat2N.inj_succ.
      split; [f_equal; f_equal; lia|].
      right. destruct Hlen as [->|Hlen]; [cbn; unfold MAX_TRIES in *; lia|lia].
Qed.

End BackendBRuns.

(** X14.  The poll loop of Backend B is bounded: whatever the polls
    return, the promise is settled and the interval cleared once 102 polls
    have returned, and polls beyond those change nothing. *)
Theorem polling_ends_within_102_polls :
  forall (tz : TimeZone) (formatOther : Z -> string -> string)
         (settings : TranscriptionSettings) (polls : list TranscriptSchema),
    (102 <= List.length polls)%nat ->
    phaseB (pollLoop tz formatOther settings polls) = Finished
    /\ promiseB (pollLoop tz formatOther settings polls) <> Pending
    /\ pollLoop tz formatOther settings polls
       = pollLoop tz formatOther settings (firstn 102 polls).
Proof.
  intros tz formatOther settings polls Hlen.
  assert (Hfin : forall l, (102 <= List.length l)%nat ->
                 phaseB (pollLoop tz formatOther settings l) = Finished
                 /\ promiseB (pollLoop tz formatOther settings l) <> Pending).
  { intros l Hl. unfold pollLoop.
    destruct (polls_bounded tz formatOther settings l 0) as [H|[_ [->|H]]].
    - exact H.
    - cbn in Hl. lia.
    - unfold MAX_TRIES in H. lia. }
  destruct (Hfin polls Hlen) as [H1 H2]. split; [exact H1|]. split; [exact H2|].
  rewrite <- (firstn_skipn 102 polls) at 1.
  unfold pollLoop. rewrite map_app, run_app.
  apply runB_finished.
  apply (proj1 (Hfin (firstn 102 polls) ltac:(rewrite length_firstn; lia))).
Qed.

Lemma polling_ends_within_102_polls_witness :
  phaseB
    (pollLoop utc (fun _ pattern => pattern) settingsWithSummary
       (repeat (transcriptWithStatus "transcribed") 150))
  = Finished.
Proof.
  apply (polling_ends_within_102_polls utc (fun _ pattern => pattern)
           settingsWithSummary (repeat (transcriptWithStatus "transcribed") 150)).
  rewrite repeat_length. repeat constructor.
Defined.

(** X15.  A poll request that fails is not counted and settles nothing:
    a run is what it is without its failed polls, so that no number of
    failed polls ends the polling. *)
Theorem failed_polls_are_not_counted :
  forall (tz : TimeZone) (formatOther : Z -> string -> string)
         (settings : TranscriptionSettings) (fileName : string)
         (st : StateB) (events : list EventB),
    runB tz formatOther settings fileName st events
    = runB tz formatOther settings fileName st
        (filter (fun ev => negb (isPollFailed ev)) events)
    /\ (forall errors,
           runB tz formatOther settings fileName st (map PollFailed errors) = st).
Proof.
  intros tz formatOther settings fileName st events.
  assert (Hstep : forall s error,
             stepB tz formatOther settings fileName s (PollFailed error) = s).
  { intros s error. unfold stepB. now destruct (phaseB s). }
  split.
  - revert st. induction events as [|ev l IH]; intros st; [reflexivity|].
    cbn [filter]. destruct ev; cbn [isPollFailed negb];
      rewrite !runB_cons; try apply IH.
    rewrite Hstep. apply IH.
  - intros errors. induction errors as [|e l IH]; [reflexivity|].
    cbn [map]. rewrite runB_cons, Hstep. exact IH.
Qed.

(** X16.  When all goes well up to the creation of the transcript, the run
    of Backend B is the poll loop on the polls that follow; the name of the
    file plays no part in it. *)
Theorem run_reaches_the_poll_loop :
  forall (tz : TimeZone) (formatOther : Z -> string -> string)
         (settings : TranscriptionSettings) (fileName : string)
         (session : Session) (created : TranscriptSchema)
         (polls : list TranscriptSchema),
    runB tz formatOther settings fileName initB
      (eventsBeforePolling session created ++ map PollResponse polls)
    = pollLoop tz formatOther settings polls.
Proof.
  intros tz formatOther settings fileName session created polls.
  unfold pollLoop, runB. rewrite fold_left_app.
  change (fold_left (stepB tz formatOther settings fileName)
            (eventsBeforePolling session created) initB)
    with (mkStateB (Polling 0) Pending).
  generalize (mkStateB (Polling 0) Pending). 
  induction polls as [|t l IH]; intros st; [reflexivity|].
  cbn [map fold_left].
  replace (stepB tz formatOther settings fileName st (PollResponse t))
    with (stepB tz formatOther settings "" st (PollResponse t)); [apply IH|].
  unfold stepB. now destruct (phaseB st).
Qed.

(** X17.  A missing session, a file that cannot be read and a transcript
    that cannot be created each reject the promise at once, and no later
    event changes the outcome. *)
Theorem early_failures_are_final :
  forall (tz : TimeZone) (formatOther : Z -> string -> string)
         (settings : TranscriptionSettings) (fileName : string)
         (events : list EventB),
    runB tz formatOther settings fileName initB (SessionResult None :: events)
    = mkStateB Finished
        (Rejected (Message "No user session found. Please log in and try again."))
    /\ (forall session error,
           runB tz formatOther settings fileName initB
             (SessionResult (Some session) :: ReadFailed error :: events)
           = mkStateB Finished (Rejected (ErrorObject error)))
    /\ (forall session error,
           runB tz formatOther settings fileName initB
             (SessionResult (Some session) :: ReadOk :: UploadSuccess
              :: CreateFailed error :: events)
           = mkStateB Finished (Rejected (ErrorObject error))).
Proof.
  intros tz formatOther settings fileName events. split; [|split]; intros;
    rewrite !runB_cons; now apply runB_finished.
Qed.

Lemma pollCallback_failure (tz : TimeZone) (formatOther : Z -> string -> string)
    (settings : TranscriptionSettings) (tries : N) (transcript : TranscriptSchema) :
  (tr_status transcript = Some "failed" ->
   pollCallback tz formatOther settings tries transcript
   = PollReject "Swiftink failed to transcribe the file")
  /\ (tr_status transcript = Some "validation_failed" ->
      pollCallback tz formatOther settings tries transcript
      = PollReject "Swiftink has detected an invalid file").
Proof.
  split; intros H; unfold pollCallback, statusCompleted, statusIs,
    completed_statuses; rewrite H; cbn [truthy];
    destruct (embedSummary settings || embedOutline settings
              || embedKeywords settings)%bool; reflexivity.
Qed.

(** X18.  A poll whose status is ["failed"] or ["validation_failed"] ends
    the loop with the rejection message of that status, whatever the
    settings and after any number of polls that were not terminal: on the
    last poll examined, the 102nd, the failure is reported and not the
    timeout. *)
Theorem failure_statuses_reject :
  forall (tz : TimeZone) (formatOther : Z -> string -> string)
         (settings : TranscriptionSettings) (polls : list TranscriptSchema)
         (transcript : TranscriptSchema),
    forallb (nonTerminal settings) polls = true ->
    (List.length polls <= 101)%nat ->
    (tr_status transcript = Some "failed" ->
     pollLoop tz formatOther settings (polls ++ [transcript])
     = mkStateB Finished
         (Rejected (Message "Swiftink failed to transcribe the file")))
    /\ (tr_status transcript = Some "validation_failed" ->
        pollLoop tz formatOther settings (polls ++ [transcript])
        = mkStateB Finished
            (Rejected (Message "Swiftink has detected an invalid file"))).
Proof.
  intros tz formatOther settings polls transcript Hall Hlen.
  assert (E : pollLoop tz formatOther settings (polls ++ [transcript])
              = stepB tz formatOther settings ""
                  (mkStateB (Polling (N.of_nat (List.length polls))) Pending)
                  (PollResponse transcript)).
  { unfold pollLoop. rewrite map_app, run_app.
    rewrite polls_continue; [reflexivity|exact Hall|unfold MAX_TRIES; lia]. }
  rewrite E, stepB_poll.
  destruct (pollCallback_failure tz formatOther settings
              (N.of_nat (List.length polls)) transcript) as [H1 H2].
  split; intros H; [rewrite (H1 H)|rewrite (H2 H)]; reflexivity.
Qed.

Lemma failure_statuses_reject_witness :
  pollLoop utc (fun _ pattern => pattern) settingsAllOff
    (repeat (transcriptWithStatus "transcribing") 101
     ++ [transcriptWithStatus "failed"])
  = mkStateB Finished
      (Rejected (Message "Swiftink failed to transcribe the file")).
Proof.
  apply (proj1 (failure_statuses_reject utc (fun _ pattern => pattern)
                  settingsAllOff (repeat (transcriptWithStatus "transcribing") 101)
                  (transcriptWithStatus "failed") eq_refl
                  ltac:(rewrite repeat_length; apply le_n))).
  reflexivity.
Defined.

(** ** Backend A, further *)

Lemma runA_app (st : StateA) (events events' : list EventA) :
  runA st (events ++ events') = runA (runA st events) events'.
Proof. unfold runA. apply fold_left_app. Qed.

Lemma waiting_rounds_from (task : option string)
    (responses : list QueryResponse) (n : nat) :
  (forall r, In r responses -> q_code r = 11001%Z) ->
  runA (mkStateA Pending true (Some task) (repeat (queryPath task) n) 0)
    (flat_map pollRound responses)
  = mkStateA Pending true (Some task)
      (repeat (queryPath task) (n + List.length responses)) 0.
Proof.
  revert n. induction responses as [|r l IH]; intros n H.
  - cbn. now rewrite Nat.add_0_r.
  - cbn [flat_map]. rewrite runA_app.
    assert (Hr : q_code r = 11001%Z) by (apply H; now left).
    assert (E : runA (mkStateA Pending true (Some task)
                        (repeat (queryPath task) n) 0) (pollRound r)
                = mkStateA Pending true (Some task)
                    (repeat (queryPath task) (S n)) 0).
    { cbn. rewrite Hr. cbn. f_equal. rewrite <- repeat_cons. reflexivity. }
    rewrite E, IH by (intros x Hx; apply H; now right).
    cbn [List.length]. f_equal. f_equal. lia.
Qed.

(** X19.  The polling of Backend A has no cap: as long as each query is
    answered with code 11001 the promise stays pending and the interval
    set, one more query being issued at each firing, however many rounds
    go by. *)
Theorem waiting_rounds_never_settle :
  forall (task : option string) (message : string)
         (responses : list QueryResponse),
    (forall r, In r responses -> q_code r = 11001%Z) ->
    runA (stepA initA (CreateResponseEnd (mkCreateResponse 10000 task message)))
      (flat_map pollRound responses)
    = mkStateA Pending true (Some task)
        (repeat (queryPath task) (List.length responses)) 0.
Proof.
  intros task message responses H.
  exact (waiting_rounds_from task responses 0 H).
Qed.

Lemma waiting_rounds_never_settle_witness :
  promiseA
    (runA (stepA initA (CreateResponseEnd (mkCreateResponse 10000 (Some "task7") "")))
       (flat_map pollRound (repeat (mkQueryResponse 11001 [] "") 500)))
  = Pending.
Proof.
  rewrite (waiting_rounds_never_settle (Some "task7") ""
             (repeat (mkQueryResponse 11001 [] "") 500)).
  - reflexivity.
  - intros r Hr. apply repeat_spec in Hr. now rewrite Hr.
Defined.

Lemma stepA_created (st : StateA) (ev : EventA) :
  created st = true -> created (stepA st ev) = true.
Proof.
  intros Hc. destruct ev as [r|e| |r|e]; cbn [stepA].
  - now rewrite Hc.
  - exact Hc.
  - destruct (intervalID st); exact Hc.
  - destruct (outstanding st); [exact Hc|].
    destruct (q_code r =? 11000)%Z; [exact Hc|].
    destruct (q_code r =? 11001)%Z; exact Hc.
  - destruct (outstanding st); exact Hc.
Qed.

(** Before the create response has come there is no interval and no query
    under way. *)
Lemma created_or_idle (events : list EventA) (st : StateA) :
  (created st = false -> intervalID st = None /\ outstanding st = 0%nat) ->
  created (runA st events) = false ->
  intervalID (runA st events) = None /\ outstanding (runA st events) = 0%nat.
Proof.
  revert st. induction events as [|ev l IH]; intros st Hst; [exact Hst|].
  cbn [runA fold_left]. apply IH.
  destruct (created st) eqn:Ec.
  - intros H. rewrite (stepA_created st ev Ec) in H. discriminate H.
  - destruct (Hst eq_refl) as [Hi Ho]. intros H.
    destruct ev as [r|e| |r|e].
    + cbn [stepA] in H. rewrite Ec in H.
      destruct (code r =? 10000)%Z; cbn in H; discriminate H.
    + now rewrite stepA_idle by (try assumption; now right).
    + now rewrite stepA_idle by (try assumption; now right).
    + now rewrite stepA_idle by (try assumption; now right).
    + now rewrite stepA_idle by (try assumption; now right).
Qed.

Lemma settled_resolve {V : Type} (v : V) (p : Promise V) :
  resolve v p <> Pending /\ (p <> Pending -> resolve v p = p).
Proof. destruct p; cbn; split; congruence. Qed.

Lemma settled_reject {V : Type} (r : Reason) (p : Promise V) :
  reject r p <> Pending /\ (p <> Pending -> reject r p = p).
Proof. destruct p; cbn; split; congruence. Qed.

Lemma stepA_after_end (st : StateA) (ev : EventA) :
  created st = true -> intervalID st = None -> promiseA st <> Pending ->
  created (stepA st ev) = true
  /\ intervalID (stepA st ev) = None
  /\ promiseA (stepA st ev) = promiseA st
  /\ queries (stepA st ev) = queries st.
Proof.
  intros Hc Hi Hp. destruct ev as [r|e| |r|e]; cbn [stepA].
  - rewrite Hc. auto.
  - auto.
  - rewrite Hi. auto.
  - destruct (outstanding st); [auto|].
    destruct (q_code r =? 11000)%Z;
      [|destruct (q_code r =? 11001)%Z];
      cbn [clearInterval settleA answered created intervalID promiseA queries];
      repeat split; auto.
    + now apply settled_resolve.
    + now apply settled_reject.
  - destruct (outstanding st); [auto|].
    cbn [clearInterval settleA answered created intervalID promiseA queries].
    repeat split; auto. now apply settled_reject.
Qed.

Lemma runA_after_end (events : list EventA) (st : StateA) :
  created st = true -> intervalID st = None -> promiseA st <> Pending ->
  promiseA (runA st events) = promiseA st
  /\ queries (runA st events) = queries st.
Proof.
  revert st. induction events as [|ev l IH]; intros st Hc Hi Hp; [now split|].
  cbn [runA fold_left].
  destruct (stepA_after_end st ev Hc Hi Hp) as (Hc' & Hi' & Hp' & Hq').
  destruct (IH (stepA st ev) Hc' Hi' ltac:(now rewrite Hp')) as [H1 H2].
  unfold runA in *. now rewrite H1, H2, Hp', Hq'.
Qed.

(** X20.  In Backend A the outcome of a query that ends the polling is
    final: once a query under way is answered with a code other than
    11001, or fails, the promise is settled, and from then on no query
    request is issued and no later response or error changes the
    promise. *)
Theorem polling_end_is_final :
  forall (before : list EventA) (ev : EventA) (after : list EventA),
    let st := runA initA before in
    (0 < outstanding st)%nat ->
    endsPollingA ev = true ->
    promiseA (stepA st ev) <> Pending
    /\ intervalID (stepA st ev) = None
    /\ promiseA (runA initA (before ++ ev :: after)) = promiseA (stepA st ev)
    /\ queries (runA initA (before ++ ev :: after)) = queries st.
Proof.
  intros before ev after st Ho Hev.
  assert (Hc : created st = true).
  { destruct (created st) eqn:E; [reflexivity|].
    destruct (created_or_idle before initA (fun _ => conj eq_refl eq_refl) E)
      as [_ H0].
    fold st in H0. lia. }
  assert (Hend : promiseA (stepA st ev) <> Pending
                 /\ intervalID (stepA st ev) = None
                 /\ created (stepA st ev) = true
                 /\ queries (stepA st ev) = queries st).
  { destruct ev as [r|e| |r|e]; try discriminate Hev;
      cbn [stepA endsPollingA] in *.
    - destruct (outstanding st); [lia|].
      apply negb_true_iff in Hev. rewrite Hev.
      destruct (q_code r =? 11000)%Z;
        cbn [clearInterval settleA answered created intervalID promiseA queries];
        repeat split; auto; [apply settled_resolve|apply settled_reject].
    - destruct (outstanding st); [lia|].
      cbn [clearInterval settleA answered created intervalID promiseA queries].
      repeat split; auto. apply settled_reject. }
  destruct Hend as (Hp & Hi & Hc' & Hq).
  split; [exact Hp|]. split; [exact Hi|].
  rewrite runA_app. fold st. cbn [runA fold_left].
  destruct (runA_after_end after (stepA st ev) Hc' Hi Hp) as [H1 H2].
  unfold runA in *. now rewrite H1, H2, Hq.
Qed.

Lemma polling_end_is_final_witness :
  promiseA
    (runA initA
       ([CreateResponseEnd (mkCreateResponse 10000 (Some "task7") "");
         IntervalFires; IntervalFires]
        ++ QueryResponseEnd (mkQueryResponse 11000 ["Hello"; "world"] "")
        :: [QueryRequestError "ECONNRESET"; IntervalFires]))
  = Resolved "Hello world".
Proof.
  rewrite (proj1 (proj2 (proj2 (polling_end_is_final
             [CreateResponseEnd (mkCreateResponse 10000 (Some "task7") "");
              IntervalFires; IntervalFires]
             (QueryResponseEnd (mkQueryResponse 11000 ["Hello"; "world"] ""))
             [QueryRequestError "ECONNRESET"; IntervalFires]
             ltac:(cbn; lia) eq_refl)))).
  reflexivity.
Defined.

(** ** Backend A: the create request *)

Lemma split_no_colon (s : string) : noColon s = true -> split ":" s = [s].
Proof.
  induction s as [|c s IH]; [reflexivity|].
  unfold noColon. cbn [allChars]. intros H.
  apply andb_true_iff in H as [Hc Hs]. apply negb_true_iff in Hc.
  cbn [split]. rewrite Hc. now rewrite (IH Hs).
Qed.

Lemma split_at_colon (a r : string) :
  noColon a = true -> split ":" (a ++ ":" ++ r) = a :: split ":" r.
Proof.
  induction a as [|c a IH]; [reflexivity|].
  unfold noColon. cbn [allChars]. intros H.
  apply andb_true_iff in H as [Hc Hs]. apply negb_true_iff in Hc.
  change (String c a ++ ":" ++ r) with (String c (a ++ ":" ++ r)).
  cbn [split]. rewrite Hc. now rewrite (IH Hs).
Qed.

(** X21.  The credentials are the first two pieces of the configured
    string cut at its colons.  An identifier and a secret without colon,
    joined by a colon, are recovered; after a second colon the rest is
    dropped; and without any colon the whole string is the identifier and
    there is no secret. *)
Theorem credentials_from_colon_separated_string :
  forall (id secret : string),
    noColon id = true ->
    (noColon secret = true ->
     API_KEY_ID (id ++ ":" ++ secret) = Some id
     /\ API_KEY_SECRET (id ++ ":" ++ secret) = Some secret
     /\ forall rest,
         API_KEY_ID (id ++ ":" ++ secret ++ ":" ++ rest) = Some id
         /\ API_KEY_SECRET (id ++ ":" ++ secret ++ ":" ++ rest) = Some secret)
    /\ API_KEY_ID id = Some id
    /\ API_KEY_SECRET id = None.
Proof.
  intros id secret Hid. unfold API_KEY_ID, API_KEY_SECRET, apiKeyData.
  split; [|now rewrite (split_no_colon id Hid)].
  intros Hs. rewrite (split_at_colon id secret Hid), (split_no_colon secret Hs).
  split; [reflexivity|]. split; [reflexivity|].
  intros rest.
  now rewrite (split_at_colon id _ Hid), (split_at_colon secret rest Hs).
Qed.

Lemma credentials_from_colon_separated_string_witness :
  API_KEY_ID "key17:s3cret" = Some "key17"
  /\ API_KEY_SECRET "key17:s3cret" = Some "s3cret".
Proof.
  destruct (proj1 (credentials_from_colon_separated_string "key17" "s3cret"
                     eq_refl) eq_refl) as (H1 & H2 & _).
  exact (conj H1 H2).
Defined.

Lemma utf8_length (s : string) : (String.length s <= List.length (utf8 s))%nat.
Proof.
  induction s as [|c s IH]; [apply le_n|].
  cbn [utf8 String.length]. destruct (charCode c <? 128)%N; cbn [List.length]; lia.
Qed.

Lemma utf8_append (s t : string) : utf8 (s ++ t) = (utf8 s ++ utf8 t)%list.
Proof.
  induction s as [|c s IH]; [reflexivity|].
  cbn [append utf8]. destruct (charCode c <? 128)%N; cbn [app]; now rewrite IH.
Qed.

(** X22.  The create request is handed more bytes than its
    [Content-Length] header declares: the header counts the multipart body
    alone, and the text [lang=ru&remotePath=<file name>] is written after
    it, at least 19 bytes and the length of the file name more. *)
Theorem body_written_exceeds_content_length :
  forall (uuid fileName : string) (fileBytes : list ascii),
    let boundary := boundaryOf uuid in
    List.length (bytesWritten boundary fileName fileBytes)
    = (contentLength boundary fileName fileBytes
       + List.length (utf8 (createData fileName)))%nat
    /\ (contentLength boundary fileName fileBytes + 19 + String.length fileName
        <= List.length (bytesWritten boundary fileName fileBytes))%nat
    /\ firstn (contentLength boundary fileName fileBytes)
         (bytesWritten boundary fileName fileBytes)
       = formDataBuffer boundary fileName fileBytes.
Proof.
  intros uuid fileName fileBytes boundary.
  unfold bytesWritten, contentLength. rewrite length_app.
  split; [reflexivity|]. split.
  - unfold createData, LANG. rewrite !utf8_append, !length_app.
    pose proof (utf8_length fileName). cbn. lia.
  - rewrite firstn_app, Nat.sub_diag, firstn_all. cbn [firstn].
    apply app_nil_r.
Qed.
